(** * Position/range translation and result transformation of volar.js

    A shallow embedding of
      - packages/language-service/lib/documents.ts
      - packages/typescript/lib/node/transform.ts
    together with the properties their specification states about them.

    Generators are embedded as the finite list of the values they yield, in
    yield order; "the first value of the generator" is the head of that list.
    JavaScript objects whose identity matters (diagnostics, snapshots, text
    documents) live in explicit stores and are named by their index. *)

From Stdlib Require Import Ascii Sorted.
From stdpp Require Import gmap strings list.

Local Open Scope Z_scope.
Set Warnings "-clear-no-such-hyp".

(** ** The segment mapping (package source-map, consumed only) *)

Module SourceMap.

(** [CodeRangeKey = 'sourceOffsets' | 'generatedOffsets'] *)
Inductive CodeRangeKey := sourceOffsets | generatedOffsets.

Record Mapping (Data : Type) := {
  m_sourceOffsets : list Z;
  m_generatedOffsets : list Z;
  lengths : list Z;
  data : Data;
}.
Arguments m_sourceOffsets {Data} _.
Arguments m_generatedOffsets {Data} _.
Arguments lengths {Data} _.
Arguments data {Data} _.

(** [mapping[key]] *)
Definition offsetsOf {Data} (key : CodeRangeKey) (mapping : Mapping Data) : list Z :=
  match key with
  | sourceOffsets => m_sourceOffsets mapping
  | generatedOffsets => m_generatedOffsets mapping
  end.

(** Modelled from the spec: [translateOffset] of the source-map package is not
    among the sources.  "Within one segment, offset translation is a pure
    linear shift": the first segment [i] with
    [fromOffsets[i] <= start <= fromOffsets[i] + lengths[i]] answers
    [toOffsets[i] + (start - fromOffsets[i])]; the distance travelled inside the
    segment does not exceed its length, so the end boundary of a segment is
    translated too (the spec's exact-range property relies on it). *)
Fixpoint translateOffset (start : Z) (fromOffsets toOffsets lens : list Z) : option Z :=
  match fromOffsets, toOffsets, lens with
  | fromOffset :: fromOffsets', toOffset :: toOffsets', len :: lens' =>
      if bool_decide (fromOffset <= start) && bool_decide (start <= fromOffset + len)
      then Some (toOffset + start - fromOffset)
      else translateOffset start fromOffsets' toOffsets' lens'
  | _, _, _ => None
  end.

(** A source map is the ordered list of its mappings. *)
Definition SourceMap (Data : Type) : Type := list (Mapping Data).

(** Modelled from the spec: [SourceMap.findMatching] is not among the sources.
    It yields, in mapping declaration order, the pair (mapped offset, mapping)
    of every mapping that has a segment containing [offset] on the "from"
    side. *)
Definition findMatching {Data} (map : SourceMap Data) (offset : Z)
    (fromRange toRange : CodeRangeKey) : list (Z * Mapping Data) :=
  omap (fun mapping =>
          (fun mapped => (mapped, mapping)) <$>
            translateOffset offset (offsetsOf fromRange mapping)
              (offsetsOf toRange mapping) (lengths mapping))
       map.

(** Modelled from the spec: [getSourceOffsets] / [getGeneratedOffsets] are the
    two directions of [findMatching]. *)
Definition getSourceOffsets {Data} (map : SourceMap Data) (generatedOffset : Z) :=
  findMatching map generatedOffset generatedOffsets sourceOffsets.

Definition getGeneratedOffsets {Data} (map : SourceMap Data) (sourceOffset : Z) :=
  findMatching map sourceOffset sourceOffsets generatedOffsets.

(** Modelled from the spec: [LinkedCodeMap.getLinkedOffsets] is not among the
    sources.  The mirror map has no source/generated distinction: every offset
    linked to [start] in either direction is produced. *)
Definition getLinkedOffsets {Data} (map : SourceMap Data) (start : Z) : list Z :=
  (fst <$> getGeneratedOffsets map start) ++ (fst <$> getSourceOffsets map start).

End SourceMap.

(** ** Text documents (vscode-languageserver-textdocument, external) *)

Module TextDocument.

Record Position := { line : Z; character : Z }.

Record Range := { start : Position; end_ : Position }.

Record TextDocument := {
  uri : string;
  languageId : string;
  version : nat;
  getText : string;
}.

(** [TextDocument.create(uri, languageId, version, content)] *)
Definition create (uri languageId : string) (version : nat) (content : string) : TextDocument :=
  {| uri := uri; languageId := languageId; version := version; getText := content |}.

(** Start offsets of the lines after the first one; [i] is the offset of the
    head of [text].  A carriage return directly followed by a line feed is one
    line break. *)
Fixpoint lineBreaks (i : Z) (text : list ascii) : list Z :=
  match text with
  | [] => []
  | c :: rest =>
      if bool_decide (c = "013"%char) then
        match rest with
        | c' :: _ =>
            if bool_decide (c' = "010"%char) then lineBreaks (i + 1) rest
            else (i + 1) :: lineBreaks (i + 1) rest
        | [] => [i + 1]
        end
      else if bool_decide (c = "010"%char) then (i + 1) :: lineBreaks (i + 1) rest
      else lineBreaks (i + 1) rest
  end.

Definition getLineOffsets (doc : TextDocument) : list Z :=
  0 :: lineBreaks 0 (String.list_ascii_of_string (getText doc)).

Definition contentLength (doc : TextDocument) : Z :=
  Z.of_nat (String.length (getText doc)).

(** [offsetAt]: a line past the last one gives the end of the text, a negative
    line gives 0, and the character is clamped into its line. *)
Definition offsetAt (doc : TextDocument) (position : Position) : Z :=
  let lineOffsets := getLineOffsets doc in
  if bool_decide (Z.of_nat (length lineOffsets) <= line position) then contentLength doc
  else if bool_decide (line position < 0) then 0
  else
    let lineOffset := default 0 (lineOffsets !! Z.to_nat (line position)) in
    let nextLineOffset :=
      default (contentLength doc) (lineOffsets !! S (Z.to_nat (line position))) in
    Z.max (Z.min (lineOffset + character position) nextLineOffset) lineOffset.

(** [positionAt]: the offset is clamped to the text; the line is the last one
    that starts at or before the offset (the library finds it by binary search
    in the sorted table of line starts). *)
Definition positionAt (doc : TextDocument) (offset : Z) : Position :=
  let offset := Z.max (Z.min offset (contentLength doc)) 0 in
  let lineOffsets := getLineOffsets doc in
  let low := length (filter (fun o => o <= offset) lineOffsets) in
  let line := (Z.of_nat low - 1) in
  {| line := line;
     character := offset - default 0 (lineOffsets !! Z.to_nat line) |}.

End TextDocument.

(** ** packages/language-service/lib/documents.ts: the translator *)

Module Documents.
Import SourceMap TextDocument.

Section SourceMapWithDocuments.
Context {Data : Type}.

Record SourceMapWithDocuments := {
  sourceFileDocument : TextDocument;
  virtualFileDocument : TextDocument;
  map : SourceMap Data;
}.

Variable this : SourceMapWithDocuments.

Definition findPositions (position : Position) (filter : Data -> bool)
    (fromDoc toDoc : TextDocument) (from to : CodeRangeKey)
    : list (Position * Mapping Data) :=
  omap (fun mapped : Z * Mapping Data =>
          if negb (filter (data (snd mapped))) then None
          else Some (positionAt toDoc (fst mapped), snd mapped))
       (findMatching (map this) (offsetAt fromDoc position) from to).

Definition getSourcePositionsBase (position : Position) (filter : Data -> bool) :=
  findPositions position filter (virtualFileDocument this) (sourceFileDocument this)
    generatedOffsets sourceOffsets.

Definition getGeneratedPositionsBase (position : Position) (filter : Data -> bool) :=
  findPositions position filter (sourceFileDocument this) (virtualFileDocument this)
    sourceOffsets generatedOffsets.

Definition matchSourcePosition (position : Position) (mapping : Mapping Data) : option Position :=
  let offset :=
    translateOffset (offsetAt (virtualFileDocument this) position)
      (m_generatedOffsets mapping) (m_sourceOffsets mapping) (lengths mapping) in
  match offset with
  | Some offset => Some (positionAt (sourceFileDocument this) offset)
  | None => None
  end.

Definition matchGeneratedPosition (position : Position) (mapping : Mapping Data) : option Position :=
  let offset :=
    translateOffset (offsetAt (sourceFileDocument this) position)
      (m_sourceOffsets mapping) (m_generatedOffsets mapping) (lengths mapping) in
  match offset with
  | Some offset => Some (positionAt (virtualFileDocument this) offset)
  | None => None
  end.

(** The two string-literal parameters of [findRanges] and the methods
    [this[api]], [this[api2]] they select. *)
Inductive PositionsApi := getSourcePositionsBase_ | getGeneratedPositionsBase_.
Inductive MatchApi := matchSourcePosition_ | matchGeneratedPosition_.

Definition callApi (api : PositionsApi) :=
  match api with
  | getSourcePositionsBase_ => getSourcePositionsBase
  | getGeneratedPositionsBase_ => getGeneratedPositionsBase
  end.

Definition callApi2 (api2 : MatchApi) :=
  match api2 with
  | matchSourcePosition_ => matchSourcePosition
  | matchGeneratedPosition_ => matchGeneratedPosition
  end.

(** One iteration of the first loop of [findRanges]: the state is the list of
    ranges yielded so far and the array [failedLookUps]. *)
Definition findRanges_step (range : Range) (api2 : MatchApi)
    (acc : list Range * list (Position * Mapping Data))
    (mapped : Position * Mapping Data) : list Range * list (Position * Mapping Data) :=
  let '(yielded, failedLookUps) := acc in
  match callApi2 api2 (end_ range) (snd mapped) with
  | Some end' => (yielded ++ [{| start := fst mapped; end_ := end' |}], failedLookUps)
  | None => (yielded, failedLookUps ++ [mapped])
  end.

Definition findRanges (range : Range) (filter : Data -> bool)
    (api : PositionsApi) (api2 : MatchApi) : list Range :=
  let '(yielded, failedLookUps) :=
    foldl (findRanges_step range api2) ([], []) (callApi api (start range) filter) in
  yielded ++
  (failedLookUp ← failedLookUps;
   mapped ← callApi api (end_ range) filter;
   [{| start := fst failedLookUp; end_ := fst mapped |}]).

Definition getSourceRanges (range : Range) (filter : Data -> bool) : list Range :=
  findRanges range filter getSourcePositionsBase_ matchSourcePosition_.

Definition getGeneratedRanges (range : Range) (filter : Data -> bool) : list Range :=
  findRanges range filter getGeneratedPositionsBase_ matchGeneratedPosition_.

Definition getSourceRange (range : Range) (filter : Data -> bool) : option Range :=
  head (getSourceRanges range filter).

Definition getGeneratedRange (range : Range) (filter : Data -> bool) : option Range :=
  head (getGeneratedRanges range filter).

Definition getSourcePositions (position : Position) (filter : Data -> bool) : list Position :=
  fst <$> getSourcePositionsBase position filter.

Definition getGeneratedPositions (position : Position) (filter : Data -> bool) : list Position :=
  fst <$> getGeneratedPositionsBase position filter.

Definition getSourcePosition (position : Position) (filter : Data -> bool) : option Position :=
  head (getSourcePositions position filter).

Definition getGeneratedPosition (position : Position) (filter : Data -> bool) : option Position :=
  head (getGeneratedPositions position filter).

End SourceMapWithDocuments.
Arguments SourceMapWithDocuments : clear implicits.

(** [() => true], the default value of every [filter] parameter *)
Definition acceptAll {Data} (_ : Data) : bool := true.

(** [LinkedCodeMapWithDocument]: source and generated document are the same
    document ([super(document, document, linkedMap)]). *)
Record LinkedCodeMapWithDocument (Data : Type) := {
  document : TextDocument;
  linkedMap : SourceMap Data;
}.
Arguments document {Data} _.
Arguments linkedMap {Data} _.

Definition asSourceMapWithDocuments {Data} (this : LinkedCodeMapWithDocument Data)
    : SourceMapWithDocuments Data :=
  {| sourceFileDocument := document this;
     virtualFileDocument := document this;
     map := linkedMap this |}.

Definition getLinkedCodePositions {Data} (this : LinkedCodeMapWithDocument Data)
    (posotion : Position) : list Position :=
  positionAt (document this) <$>
    getLinkedOffsets (linkedMap this) (offsetAt (document this) posotion).


(** *** [createDocumentProvider] *)

(** An [IScriptSnapshot]: the object identity [snapshot_id] is what a
    [WeakMap] keys on; the text is what [getText(0, getLength())] reads. *)
Record Snapshot := {
  snapshot_id : nat;
  snapshot_text : string;
}.

Definition getLength (snapshot : Snapshot) : Z :=
  Z.of_nat (String.length (snapshot_text snapshot)).

Record VirtualCode := {
  vc_id : string;
  vc_languageId : string;
  vc_snapshot : Snapshot;
}.

Record SourceFile := {
  sf_id : string;
  sf_languageId : string;
  sf_snapshot : Snapshot;
}.

(** Modelled from the spec: the capability data of a segment ([CodeInformation]
    of language-core, not among the sources) is a small closed set of named
    capability flags; [shouldReportDiagnostics] accepts the segments marked
    "diagnostics-eligible". *)
Record CodeInformation := {
  verification : bool;
  completion : bool;
  semantic : bool;
  navigation : bool;
}.

Definition shouldReportDiagnostics (info : CodeInformation) : bool := verification info.

(** Modelled from the spec: the [FileRegistry] of language-core is not among the
    sources.  Two of its lookups are used here: [getVirtualCode(sourceFileUri,
    virtualCodeId)], whose arguments are JavaScript values that may be
    [undefined], and the registry lookup "resolve(uri)" behind
    [getVirtualFileAndMap], which tells whether a file name is a registered
    generated document and, if so, gives its paired source file and mapping. *)
Record FileRegistry := {
  getVirtualCode : option string -> option string -> option VirtualCode * option SourceFile;
  resolve : string -> option (VirtualCode * SourceFile * SourceMap CodeInformation);
}.

(** The closure state of one provider: the counter [version], the
    [WeakMap<IScriptSnapshot, Map<string, TextDocument>>] keyed by snapshot
    identity, the store of the [TextDocument] objects created so far (a document
    is named by its index), and the trace of the [snapshot.getText] calls. *)
Record ProviderState := {
  version : nat;
  snapshot2Doc : gmap nat (gmap string nat);
  documents : list TextDocument;
  getTextCalls : list (nat * string);
}.

Definition emptyProvider : ProviderState :=
  {| version := 0; snapshot2Doc := ∅; documents := []; getTextCalls := [] |}.

(** [get(uri, languageId, snapshot)]; the result is the document [map.get(uri)]. *)
Definition get (uri languageId : string) (snapshot : Snapshot) (st : ProviderState)
    : ProviderState * option nat :=
  let key := snapshot_id snapshot in
  let st1 :=
    if bool_decide (is_Some (snapshot2Doc st !! key)) then st
    else {| version := version st;
            snapshot2Doc := <[key := ∅]> (snapshot2Doc st);
            documents := documents st;
            getTextCalls := getTextCalls st |} in
  let map := default ∅ (snapshot2Doc st1 !! key) in
  let st2 :=
    if bool_decide (is_Some (map !! uri)) then st1
    else {| version := S (version st1);
            snapshot2Doc :=
              <[key := <[uri := length (documents st1)]> map]> (snapshot2Doc st1);
            documents :=
              documents st1 ++
                [TextDocument.create uri languageId (version st1) (snapshot_text snapshot)];
            getTextCalls := getTextCalls st1 ++ [(key, uri)] |} in
  (st2, default ∅ (snapshot2Doc st2 !! key) !! uri).

(** A sequence of [get] calls on one provider, with the documents returned. *)
Fixpoint getAll (calls : list (string * string * Snapshot)) (st : ProviderState)
    : ProviderState * list (option nat) :=
  match calls with
  | [] => (st, [])
  | (uri, languageId, snapshot) :: calls' =>
      let '(st1, doc) := get uri languageId snapshot st in
      let '(st2, docs) := getAll calls' st1 in
      (st2, doc :: docs)
  end.

(** *** Virtual code URIs *)

Definition virtualCodeIdMark : string := "?virtualCodeId=".

(** [s.startsWith(sep)], giving the rest of [s] after [sep] *)
Fixpoint stripPrefix (sep s : string) : option string :=
  match sep, s with
  | EmptyString, _ => Some s
  | String c sep', String d s' => if bool_decide (c = d) then stripPrefix sep' s' else None
  | String _ _, EmptyString => None
  end.

(** The text before and the text after the first occurrence of [sep] in [s]. *)
Fixpoint cut (sep s : string) : option (string * string) :=
  match stripPrefix sep s with
  | Some rest => Some (EmptyString, rest)
  | None =>
      match s with
      | EmptyString => None
      | String c s' =>
          match cut sep s' with
          | Some (before, after) => Some (String c before, after)
          | None => None
          end
      end
  end.

(** [s.includes(sep)] *)
Definition includes (s sep : string) : bool := bool_decide (is_Some (cut sep s)).

(** [s.split(sep)] for a non-empty separator: the pieces between the
    occurrences of [sep] found from left to right, each search resuming after
    the previous occurrence.  [fuel] bounds the number of pieces. *)
Fixpoint split_fuel (fuel : nat) (s sep : string) : list string :=
  match fuel with
  | O => [s]
  | S fuel' =>
      match cut sep s with
      | Some (before, after) => before :: split_fuel fuel' after sep
      | None => [s]
      end
  end.

Definition split (s sep : string) : list string :=
  split_fuel (String.length s) s sep.

Definition getVirtualCodeUri (sourceFileUri virtualCodeId : string) : string :=
  sourceFileUri +:+ virtualCodeIdMark +:+ virtualCodeId.

Definition getVirtualCodeByUri (files : FileRegistry) (uri : string)
    : option VirtualCode * option SourceFile :=
  if includes uri virtualCodeIdMark then
    let sourceFileUri := split uri virtualCodeIdMark !! 0%nat in
    let virtualCodeId := split uri virtualCodeIdMark !! 1%nat in
    getVirtualCode files sourceFileUri virtualCodeId
  else (None, None).

End Documents.

(** ** packages/typescript/lib/node/transform.ts *)

Module Transform.
Import SourceMap Documents.

Record TextSpan := { span_start : Z; span_length : Z }.

(** The result of [transformSpan]: [{ fileName, textSpan }] *)
Record FileSpan := { fs_fileName : string; fs_textSpan : TextSpan }.

(** Modelled from the spec: [getVirtualFileAndMap] of ./utils is not among the
    sources.  It answers [[virtualCode, sourceFile, map]] when [fileName] is a
    registered generated document and [[undefined, undefined, undefined]]
    otherwise. *)
Definition getVirtualFileAndMap (files : FileRegistry) (fileName : string)
    : option (VirtualCode * SourceFile * SourceMap CodeInformation) :=
  resolve files fileName.

(** Modelled from the spec: [notEmpty] of ./utils is not among the sources; it
    keeps the values that are neither [null] nor [undefined]. *)
Definition notEmpty {A} (value : option A) : bool :=
  match value with Some _ => true | None => false end.

(** [array.filter(notEmpty)], with the narrowed element type *)
Definition filterNotEmpty {A} (values : list (option A)) : list A :=
  omap id (filter (fun v => notEmpty v = true) values).

(** The inner loop of [transformRange], for one [sourceStart]. *)
Fixpoint transformRange_end (filter : CodeInformation -> bool)
    (sourceStart : Z * Mapping CodeInformation)
    (sourceEnds : list (Z * Mapping CodeInformation)) : option (Z * Z) :=
  match sourceEnds with
  | [] => None
  | sourceEnd :: rest =>
      if bool_decide (fst sourceEnd >= fst sourceStart) && filter (data (snd sourceEnd))
      then Some (fst sourceStart, fst sourceEnd)
      else transformRange_end filter sourceStart rest
  end.

(** The outer loop of [transformRange]. *)
Fixpoint transformRange_start (filter : CodeInformation -> bool)
    (sourceStarts sourceEnds : list (Z * Mapping CodeInformation)) : option (Z * Z) :=
  match sourceStarts with
  | [] => None
  | sourceStart :: rest =>
      if filter (data (snd sourceStart)) then
        match transformRange_end filter sourceStart sourceEnds with
        | Some found => Some found
        | None => transformRange_start filter rest sourceEnds
        end
      else transformRange_start filter rest sourceEnds
  end.

Definition transformRange (sourceFile : SourceFile) (map : SourceMap CodeInformation)
    (start end_ : Z) (filter : CodeInformation -> bool) : option (Z * Z) :=
  transformRange_start filter
    (getSourceOffsets map (start - getLength (sf_snapshot sourceFile)))
    (getSourceOffsets map (end_ - getLength (sf_snapshot sourceFile))).

(** [!fileName] for [fileName: string | undefined] *)
Definition falsy (fileName : option string) : bool :=
  match fileName with
  | None => true
  | Some s => bool_decide (s = EmptyString)
  end.

Definition transformSpan (files : FileRegistry) (fileName : option string)
    (textSpan : option TextSpan) (filter : CodeInformation -> bool) : option FileSpan :=
  match fileName with
  | None => None
  | Some fileName =>
      if falsy (Some fileName) then None
      else
        match textSpan with
        | None => None
        | Some textSpan =>
            match getVirtualFileAndMap files fileName with
            | Some (virtualFile, sourceFile, map) =>
                match transformRange sourceFile map (span_start textSpan)
                        (span_start textSpan + span_length textSpan) filter with
                | Some sourceRange =>
                    Some {| fs_fileName := fileName;
                            fs_textSpan :=
                              {| span_start := fst sourceRange;
                                 span_length := snd sourceRange - fst sourceRange |} |}
                | None => None
                end
            | None => Some {| fs_fileName := fileName; fs_textSpan := textSpan |}
            end
        end
  end.

(** *** Call hierarchy items *)

Record CallHierarchyItem := {
  chi_name : string;
  chi_file : string;
  chi_span : TextSpan;
  chi_selectionSpan : TextSpan;
}.

Definition zeroSpan : TextSpan := {| span_start := 0; span_length := 0 |}.

Definition transformCallHierarchyItem (files : FileRegistry) (item : CallHierarchyItem)
    (filter : CodeInformation -> bool) : CallHierarchyItem :=
  let span := transformSpan files (Some (chi_file item)) (Some (chi_span item)) filter in
  let selectionSpan :=
    transformSpan files (Some (chi_file item)) (Some (chi_selectionSpan item)) filter in
  {| chi_name := chi_name item;
     chi_file := chi_file item;
     chi_span := default zeroSpan (fs_textSpan <$> span);
     chi_selectionSpan := default zeroSpan (fs_textSpan <$> selectionSpan) |}.

(** *** File text changes *)

Record TextChange := { tc_span : TextSpan; newText : string }.

Record FileTextChanges := {
  ftc_fileName : string;
  textChanges : list TextChange;
  isNewFile : option bool;
}.

(** The callback of [changes.textChanges.map]. *)
Definition transformTextChange (files : FileRegistry) (fileName : string)
    (filter : CodeInformation -> bool) (c : TextChange) : option TextChange :=
  match transformSpan files (Some fileName) (Some (tc_span c)) filter with
  | Some span => Some {| tc_span := fs_textSpan span; newText := newText c |}
  | None => None
  end.

Definition transformFileTextChanges (files : FileRegistry) (changes : FileTextChanges)
    (filter : CodeInformation -> bool) : option FileTextChanges :=
  match getVirtualFileAndMap files (ftc_fileName changes) with
  | Some (_, source, _) =>
      Some {| ftc_fileName := ftc_fileName changes;
              textChanges :=
                filterNotEmpty
                  (transformTextChange files (ftc_fileName changes) filter
                     <$> textChanges changes);
              isNewFile := isNewFile changes |}
  | None => Some changes
  end.

(** *** Document spans *)

Record DocumentSpan := {
  ds_fileName : string;
  ds_textSpan : TextSpan;
  contextSpan : option TextSpan;
  originalFileName : option string;
  originalTextSpan : option TextSpan;
  originalContextSpan : option TextSpan;
}.

Definition transformDocumentSpan (files : FileRegistry) (documentSpan : DocumentSpan)
    (filter : CodeInformation -> bool) (shouldFallback : bool) : option DocumentSpan :=
  let textSpan :=
    transformSpan files (Some (ds_fileName documentSpan))
      (Some (ds_textSpan documentSpan)) filter in
  let textSpan :=
    if negb (notEmpty textSpan) && shouldFallback then
      match getVirtualFileAndMap files (ds_fileName documentSpan) with
      | Some _ =>
          Some {| fs_fileName := ds_fileName documentSpan; fs_textSpan := zeroSpan |}
      | None => textSpan
      end
    else textSpan in
  match textSpan with
  | None => None
  | Some textSpan =>
      let contextSpan :=
        transformSpan files (Some (ds_fileName documentSpan))
          (contextSpan documentSpan) filter in
      let originalTextSpan :=
        transformSpan files (originalFileName documentSpan)
          (originalTextSpan documentSpan) filter in
      let originalContextSpan :=
        transformSpan files (originalFileName documentSpan)
          (originalContextSpan documentSpan) filter in
      Some {| ds_fileName := fs_fileName textSpan;
              ds_textSpan := fs_textSpan textSpan;
              contextSpan := fs_textSpan <$> contextSpan;
              originalFileName := fs_fileName <$> originalTextSpan;
              originalTextSpan := fs_textSpan <$> originalTextSpan;
              originalContextSpan := fs_textSpan <$> originalContextSpan |}
  end.

(** *** Diagnostics

    Diagnostics are objects: [transformDiagnostic] compares them by identity
    (the keys of the [WeakMap]), assigns to their [relatedInformation]
    property and may meet the same object again through the
    related-information lists.  A diagnostic is therefore named by its index
    in a store of objects. *)

Record Diagnostic := {
  file : option string;  (* [diagnostic.file.fileName], when there is a file *)
  start : option Z;
  length_ : option Z;
  messageText : string;
  code : Z;
  relatedInformation : option (list nat);
}.

(** The state the function works on: the object store, the module-level
    [WeakMap] [transformedDiagnostics] (a key bound to [None] is a slot holding
    [undefined]), and the trace of the diagnostics whose translation was
    computed, i.e. of the calls that found no slot. *)
Record State := {
  heap : list Diagnostic;
  transformedDiagnostics : gmap nat (option nat);
  computed : list nat;
}.

(** The outcome of a run: a value, or no value because the fuel of the
    embedding ran out, or because an index names no object (which no
    JavaScript reference does). *)
Inductive result (A : Type) :=
  | Ok (a : A)
  | OutOfFuel
  | Dangling.
Arguments Ok {A} _.
Arguments OutOfFuel {A}.
Arguments Dangling {A}.

Definition M (A : Type) : Type := State -> result (A * State).

Definition ret {A} (a : A) : M A := fun st => Ok (a, st).

Definition bind {A B} (m : M A) (k : A -> M B) : M B :=
  fun st =>
    match m st with
    | Ok (a, st') => k a st'
    | OutOfFuel => OutOfFuel
    | Dangling => Dangling
    end.

#[export] Instance M_ret : MRet M := @ret.
#[export] Instance M_bind : MBind M := fun A B k m => bind m k.

(** [transformedDiagnostics.has(d)] *)
Definition cacheHas (d : nat) : M bool :=
  fun st => Ok (bool_decide (is_Some (transformedDiagnostics st !! d)), st).

(** [transformedDiagnostics.get(d)] *)
Definition cacheGet (d : nat) : M (option nat) :=
  fun st => Ok (default None (transformedDiagnostics st !! d), st).

(** [transformedDiagnostics.set(d, v)] *)
Definition cacheSet (d : nat) (v : option nat) : M unit :=
  fun st =>
    Ok (tt, {| heap := heap st;
               transformedDiagnostics := <[d := v]> (transformedDiagnostics st);
               computed := computed st |}).

(** Record that the translation of [d] is being computed. *)
Definition trace (d : nat) : M unit :=
  fun st =>
    Ok (tt, {| heap := heap st;
               transformedDiagnostics := transformedDiagnostics st;
               computed := computed st ++ [d] |}).

(** Read the object a reference names. *)
Definition load (d : nat) : M Diagnostic :=
  fun st =>
    match heap st !! d with
    | Some o => Ok (o, st)
    | None => Dangling
    end.

Definition withRelated (o : Diagnostic) (rel : option (list nat)) : Diagnostic :=
  {| file := file o; start := start o; length_ := length_ o;
     messageText := messageText o; code := code o;
     relatedInformation := rel |}.

(** [diagnostic.relatedInformation = rel]: an assignment to the object itself. *)
Definition storeRelated (d : nat) (rel : list nat) : M unit :=
  fun st =>
    match heap st !! d with
    | Some o =>
        Ok (tt, {| heap := <[d := withRelated o (Some rel)]> (heap st);
                   transformedDiagnostics := transformedDiagnostics st;
                   computed := computed st |})
    | None => Dangling
    end.

(** An object literal: a new object, named by the next free index. *)
Definition alloc (o : Diagnostic) : M nat :=
  fun st =>
    Ok (length (heap st),
        {| heap := heap st ++ [o];
           transformedDiagnostics := transformedDiagnostics st;
           computed := computed st |}).

Definition outOfFuel {A} : M A := fun _ => OutOfFuel.

(** [array.map(f)] for an effectful [f], left to right. *)
Fixpoint mapM {A B} (f : A -> M B) (l : list A) : M (list B) :=
  match l with
  | [] => mret []
  | a :: l' => b ← f a; bs ← mapM f l'; mret (b :: bs)
  end.

(** The block [if (relatedInformation) { ... }]: the related diagnostics are
    transformed by the recursive call [recur], and the list of those that
    have a translation is assigned to [diagnostic.relatedInformation]. *)
Definition transformRelated (recur : nat -> M (option nat)) (diagnostic : nat) : M unit :=
  d ← load diagnostic;
  match relatedInformation d with
  | Some relatedInformation =>
      transformed ← mapM recur relatedInformation;
      storeRelated diagnostic (filterNotEmpty transformed)
  | None => mret tt
  end.

(** The block [if (diagnostic.file !== undefined && ...) { ... } else { ... }]:
    the diagnostic's own span.  [{ ...diagnostic, start, length }] copies the
    properties the object has at that moment. *)
Definition transformOwnSpan (files : FileRegistry) (diagnostic : nat) : M unit :=
  d ← load diagnostic;
  match file d, start d, length_ d with
  | Some fileName, Some start, Some length =>
      match getVirtualFileAndMap files fileName with
      | Some (virtualCode, sourceFile, map) =>
          match transformRange sourceFile map start (start + length)
                  shouldReportDiagnostics with
          | Some sourceRange =>
              copy ← alloc {| file := file d;
                              start := Some (fst sourceRange);
                              length_ := Some (snd sourceRange - fst sourceRange);
                              messageText := messageText d;
                              code := code d;
                              relatedInformation := relatedInformation d |};
              cacheSet diagnostic (Some copy)
          | None => mret tt
          end
      | None => cacheSet diagnostic (Some diagnostic)
      end
  | _, _, _ => cacheSet diagnostic (Some diagnostic)
  end.

Fixpoint transformDiagnostic (fuel : nat) (files : FileRegistry) (diagnostic : nat)
    : M (option nat) :=
  match fuel with
  | O => outOfFuel
  | S fuel' =>
      has ← cacheHas diagnostic;
      (if negb has then
         cacheSet diagnostic None;;
         trace diagnostic;;
         transformRelated (transformDiagnostic fuel' files) diagnostic;;
         transformOwnSpan files diagnostic
       else mret tt);;
      cacheGet diagnostic
  end.

End Transform.

(** ** The specification's wording of the algorithms, for comparison *)

Module Spec.
Import SourceMap TextDocument Documents Transform.

(** The two-pass range algorithm of the specification (4.2).  [resolve] gives
    the filtered candidates of a position with the mapping that produced each;
    [resolveIn] re-resolves a position through one given mapping.
    Pass 1 pairs every start candidate with the end resolved through the same
    mapping; the candidates for which that fails are recorded.  Pass 2 pairs
    every recorded start with every independently resolved end. *)
Definition twoPass {Data}
    (resolve : Position -> (Data -> bool) -> list (Position * Mapping Data))
    (resolveIn : Position -> Mapping Data -> option Position)
    (range : Range) (filter : Data -> bool) : list Range :=
  let candidates := resolve (TextDocument.start range) filter in
  let exact :=
    omap (fun c => (fun e => {| TextDocument.start := fst c; end_ := e |})
                     <$> resolveIn (end_ range) (snd c)) candidates in
  let failed :=
    base.filter (fun c => resolveIn (end_ range) (snd c) = None) candidates in
  exact ++
  (f ← failed;
   (fun m => {| TextDocument.start := fst f; end_ := fst m |})
     <$> resolve (end_ range) filter).

(** The boundary-fallback scenario of the specification (section 8): segment A
    maps source [0,2) to generated [0,2), segment B maps source [5,7) to
    generated [3,5); they are two mappings of one map. *)
Definition segmentA : Mapping unit :=
  {| m_sourceOffsets := [0]; m_generatedOffsets := [0]; lengths := [2]; data := tt |}.

Definition segmentB : Mapping unit :=
  {| m_sourceOffsets := [5]; m_generatedOffsets := [3]; lengths := [2]; data := tt |}.

Definition boundaryExample : SourceMapWithDocuments unit :=
  {| sourceFileDocument := TextDocument.create "file:///a" "host" 0 "abcdefg";
     virtualFileDocument := TextDocument.create "file:///a?virtualCodeId=b" "ts" 1 "abcde";
     map := [segmentA; segmentB] |}.

(** An offset of a one-line document as a position. *)
Definition at_ (offset : Z) : Position := {| line := 0; character := offset |}.

(** The single-segment scenario of the specification (section 8): source
    [0,3) is mapped to generated [1,4). *)
Definition linearExample : SourceMapWithDocuments unit :=
  {| sourceFileDocument := TextDocument.create "file:///l" "host" 0 "abc";
     virtualFileDocument := TextDocument.create "file:///l?virtualCodeId=g" "ts" 1 "(abc)";
     map := [{| m_sourceOffsets := [0]; m_generatedOffsets := [1]; lengths := [3];
                data := tt |}] |}.

(** The offsets [transformRange] answers, as one comprehension: the first
    pair, in the order of the two sequences, of a filtered start and a filtered
    end that is not before it. *)
Definition firstPair (filter : CodeInformation -> bool)
    (sourceStarts sourceEnds : list (Z * Mapping CodeInformation)) : option (Z * Z) :=
  head (sourceStart ← sourceStarts;
        if filter (data (snd sourceStart)) then
          sourceEnd ← sourceEnds;
          if bool_decide (fst sourceStart <= fst sourceEnd) && filter (data (snd sourceEnd))
          then [(fst sourceStart, fst sourceEnd)] else []
        else []).

(** The resolution rule of the specification (4.3) for a span of a generated
    document: the offsets [start], [end_] of the generated document are
    converted to positions, run through the translator's [sourceRange], and
    converted back to offsets of the source document. *)
Definition viaSourceRange (this : SourceMapWithDocuments CodeInformation)
    (start end_ : Z) (filter : CodeInformation -> bool) : option (Z * Z) :=
  (fun r : Range =>
     (offsetAt (sourceFileDocument this) (TextDocument.start r),
      offsetAt (sourceFileDocument this) (TextDocument.end_ r)))
  <$> getSourceRange this
        {| TextDocument.start := positionAt (virtualFileDocument this) start;
           TextDocument.end_ := positionAt (virtualFileDocument this) end_ |}
        filter.

Definition allCapabilities : CodeInformation :=
  {| verification := true; completion := true; semantic := true; navigation := true |}.

(** A registry with one generated document.  The source text has 10
    characters, the generated text 5.  The first mapping sends the generated
    offsets [2,4] to the source offsets [6,8], the second sends [0,4] to
    [0,4]. *)
Definition tailMapping : Mapping CodeInformation :=
  {| m_sourceOffsets := [6]; m_generatedOffsets := [2]; lengths := [2];
     data := allCapabilities |}.

Definition wholeMapping : Mapping CodeInformation :=
  {| m_sourceOffsets := [0]; m_generatedOffsets := [0]; lengths := [4];
     data := allCapabilities |}.

Definition exampleMap : SourceMap CodeInformation := [tailMapping; wholeMapping].

Definition exampleSourceFile : SourceFile :=
  {| sf_id := "/a.vue"; sf_languageId := "vue";
     sf_snapshot := {| snapshot_id := 1; snapshot_text := "0123456789" |} |}.

Definition exampleVirtualCode : VirtualCode :=
  {| vc_id := "script"; vc_languageId := "typescript";
     vc_snapshot := {| snapshot_id := 2; snapshot_text := "abcde" |} |}.

Definition exampleFiles : FileRegistry :=
  {| getVirtualCode := fun _ _ => (None, None);
     resolve := fun fileName =>
       if bool_decide (fileName = "/a.vue")
       then Some (exampleVirtualCode, exampleSourceFile, exampleMap)
       else None |}.

(** The translator the document provider builds for that registry entry. *)
Definition exampleTranslator : SourceMapWithDocuments CodeInformation :=
  {| sourceFileDocument := TextDocument.create "/a.vue" "vue" 0 "0123456789";
     virtualFileDocument :=
       TextDocument.create "/a.vue?virtualCodeId=script" "typescript" 1 "abcde";
     map := exampleMap |}.

Definition span (start length : Z) : TextSpan :=
  {| span_start := start; span_length := length |}.

(** An edit of a batch for [fileName] is mappable when its span transforms. *)
Definition mappable (files : FileRegistry) (fileName : string)
    (filter : CodeInformation -> bool) (c : TextChange) : Prop :=
  is_Some (transformSpan files (Some fileName) (Some (tc_span c)) filter).

#[global] Instance mappable_dec files fileName filter c :
  Decision (mappable files fileName filter c).
Proof. unfold mappable. apply _. Defined.

(** [output] is [input] with its span translated and its text kept. *)
Definition translated (files : FileRegistry) (fileName : string)
    (filter : CodeInformation -> bool) (input output : TextChange) : Prop :=
  transformSpan files (Some fileName) (Some (tc_span input)) filter =
    Some {| fs_fileName := fileName; fs_textSpan := tc_span output |}
  /\ newText output = newText input.

(** [c] occurs in [s]. *)
Fixpoint occurs (c : ascii) (s : string) : bool :=
  match s with
  | EmptyString => false
  | String d s' => bool_decide (c = d) || occurs c s'
  end.

(** The document the provider holds for a snapshot identity and a URI. *)
Definition lookupDoc (st : ProviderState) (key : nat) (uri : string) : option nat :=
  snapshot2Doc st !! key ≫= fun map => map !! uri.

(** What holds of a provider after any number of [get] calls: every cached
    document exists, distinct keys hold distinct documents, and the trace of
    [getText] calls lists every cached key once. *)
Record providerInv (st : ProviderState) : Prop := {
  inv_bound : forall key uri doc,
    lookupDoc st key uri = Some doc -> (doc < length (documents st))%nat;
  inv_inj : forall key1 uri1 key2 uri2 doc,
    lookupDoc st key1 uri1 = Some doc -> lookupDoc st key2 uri2 = Some doc ->
    key1 = key2 /\ uri1 = uri2;
  inv_calls : forall key uri,
    (key, uri) ∈ getTextCalls st <-> is_Some (lookupDoc st key uri);
  inv_once : NoDup (getTextCalls st);
}.

(** The key of a [get] call. *)
Definition callKey (call : string * string * Snapshot) : nat * string :=
  (snapshot_id (snd call), fst (fst call)).

(** The diagnostics that have a slot in [transformedDiagnostics]. *)
Definition cached (st : State) : gset nat := dom (transformedDiagnostics st).

(** What a run of [transformDiagnostic] may change, from [st] to [st']: objects
    and slots are only added, and the slots of [st] keep their values; an
    object of [st] keeps every field but [relatedInformation], and keeps that
    one too if it had a slot before the run or has none after it; the trace
    grows by exactly the diagnostics that had no slot before and have one
    after, each listed once. *)
Record extends (st st' : State) : Prop := {
  ext_heap : (length (heap st) <= length (heap st'))%nat;
  ext_cached : cached st ⊆ cached st';
  ext_slots : forall x,
    x ∈ cached st -> transformedDiagnostics st' !! x = transformedDiagnostics st !! x;
  ext_objects : forall r o,
    heap st !! r = Some o ->
    exists o', heap st' !! r = Some o'
      /\ withRelated o' None = withRelated o None
      /\ (r ∈ cached st \/ r ∉ cached st' -> o' = o);
  ext_computed : exists new,
    computed st' = computed st ++ new
    /\ NoDup new
    /\ forall x, x ∈ new <-> (x ∉ cached st) /\ (x ∈ cached st');
}.




(** A diagnostic without a file whose only related information is itself. *)
Definition selfRelated : Diagnostic :=
  {| file := None; start := None; length_ := None;
     messageText := "Cannot find name"; code := 2304;
     relatedInformation := Some [0%nat] |}.

(** Two diagnostics of the generated document of [exampleFiles] that are
    related to each other; the span of the first maps to the source, the span
    of the second does not. *)
Definition mappedDiagnostic : Diagnostic :=
  {| file := Some "/a.vue"; start := Some 11; length_ := Some 2;
     messageText := "Type mismatch"; code := 2322;
     relatedInformation := Some [1%nat] |}.

Definition unmappedDiagnostic : Diagnostic :=
  {| file := Some "/a.vue"; start := Some 15; length_ := Some 1;
     messageText := "Declared here"; code := 6203;
     relatedInformation := Some [0%nat; 1%nat] |}.

Definition newState (objects : list Diagnostic) : State :=
  {| heap := objects; transformedDiagnostics := ∅; computed := [] |}.

End Spec.

(** ** [createDocumentProvider]: the translators of a virtual code *)

Module Provider.
Import SourceMap TextDocument Documents.

(** A [SourceMap] object: its identity, which the [WeakMap]s key on, and its
    mappings. *)
Record SourceMapObject := {
  map_id : nat;
  map_mappings : SourceMap CodeInformation;
}.

(** One element [[sourceFileUri, [sourceSnapshot, map]]] of the iterable
    [files.getMaps(virtualCode)], together with the language id
    [files.get(sourceFileUri)!.languageId] of that source file (the registry
    is not among the sources, so what it answers is an input here). *)
Record MapsEntry := {
  sourceFileUri : string;
  sourceLanguageId : string;
  sourceSnapshot : Snapshot;
  entryMap : SourceMapObject;
}.

(** The [SourceMapWithDocuments] object the provider builds: its two documents
    are the results of [get], documents of the store. *)
Record DocMap := {
  dm_sourceFileDocument : option nat;
  dm_virtualFileDocument : option nat;
  dm_map : SourceMapObject;
}.

(** The [LinkedCodeMapWithDocument] object the provider builds. *)
Record DocMirrorMap := {
  dmm_document : option nat;
  dmm_linkedMap : SourceMapObject;
}.

(** The whole closure state of a provider: the document store and the two
    [WeakMap]s keyed by map identity. *)
Record Provider := {
  store : ProviderState;
  map2DocMap : gmap nat DocMap;
  mirrorMap2DocMirrorMap : gmap nat DocMirrorMap;
}.

Definition newProvider : Provider :=
  {| store := emptyProvider; map2DocMap := ∅; mirrorMap2DocMirrorMap := ∅ |}.

(** The body of the loop of [getMaps] for one element, up to its [yield]; the
    arguments of [new SourceMapWithDocuments] are evaluated from left to
    right. *)
Definition getMaps_body (virtualCode : VirtualCode) (p : Provider) (entry : MapsEntry)
    : Provider * option DocMap :=
  let key := map_id (entryMap entry) in
  let p1 :=
    if bool_decide (is_Some (map2DocMap p !! key)) then p
    else
      let '(store1, sourceDoc) :=
        get (sourceFileUri entry) (sourceLanguageId entry) (sourceSnapshot entry)
          (store p) in
      let '(store2, virtualDoc) :=
        get (getVirtualCodeUri (sourceFileUri entry) (vc_id virtualCode))
          (vc_languageId virtualCode) (vc_snapshot virtualCode) store1 in
      {| store := store2;
         map2DocMap :=
           <[key := {| dm_sourceFileDocument := sourceDoc;
                       dm_virtualFileDocument := virtualDoc;
                       dm_map := entryMap entry |}]> (map2DocMap p);
         mirrorMap2DocMirrorMap := mirrorMap2DocMirrorMap p |} in
  (p1, map2DocMap p1 !! key).

(** [getMaps(virtualCode)], consumed over the elements [entries] of
    [files.getMaps(virtualCode)]: a consumer that takes [k] values has run the
    body for the first [k] elements, which is [getMaps] of that prefix. *)
Fixpoint getMaps (entries : list MapsEntry) (virtualCode : VirtualCode) (p : Provider)
    : Provider * list (option DocMap) :=
  match entries with
  | [] => (p, [])
  | entry :: entries' =>
      let '(p1, yielded) := getMaps_body virtualCode p entry in
      let '(p2, rest) := getMaps entries' virtualCode p1 in
      (p2, yielded :: rest)
  end.

(** [getLinkedCodeMap(virtualCode)]; [linked] is what
    [files.getLinkedCodeMap(virtualCode)] answers and [sourceFileId] is
    [files.getByVirtualCode(virtualCode).id]. *)
Definition getLinkedCodeMap (linked : option SourceMapObject) (sourceFileId : string)
    (virtualCode : VirtualCode) (p : Provider) : Provider * option DocMirrorMap :=
  match linked with
  | Some map =>
      let key := map_id map in
      let p1 :=
        if bool_decide (is_Some (mirrorMap2DocMirrorMap p !! key)) then p
        else
          let '(store1, doc) :=
            get (getVirtualCodeUri sourceFileId (vc_id virtualCode))
              (vc_languageId virtualCode) (vc_snapshot virtualCode) (store p) in
          {| store := store1;
             map2DocMap := map2DocMap p;
             mirrorMap2DocMirrorMap :=
               <[key := {| dmm_document := doc; dmm_linkedMap := map |}]>
                 (mirrorMap2DocMirrorMap p) |} in
      (p1, mirrorMap2DocMirrorMap p1 !! key)
  | None => (p, None)
  end.

End Provider.

(** ** Invariants and vocabulary of the further properties *)

Module Laws.
Import SourceMap TextDocument Documents Transform Provider.

(** The documents of a store are numbered in creation order: the counter is
    the number of documents, and a document's version is its index. *)
Definition versionsOk (st : ProviderState) : Prop :=
  version st = length (documents st)
  /\ forall d doc, documents st !! d = Some doc -> TextDocument.version doc = d.

(** [call] is the first call of [calls] for its key and it is at index [j]. *)
Definition firstCallAt (calls : list (string * string * Snapshot)) (j : nat)
    (call : string * string * Snapshot) : Prop :=
  calls !! j = Some call
  /\ forall k earlier, (k < j)%nat -> calls !! k = Some earlier ->
                       Spec.callKey earlier <> Spec.callKey call.

(** The translators of a provider name documents of its store and are filed
    under the identity of their own map. *)
Definition translatorsOk (p : Provider) : Prop :=
  forall key dm,
    map2DocMap p !! key = Some dm ->
    map_id (dm_map dm) = key
    /\ (exists s, dm_sourceFileDocument dm = Some s /\ is_Some (documents (store p) !! s))
    /\ (exists v, dm_virtualFileDocument dm = Some v /\ is_Some (documents (store p) !! v)).

(** A span of non-negative length. *)
Definition ordered (textSpan : TextSpan) : Prop := 0 <= span_length textSpan.

(** The matching method [findRanges] is called with for each positions
    method. *)
Definition matchOf (api : PositionsApi) : MatchApi :=
  match api with
  | getSourcePositionsBase_ => matchSourcePosition_
  | getGeneratedPositionsBase_ => matchGeneratedPosition_
  end.

(** The document the positions given to a positions method lie in. *)
Definition fromDocOf {Data} (this : SourceMapWithDocuments Data) (api : PositionsApi)
    : TextDocument :=
  match api with
  | getSourcePositionsBase_ => virtualFileDocument this
  | getGeneratedPositionsBase_ => sourceFileDocument this
  end.

(** The position a document reads [position] as: [offsetAt] clamps it into
    the text, and [positionAt] gives the position of that offset. *)
Definition clamped (doc : TextDocument) (position : Position) : Position :=
  positionAt doc (offsetAt doc position).

Definition clampedRange (doc : TextDocument) (range : Range) : Range :=
  {| TextDocument.start := clamped doc (TextDocument.start range);
     end_ := clamped doc (end_ range) |}.

(** What [transformDiagnostic] answers for a diagnostic that has a slot: the
    value of the slot, [undefined] being [None]. *)
Definition translation (st : State) (x : nat) : option nat :=
  default None (transformedDiagnostics st !! x).

(** The value of [transformDiagnostic(files, x)] inside
    [relatedInformation.map(...)] of the call for [d], read off the state
    [st] the call for [d] ends in: while the related information of [d] is
    transformed the slot of [d] holds [undefined], so [d] itself has no
    translation there; any other diagnostic has the translation it has in
    [st]. *)
Definition relatedTranslation (st : State) (d x : nat) : option nat :=
  if decide (x = d) then None else translation st x.

(** [l] lists, in order, the translations in [st] of some of the diagnostics
    of [related]. *)
Definition translationsOf (st : State) (related l : list nat) : Prop :=
  exists kept,
    sublist kept related
    /\ Forall2 (fun y v => transformedDiagnostics st !! y = Some (Some v)) kept l.

(** [o'] is [o] with its related information, if it has any, replaced by
    translations in [st] of some of its related diagnostics. *)
Definition relatedReplaced (st : State) (o o' : Diagnostic) : Prop :=
  match relatedInformation o with
  | Some related => exists l, o' = withRelated o (Some l) /\ translationsOf st related l
  | None => o' = o
  end.

(** With [fuel], every diagnostic whose translation a run of
    [transformDiagnostic] computes (it had no slot before the run and has one
    after it) comes out with translations of related diagnostics as its
    related information. *)
Definition computes (files : FileRegistry) (fuel : nat) : Prop :=
  forall d st r st',
    transformDiagnostic fuel files d st = Ok (r, st') ->
    forall x o,
      heap st !! x = Some o -> x ∉ Spec.cached st -> x ∈ Spec.cached st' ->
      exists o', heap st' !! x = Some o' /\ relatedReplaced st' o o'.

End Laws.

(** * Properties *)

Import SourceMap TextDocument Documents.

(** ** The two-pass range search *)

Section FindRanges.
Context {Data : Type} (this : SourceMapWithDocuments Data).

Lemma findRanges_loop (range : Range) (api2 : MatchApi)
    (candidates : list (Position * Mapping Data))
    (yielded : list Range) (failedLookUps : list (Position * Mapping Data)) :
  foldl (findRanges_step this range api2) (yielded, failedLookUps) candidates =
  (yielded ++
     omap (fun c => (fun e => {| TextDocument.start := fst c; end_ := e |})
                      <$> callApi2 this api2 (end_ range) (snd c)) candidates,
   failedLookUps ++
     base.filter (fun c => callApi2 this api2 (end_ range) (snd c) = None) candidates).
Proof.
  revert yielded failedLookUps.
  induction candidates as [|c candidates IH]; intros yielded failedLookUps; simpl.
  - by rewrite !app_nil_r.
  - rewrite filter_cons. unfold findRanges_step at 1.
    destruct (callApi2 this api2 (end_ range) (snd c)) as [e|] eqn:He;
      rewrite IH; simpl.
    + by rewrite <- app_assoc.
    + by rewrite <- app_assoc.
Qed.

Lemma findRanges_twoPass (range : Range) (filter : Data -> bool)
    (api : PositionsApi) (api2 : MatchApi) :
  findRanges this range filter api api2 =
  Spec.twoPass (callApi this api) (callApi2 this api2) range filter.
Proof.
  unfold findRanges, Spec.twoPass.
  rewrite findRanges_loop. simpl.
  f_equal.
Qed.

End FindRanges.

(** The segment mapping as modelled answers the single-segment examples of the
    specification: the linear round trip, the out-of-segment miss and the
    exact range. *)
Lemma linear_segment_examples :
  getGeneratedPosition Spec.linearExample (Spec.at_ 1) acceptAll = Some (Spec.at_ 2)
  /\ getSourcePosition Spec.linearExample (Spec.at_ 2) acceptAll = Some (Spec.at_ 1)
  /\ getSourcePosition Spec.linearExample (Spec.at_ 0) acceptAll = None
  /\ getGeneratedRange Spec.linearExample
       {| TextDocument.start := Spec.at_ 0; end_ := Spec.at_ 3 |} acceptAll
     = Some {| TextDocument.start := Spec.at_ 1; end_ := Spec.at_ 4 |}.
Proof. repeat split; by vm_compute. Qed.

(** C1. [getSourceRanges] and [getGeneratedRanges] are the two-pass algorithm:
    first every filtered candidate of [range.start] is paired with
    [range.end] re-resolved through the mapping that produced that candidate;
    candidates whose end fails are recorded, and after all candidates each
    recorded start is paired with every independently resolved filtered
    mapping of [range.end].  For the disjoint segments A and B, the generated
    range of [1,6) is not empty: the end does not resolve through A, and the
    one range yielded pairs A's start 1 with B's end 4. *)
Theorem findRanges_two_pass_algorithm :
  (forall Data (this : SourceMapWithDocuments Data) range filter,
      getSourceRanges this range filter =
        Spec.twoPass (getSourcePositionsBase this) (matchSourcePosition this) range filter
      /\ getGeneratedRanges this range filter =
        Spec.twoPass (getGeneratedPositionsBase this) (matchGeneratedPosition this)
          range filter)
  /\ matchGeneratedPosition Spec.boundaryExample (Spec.at_ 6) Spec.segmentA = None
  /\ getGeneratedPositionsBase Spec.boundaryExample (Spec.at_ 1) acceptAll
       = [(Spec.at_ 1, Spec.segmentA)]
  /\ getGeneratedPositionsBase Spec.boundaryExample (Spec.at_ 6) acceptAll
       = [(Spec.at_ 4, Spec.segmentB)]
  /\ getGeneratedRanges Spec.boundaryExample
       {| TextDocument.start := Spec.at_ 1; end_ := Spec.at_ 6 |} acceptAll
       = [{| TextDocument.start := Spec.at_ 1; end_ := Spec.at_ 4 |}].
Proof.
  split; [|by vm_compute].
  intros Data this range filter. split.
  - exact (findRanges_twoPass this range filter
             getSourcePositionsBase_ matchSourcePosition_).
  - exact (findRanges_twoPass this range filter
             getGeneratedPositionsBase_ matchGeneratedPosition_).
Qed.

(** ** Spans *)

Import Transform.

Lemma transformRange_end_firstPair filter sourceStart sourceEnds :
  transformRange_end filter sourceStart sourceEnds =
  head (sourceEnd ← sourceEnds;
        if bool_decide (fst sourceStart <= fst sourceEnd) && filter (data (snd sourceEnd))
        then [(fst sourceStart, fst sourceEnd)] else []).
Proof.
  induction sourceEnds as [|sourceEnd rest IH]; [done|].
  cbn [transformRange_end]. rewrite IH. cbn [mbind list_bind].
  rewrite (bool_decide_ext (fst sourceEnd >= fst sourceStart)
                           (fst sourceStart <= fst sourceEnd)) by lia.
  by destruct (_ && _).
Qed.

Lemma transformRange_start_firstPair filter sourceStarts sourceEnds :
  transformRange_start filter sourceStarts sourceEnds =
  Spec.firstPair filter sourceStarts sourceEnds.
Proof.
  unfold Spec.firstPair.
  induction sourceStarts as [|sourceStart rest IH]; [done|].
  cbn [transformRange_start mbind list_bind]. rewrite IH.
  destruct (filter (data (snd sourceStart))); [|done].
  rewrite transformRange_end_firstPair.
  by destruct (_ ← sourceEnds; _).
Qed.

Lemma transformRange_end_ordered filter sourceStart sourceEnds s e :
  transformRange_end filter sourceStart sourceEnds = Some (s, e) -> s <= e.
Proof.
  induction sourceEnds as [|sourceEnd rest IH]; [done|].
  cbn [transformRange_end].
  destruct (bool_decide (fst sourceEnd >= fst sourceStart)) eqn:Hge; simpl.
  - destruct (filter (data (snd sourceEnd))); [|done].
    intros [= <- <-]. apply bool_decide_eq_true in Hge. lia.
  - done.
Qed.

Lemma transformRange_ordered sourceFile map start end_ filter s e :
  transformRange sourceFile map start end_ filter = Some (s, e) -> s <= e.
Proof.
  unfold transformRange.
  induction (getSourceOffsets map (start - _)) as [|sourceStart rest IH]; [done|].
  cbn [transformRange_start].
  destruct (filter (data (snd sourceStart))); [|done].
  destruct (transformRange_end _ _ _) as [[s' e']|] eqn:Hend; [|done].
  intros [= <- <-]. by eapply transformRange_end_ordered.
Qed.

(** C9. On a registered generated document, a span [transformSpan] returns is
    never inverted: [transformRange] only accepts a source end offset that is
    not before the chosen source start offset, so the length is at least 0. *)
Theorem transformSpan_length_nonneg files fileName textSpan filter result :
  is_Some (getVirtualFileAndMap files fileName) ->
  transformSpan files (Some fileName) (Some textSpan) filter = Some result ->
  0 <= span_length (fs_textSpan result)
  /\ forall virtualFile sourceFile map s e,
       getVirtualFileAndMap files fileName = Some (virtualFile, sourceFile, map) ->
       transformRange sourceFile map (span_start textSpan)
         (span_start textSpan + span_length textSpan) filter = Some (s, e) ->
       s <= e /\ fs_textSpan result = Spec.span s (e - s).
Proof.
  intros [[[virtualFile sourceFile] map] Hreg]. unfold transformSpan.
  destruct (falsy (Some fileName)); [done|].
  rewrite Hreg.
  destruct (transformRange _ _ _ _ _) as [[s e]|] eqn:Hrange; [|done].
  intros [= <-]. simpl.
  pose proof (transformRange_ordered _ _ _ _ _ _ _ Hrange) as Hle.
  split; [lia|].
  intros ? ? ? s' e' ? ?. by simplify_eq.
Qed.

Lemma transformSpan_length_nonneg_witness :
  transformSpan Spec.exampleFiles (Some "/a.vue") (Some (Spec.span 11 2)) acceptAll
    = Some {| fs_fileName := "/a.vue"; fs_textSpan := Spec.span 1 6 |}
  /\ 0 <= span_length (Spec.span 1 6).
Proof.
  split; [by vm_compute|].
  refine (proj1 (transformSpan_length_nonneg Spec.exampleFiles "/a.vue" (Spec.span 11 2)
                   acceptAll {| fs_fileName := "/a.vue"; fs_textSpan := Spec.span 1 6 |}
                   _ _)).
  - by eexists.
  - reflexivity.
Defined.

Lemma falsy_nonempty fileName : fileName <> EmptyString -> falsy (Some fileName) = false.
Proof. intros Hne. unfold falsy. by rewrite bool_decide_eq_false. Qed.

(** C2, as the code has it.  For a non-empty file name that is not a
    registered generated document the span is returned unchanged.  For a
    registered one the result is the span from [s] of length [e - s], where
    [(s, e)] is the first pair, in mapping declaration order, of a filtered
    source offset of [start - sourceLength] and a filtered source offset of
    [end - sourceLength] that is not before it; the end is taken from any
    mapping of the map, and there is no result when no such pair exists. *)
Theorem transformSpan_resolution files fileName textSpan filter :
  fileName <> EmptyString ->
  (getVirtualFileAndMap files fileName = None ->
   transformSpan files (Some fileName) (Some textSpan) filter =
     Some {| fs_fileName := fileName; fs_textSpan := textSpan |})
  /\ (forall virtualFile sourceFile map,
        getVirtualFileAndMap files fileName = Some (virtualFile, sourceFile, map) ->
        transformSpan files (Some fileName) (Some textSpan) filter =
          (fun found : Z * Z =>
             {| fs_fileName := fileName;
                fs_textSpan := Spec.span (fst found) (snd found - fst found) |})
          <$> Spec.firstPair filter
                (getSourceOffsets map
                   (span_start textSpan - getLength (sf_snapshot sourceFile)))
                (getSourceOffsets map
                   (span_start textSpan + span_length textSpan
                    - getLength (sf_snapshot sourceFile)))).
Proof.
  intros Hne. unfold transformSpan. rewrite (falsy_nonempty _ Hne). split.
  - by intros ->.
  - intros virtualFile sourceFile map ->.
    unfold transformRange. rewrite transformRange_start_firstPair.
    by destruct (Spec.firstPair _ _ _).
Qed.

Lemma transformSpan_resolution_witness :
  "/a.vue" <> EmptyString
  /\ transformSpan Spec.exampleFiles (Some "/a.vue") (Some (Spec.span 11 2)) acceptAll =
       (fun found : Z * Z =>
          {| fs_fileName := "/a.vue";
             fs_textSpan := Spec.span (fst found) (snd found - fst found) |})
       <$> Spec.firstPair acceptAll
             (getSourceOffsets Spec.exampleMap (11 - 10))
             (getSourceOffsets Spec.exampleMap (11 + 2 - 10)).
Proof.
  split; [done|].
  exact (proj2 (transformSpan_resolution Spec.exampleFiles "/a.vue" (Spec.span 11 2)
                  acceptAll ltac:(done))
           Spec.exampleVirtualCode Spec.exampleSourceFile Spec.exampleMap eq_refl).
Defined.

(** C2 as stated fails.  The generated offsets 1 and 3 lie in the second
    mapping, which sends them to the source offsets 1 and 3, and that is the
    range the translator's [getSourceRange] answers; the first mapping also
    contains the generated offset 3 and sends it to 7, and [transformRange]
    takes that end because it comes first.  (Read without the shift by the
    source length, [transformRange] looks the offsets 1 and 3 up 10 too low
    and finds nothing.)  And the empty file name, which is no registered
    generated document, gives no result instead of the unchanged span. *)
Lemma transformRange_is_not_getSourceRange :
  transformRange Spec.exampleSourceFile Spec.exampleMap 11 13 acceptAll = Some (1, 7)
  /\ Spec.viaSourceRange Spec.exampleTranslator 1 3 acceptAll = Some (1, 3)
  /\ transformRange Spec.exampleSourceFile Spec.exampleMap 11 13 acceptAll
       <> Spec.viaSourceRange Spec.exampleTranslator 1 3 acceptAll
  /\ transformRange Spec.exampleSourceFile Spec.exampleMap 1 3 acceptAll
       <> Spec.viaSourceRange Spec.exampleTranslator 1 3 acceptAll
  /\ transformSpan Spec.exampleFiles (Some "/a.vue") (Some (Spec.span 11 2)) acceptAll
       = Some {| fs_fileName := "/a.vue"; fs_textSpan := Spec.span 1 6 |}
  /\ getVirtualFileAndMap Spec.exampleFiles EmptyString = None
  /\ transformSpan Spec.exampleFiles (Some EmptyString) (Some (Spec.span 1 2)) acceptAll
       = None.
Proof. repeat split; by vm_compute. Qed.

(** ** Document spans *)

(** C6. When the primary text span fails to transform, [transformDocumentSpan]
    returns nothing with the fallback disabled; with the fallback enabled on a
    registered generated document it returns a result whose primary span is
    the zero-length span at offset 0, in the same file.  In every result the
    context, original and original-context spans are the outcomes of their own
    [transformSpan] calls: one that fails is absent from the result and the
    result is still returned. *)
Theorem transformDocumentSpan_fallback files documentSpan filter :
  transformSpan files (Some (ds_fileName documentSpan))
    (Some (ds_textSpan documentSpan)) filter = None ->
  transformDocumentSpan files documentSpan filter false = None
  /\ (is_Some (getVirtualFileAndMap files (ds_fileName documentSpan)) ->
      transformDocumentSpan files documentSpan filter true =
        Some {| ds_fileName := ds_fileName documentSpan;
                ds_textSpan := {| span_start := 0; span_length := 0 |};
                contextSpan :=
                  fs_textSpan <$> transformSpan files (Some (ds_fileName documentSpan))
                                    (contextSpan documentSpan) filter;
                originalFileName :=
                  fs_fileName <$> transformSpan files (originalFileName documentSpan)
                                    (originalTextSpan documentSpan) filter;
                originalTextSpan :=
                  fs_textSpan <$> transformSpan files (originalFileName documentSpan)
                                    (originalTextSpan documentSpan) filter;
                originalContextSpan :=
                  fs_textSpan <$> transformSpan files (originalFileName documentSpan)
                                    (originalContextSpan documentSpan) filter |}).
Proof.
  intros Hfail. unfold transformDocumentSpan. rewrite Hfail. simpl. split; [done|].
  intros [registered ->]. done.
Qed.

Lemma transformDocumentSpan_fallback_witness :
  let documentSpan :=
    {| ds_fileName := "/a.vue"; ds_textSpan := Spec.span 15 1;
       contextSpan := Some (Spec.span 11 2);
       originalFileName := Some "/b.ts";
       originalTextSpan := Some (Spec.span 3 4);
       originalContextSpan := None |} in
  transformDocumentSpan Spec.exampleFiles documentSpan acceptAll false = None
  /\ transformDocumentSpan Spec.exampleFiles documentSpan acceptAll true =
       Some {| ds_fileName := "/a.vue"; ds_textSpan := Spec.span 0 0;
               contextSpan := Some (Spec.span 1 6);
               originalFileName := Some "/b.ts";
               originalTextSpan := Some (Spec.span 3 4);
               originalContextSpan := None |}.
Proof.
  intros documentSpan.
  pose proof (transformDocumentSpan_fallback Spec.exampleFiles documentSpan acceptAll
                eq_refl) as [Hoff Hon].
  split; [exact Hoff|].
  exact (Hon (ex_intro _ _ eq_refl)).
Defined.

(** ** File text changes *)

Section FileTextChanges.
Variables (files : FileRegistry) (fileName : string) (filter : CodeInformation -> bool).

#[local] Abbreviation mappable := (Spec.mappable files fileName filter).
#[local] Abbreviation translated := (Spec.translated files fileName filter).

Lemma transformSpan_fileName fileName' textSpan result :
  transformSpan files fileName' textSpan filter = Some result ->
  fileName' = Some (fs_fileName result).
Proof.
  unfold transformSpan. destruct fileName' as [name|]; [|done].
  destruct (falsy (Some name)); [done|].
  destruct textSpan as [textSpan|]; [|done].
  destruct (getVirtualFileAndMap files name) as [[[? ?] ?]|].
  - destruct (transformRange _ _ _ _ _); [|done]. by intros [= <-].
  - by intros [= <-].
Qed.

Lemma filterNotEmpty_transformTextChange (edits : list TextChange) :
  Forall2 translated (base.filter mappable edits)
    (filterNotEmpty (transformTextChange files fileName filter <$> edits)).
Proof.
  unfold filterNotEmpty.
  induction edits as [|c edits IH]; [constructor|].
  rewrite fmap_cons, !filter_cons.
  destruct (decide (mappable c)) as [[result Hspan]|Hnot].
  - assert (transformTextChange files fileName filter c =
              Some {| tc_span := fs_textSpan result; newText := newText c |}) as ->.
    { unfold transformTextChange. by rewrite Hspan. }
    rewrite decide_True by done. simpl. constructor; [|done].
    split; [|done]. rewrite Hspan. f_equal.
    apply transformSpan_fileName in Hspan. destruct result; simpl in *. congruence.
  - assert (transformTextChange files fileName filter c = None) as ->.
    { unfold transformTextChange.
      destruct (transformSpan files (Some fileName) (Some (tc_span c)) filter) eqn:Hspan;
        [|done].
      destruct Hnot. unfold Spec.mappable. rewrite Hspan. eauto. }
    rewrite decide_False by done. done.
Qed.

Lemma translated_newText (inputs outputs : list TextChange) :
  Forall2 translated inputs outputs -> newText <$> outputs = newText <$> inputs.
Proof.
  induction 1 as [|input output inputs outputs [_ Htext] _ IH]; [done|].
  rewrite !fmap_cons. by f_equal.
Qed.

End FileTextChanges.

(** C7. For a registered generated document, [transformFileTextChanges]
    answers the batch whose edits are exactly the edits whose spans transform
    (without fallback), in their original order, each with its translated span
    and its [newText] unchanged; the other edits are dropped.  For a file name
    that is not a registered generated document the batch is returned as it
    is. *)
Theorem transformFileTextChanges_filter files changes filter :
  (getVirtualFileAndMap files (ftc_fileName changes) = None ->
   transformFileTextChanges files changes filter = Some changes)
  /\ (is_Some (getVirtualFileAndMap files (ftc_fileName changes)) ->
      exists output,
        transformFileTextChanges files changes filter = Some output
        /\ ftc_fileName output = ftc_fileName changes
        /\ isNewFile output = isNewFile changes
        /\ Forall2 (Spec.translated files (ftc_fileName changes) filter)
             (base.filter (Spec.mappable files (ftc_fileName changes) filter)
                (textChanges changes))
             (textChanges output)
        /\ newText <$> textChanges output =
           newText <$> base.filter (Spec.mappable files (ftc_fileName changes) filter)
                         (textChanges changes)).
Proof.
  unfold transformFileTextChanges. split.
  - by intros ->.
  - intros [[[virtualCode source] map] ->].
    eexists. split; [reflexivity|]. simpl. split; [done|]. split; [done|].
    pose proof (filterNotEmpty_transformTextChange files (ftc_fileName changes) filter
                  (textChanges changes)) as Hall.
    split; [done|]. by eapply translated_newText.
Qed.

Lemma transformFileTextChanges_filter_witness :
  let changes :=
    {| ftc_fileName := "/a.vue";
       textChanges := [ {| tc_span := Spec.span 10 1; newText := "x" |};
                        {| tc_span := Spec.span 15 1; newText := "y" |};
                        {| tc_span := Spec.span 12 2; newText := "z" |} ];
       isNewFile := None |} in
  transformFileTextChanges Spec.exampleFiles changes acceptAll =
    Some {| ftc_fileName := "/a.vue";
            textChanges := [ {| tc_span := Spec.span 0 1; newText := "x" |};
                             {| tc_span := Spec.span 6 2; newText := "z" |} ];
            isNewFile := None |}
  /\ exists output,
       transformFileTextChanges Spec.exampleFiles changes acceptAll = Some output
       /\ newText <$> textChanges output = ["x"; "z"].
Proof.
  intros changes. split; [by vm_compute|].
  destruct (proj2 (transformFileTextChanges_filter Spec.exampleFiles changes acceptAll)
              (ex_intro _ _ eq_refl))
    as (output & Hout & _ & _ & _ & Htexts).
  exists output. split; [exact Hout|]. rewrite Htexts. by vm_compute.
Defined.

(** ** Virtual code URIs *)

Section Separator.
(** A separator whose first character does not occur again in it cannot
    overlap itself. *)
Variables (c0 : ascii) (tail : string).
Hypothesis c0_fresh : Spec.occurs c0 tail = false.

Lemma stripPrefix_append (sep rest : string) : stripPrefix sep (sep +:+ rest) = Some rest.
Proof.
  induction sep as [|c sep IH]; [by destruct rest|].
  simpl. by rewrite bool_decide_eq_true_2.
Qed.

Lemma stripPrefix_extend (t s w : string) :
  Spec.occurs c0 t = false ->
  stripPrefix t s = None ->
  stripPrefix t (s +:+ String c0 w) = None.
Proof.
  revert s. induction t as [|e t IH]; intros s Hfresh Hnone.
  - by destruct s.
  - simpl in Hfresh. apply orb_false_iff in Hfresh as [Hne Hfresh].
    apply bool_decide_eq_false in Hne.
    destruct s as [|d s]; simpl in *.
    + rewrite bool_decide_eq_false_2; [done|congruence].
    + destruct (bool_decide (e = d)); [by apply IH|done].
Qed.

Lemma stripPrefix_straddle (s v : string) :
  s <> EmptyString ->
  stripPrefix (String c0 tail) s = None ->
  stripPrefix (String c0 tail) (s +:+ String c0 tail +:+ v) = None.
Proof.
  destruct s as [|d s]; [done|]. intros _. simpl.
  destruct (bool_decide (c0 = d)); [|done].
  intros Hnone. by apply stripPrefix_extend.
Qed.

Lemma cut_None_head (sep s : string) :
  cut sep s = None -> stripPrefix sep s = None.
Proof. destruct s; simpl; by destruct (stripPrefix sep _). Qed.

Lemma cut_join (s v : string) :
  cut (String c0 tail) s = None ->
  cut (String c0 tail) (s +:+ String c0 tail +:+ v) = Some (s, v).
Proof.
  induction s as [|d s IH]; intros Hnone.
  - change (EmptyString +:+ String c0 tail +:+ v) with (String c0 tail +:+ v).
    pose proof (stripPrefix_append (String c0 tail) v) as Hstrip.
    destruct (String c0 tail +:+ v) eqn:Heq; [done|].
    unfold cut; fold cut. by rewrite Hstrip.
  - pose proof (cut_None_head _ _ Hnone) as Hhead.
    pose proof (stripPrefix_straddle (String d s) v ltac:(done) Hhead) as Hstraddle.
    change (String d s +:+ String c0 tail +:+ v)
      with (String d (s +:+ String c0 tail +:+ v)) in *.
    unfold cut; fold cut. rewrite Hstraddle.
    unfold cut in Hnone; fold cut in Hnone. rewrite Hhead in Hnone.
    destruct (cut (String c0 tail) s) as [[? ?]|] eqn:Hcut; [done|].
    by rewrite IH.
Qed.

Lemma split_join (s v : string) :
  cut (String c0 tail) s = None ->
  cut (String c0 tail) v = None ->
  split (s +:+ String c0 tail +:+ v) (String c0 tail) = [s; v].
Proof.
  intros Hs Hv. unfold split.
  destruct (String.length (s +:+ String c0 tail +:+ v)) as [|fuel] eqn:Hlen.
  - destruct s; done.
  - simpl. rewrite (cut_join s v Hs).
    destruct fuel as [|fuel]; [done|]. simpl. by rewrite Hv.
Qed.

End Separator.

Lemma includes_false (s sep : string) : includes s sep = false -> cut sep s = None.
Proof.
  unfold includes. intros Hno%bool_decide_eq_false.
  destruct (cut sep s); [|done]. destruct Hno. eauto.
Qed.

(** C10. A URI built by [getVirtualCodeUri] from a source file URI and a
    virtual code id that do not contain ['?virtualCodeId='] is split back
    into exactly these two by [getVirtualCodeByUri], which looks them up in
    the registry; a URI without ['?virtualCodeId='] gives
    [[undefined, undefined]]. *)
Theorem virtualCodeUri_round_trip files :
  (forall sourceFileUri virtualCodeId,
      includes sourceFileUri virtualCodeIdMark = false ->
      includes virtualCodeId virtualCodeIdMark = false ->
      includes (getVirtualCodeUri sourceFileUri virtualCodeId) virtualCodeIdMark = true
      /\ split (getVirtualCodeUri sourceFileUri virtualCodeId) virtualCodeIdMark
           = [sourceFileUri; virtualCodeId]
      /\ getVirtualCodeByUri files (getVirtualCodeUri sourceFileUri virtualCodeId)
           = getVirtualCode files (Some sourceFileUri) (Some virtualCodeId))
  /\ (forall uri,
        includes uri virtualCodeIdMark = false ->
        getVirtualCodeByUri files uri = (None, None)).
Proof.
  split.
  - intros s v Hs%includes_false Hv%includes_false.
    unfold virtualCodeIdMark in *.
    assert (includes (getVirtualCodeUri s v) virtualCodeIdMark = true) as Hin.
    { unfold includes, getVirtualCodeUri, virtualCodeIdMark.
      rewrite (cut_join "?"%char "virtualCodeId=" eq_refl s v Hs). apply bool_decide_eq_true. eauto. }
    split; [done|].
    assert (split (getVirtualCodeUri s v) virtualCodeIdMark = [s; v]) as Hsplit.
    { unfold getVirtualCodeUri, virtualCodeIdMark.
      by apply (split_join "?"%char "virtualCodeId=" eq_refl). }
    split; [done|].
    unfold getVirtualCodeByUri. rewrite Hin, Hsplit. done.
  - intros uri Hno. unfold getVirtualCodeByUri. by rewrite Hno.
Qed.

Lemma virtualCodeUri_round_trip_witness :
  getVirtualCodeUri "file:///a.vue" "script_0" = "file:///a.vue?virtualCodeId=script_0"
  /\ getVirtualCodeByUri Spec.exampleFiles "file:///a.vue?virtualCodeId=script_0"
       = getVirtualCode Spec.exampleFiles (Some "file:///a.vue") (Some "script_0")
  /\ getVirtualCodeByUri Spec.exampleFiles "file:///a.vue" = (None, None).
Proof.
  split; [reflexivity|].
  destruct (virtualCodeUri_round_trip Spec.exampleFiles) as [Hbuilt Hplain].
  split.
  - exact (proj2 (proj2 (Hbuilt "file:///a.vue" "script_0" eq_refl eq_refl))).
  - exact (Hplain "file:///a.vue" eq_refl).
Defined.

(** ** The document store *)

Lemma get_hit uri languageId snapshot st doc :
  Spec.lookupDoc st (snapshot_id snapshot) uri = Some doc ->
  get uri languageId snapshot st = (st, Some doc).
Proof.
  unfold Spec.lookupDoc, get. intros Hhit.
  destruct (snapshot2Doc st !! snapshot_id snapshot) as [map|] eqn:Hmap; [|done].
  simpl in Hhit.
  rewrite (bool_decide_eq_true_2 (is_Some (Some map))) by eauto.
  rewrite Hmap. simpl.
  rewrite (bool_decide_eq_true_2 (is_Some (map !! uri))) by eauto.
  rewrite Hmap. simpl. by rewrite Hhit.
Qed.

Lemma get_miss uri languageId snapshot st :
  Spec.lookupDoc st (snapshot_id snapshot) uri = None ->
  exists st',
    get uri languageId snapshot st = (st', Some (length (documents st)))
    /\ documents st' =
         documents st ++
           [TextDocument.create uri languageId (version st) (snapshot_text snapshot)]
    /\ getTextCalls st' = getTextCalls st ++ [(snapshot_id snapshot, uri)]
    /\ forall key uri',
         Spec.lookupDoc st' key uri' =
           if decide (key = snapshot_id snapshot /\ uri' = uri)
           then Some (length (documents st))
           else Spec.lookupDoc st key uri'.
Proof.
  unfold Spec.lookupDoc, get. intros Hmiss.
  destruct (snapshot2Doc st !! snapshot_id snapshot) as [map|] eqn:Hmap; simpl in Hmiss.
  - rewrite (bool_decide_eq_true_2 (is_Some (Some map))) by eauto.
    rewrite Hmap. simpl.
    rewrite (bool_decide_eq_false_2 (is_Some (map !! uri)))
      by (rewrite Hmiss; by intros [? ?]).
    eexists. split; [|split; [|split]].
    + f_equal. simpl. rewrite lookup_insert_eq. simpl. by rewrite lookup_insert_eq.
    + reflexivity.
    + reflexivity.
    + intros key uri'. simpl.
      destruct (decide (key = snapshot_id snapshot)) as [->|Hkey].
      * rewrite lookup_insert_eq. simpl.
        destruct (decide (uri' = uri)) as [->|Huri].
        -- rewrite lookup_insert_eq. by rewrite decide_True.
        -- rewrite lookup_insert_ne by done. rewrite Hmap. simpl.
           by rewrite decide_False by (intros [? ?]; done).
      * rewrite lookup_insert_ne by done.
        by rewrite decide_False by (intros [? ?]; done).
  - rewrite (bool_decide_eq_false_2 (is_Some None)) by (by intros [? ?]). simpl.
    rewrite lookup_insert_eq. simpl.
    rewrite (bool_decide_eq_false_2 (is_Some (∅ !! uri)))
      by (rewrite lookup_empty; by intros [? ?]).
    eexists. split; [|split; [|split]].
    + f_equal. simpl. rewrite lookup_insert_eq. simpl. by rewrite lookup_insert_eq.
    + reflexivity.
    + reflexivity.
    + intros key uri'. simpl.
      destruct (decide (key = snapshot_id snapshot)) as [->|Hkey].
      * rewrite lookup_insert_eq. simpl.
        destruct (decide (uri' = uri)) as [->|Huri].
        -- rewrite lookup_insert_eq. by rewrite decide_True.
        -- rewrite lookup_insert_ne by done. rewrite lookup_empty, Hmap.
           by rewrite decide_False by (intros [? ?]; done).
      * rewrite !lookup_insert_ne by done.
        by rewrite decide_False by (intros [? ?]; done).
Qed.

Lemma emptyProvider_inv : Spec.providerInv emptyProvider.
Proof.
  split; unfold Spec.lookupDoc; simpl.
  - intros key uri doc. by rewrite lookup_empty.
  - intros key1 uri1 key2 uri2 doc. by rewrite lookup_empty.
  - intros key uri. rewrite lookup_empty. simpl. split; [by intros ?%elem_of_nil|by intros [? ?]].
  - constructor.
Qed.

Lemma get_miss_inv uri languageId snapshot st st' doc :
  Spec.providerInv st ->
  Spec.lookupDoc st (snapshot_id snapshot) uri = None ->
  get uri languageId snapshot st = (st', doc) ->
  Spec.providerInv st'.
Proof.
  intros [Hbound Hinj Hcalls Honce] Hmiss Hget.
  destruct (get_miss uri languageId snapshot st Hmiss)
    as (st'' & Hget' & Hdocs & Hlog & Hlookup).
  rewrite Hget' in Hget. injection Hget as <- <-.
  split.
  - intros key uri' doc. rewrite Hlookup, Hdocs, length_app. simpl.
    case_decide; [intros [= <-]; lia|]. intros ?%Hbound. lia.
  - intros key1 uri1 key2 uri2 doc. rewrite !Hlookup.
    destruct (decide (key1 = snapshot_id snapshot /\ uri1 = uri)) as [[-> ->]|Hkey1];
      destruct (decide (key2 = snapshot_id snapshot /\ uri2 = uri)) as [[-> ->]|Hkey2];
      intros H1 H2.
    + done.
    + injection H1 as <-. apply Hbound in H2. lia.
    + injection H2 as <-. apply Hbound in H1. lia.
    + by eapply Hinj.
  - intros key uri'. rewrite Hlog, Hlookup, elem_of_app, list_elem_of_singleton, Hcalls.
    case_decide as Hkey.
    + destruct Hkey as [-> ->]. split; [eauto|]. intros _. by right.
    + split; [|by left]. intros [?|[= -> ->]]; [done|]. by destruct Hkey.
  - rewrite Hlog. apply NoDup_app. split; [done|]. split; [|apply NoDup_singleton].
    intros [key uri'] Hin [= -> ->]%list_elem_of_singleton.
    apply Hcalls in Hin. rewrite Hmiss in Hin. by destruct Hin.
Qed.

Lemma getAll_spec calls st :
  Spec.providerInv st ->
  let st' := fst (getAll calls st) in
  let docs := snd (getAll calls st) in
  Spec.providerInv st'
  /\ (forall key uri doc,
        Spec.lookupDoc st key uri = Some doc -> Spec.lookupDoc st' key uri = Some doc)
  /\ (forall key uri,
        is_Some (Spec.lookupDoc st' key uri) ->
        is_Some (Spec.lookupDoc st key uri) \/ (key, uri) ∈ Spec.callKey <$> calls)
  /\ Forall2 (fun call doc =>
                is_Some doc
                /\ doc = Spec.lookupDoc st' (fst (Spec.callKey call)) (snd (Spec.callKey call)))
       calls docs.
Proof.
  revert st. induction calls as [|[[uri languageId] snapshot] calls IH]; intros st Hinv.
  { simpl. split; [done|]. split; [done|]. split; [by left|constructor]. }
  cbn [getAll].
  destruct (Spec.lookupDoc st (snapshot_id snapshot) uri) as [doc|] eqn:Hlookup.
  - rewrite (get_hit _ languageId _ _ _ Hlookup).
    destruct (IH st Hinv) as (Hinv' & Hmono & Hnew & Hdocs).
    destruct (getAll calls st) as [st' docs]. simpl in *.
    split; [done|]. split; [done|]. split.
    + intros key uri' Hsome. destruct (Hnew _ _ Hsome); [by left|].
      right. by apply list_elem_of_further.
    + constructor; [|done]. simpl. rewrite (Hmono _ _ _ Hlookup). eauto.
  - destruct (get_miss uri languageId snapshot st Hlookup)
      as (st1 & Hget & _ & _ & Hst1).
    pose proof (get_miss_inv _ _ _ _ _ _ Hinv Hlookup Hget) as Hinv1.
    rewrite Hget.
    destruct (IH st1 Hinv1) as (Hinv' & Hmono & Hnew & Hdocs).
    destruct (getAll calls st1) as [st' docs]. simpl in *.
    split; [done|]. split; [|split].
    + intros key uri' doc Hold. apply Hmono. rewrite Hst1.
      rewrite decide_False; [done|]. intros [-> ->]. congruence.
    + intros key uri' Hsome.
      destruct (Hnew _ _ Hsome) as [Hst|Hin].
      * rewrite Hst1 in Hst. case_decide as Hkey.
        -- destruct Hkey as [-> ->]. right. apply list_elem_of_here.
        -- by left.
      * right. by apply list_elem_of_further.
    + constructor; [|done]. simpl.
      rewrite (Hmono (snapshot_id snapshot) uri (length (documents st))); [eauto|].
      rewrite Hst1. by rewrite decide_True.
Qed.

(** C5. The document store is keyed by snapshot identity paired with the
    URI.  After any sequence of [get] calls on a new provider: every call
    returns a document; two calls return the same document instance exactly
    when they have the same URI and the same snapshot identity, whatever the
    texts of the snapshots are; and the trace of [snapshot.getText] calls
    lists every requested (snapshot, URI) pair once and nothing else. *)
Theorem documentStore_identity_keyed calls :
  let st := fst (getAll calls emptyProvider) in
  let docs := snd (getAll calls emptyProvider) in
  (forall i call, calls !! i = Some call ->
     exists doc, docs !! i = Some (Some doc) /\ is_Some (documents st !! doc))
  /\ (forall i j call_i call_j doc_i doc_j,
        calls !! i = Some call_i -> calls !! j = Some call_j ->
        docs !! i = Some (Some doc_i) -> docs !! j = Some (Some doc_j) ->
        (doc_i = doc_j <-> Spec.callKey call_i = Spec.callKey call_j))
  /\ NoDup (getTextCalls st)
  /\ (forall key, key ∈ getTextCalls st <-> key ∈ Spec.callKey <$> calls).
Proof.
  destruct (getAll_spec calls emptyProvider emptyProvider_inv)
    as (Hinv & _ & Hnew & Hdocs).
  destruct (getAll calls emptyProvider) as [st docs]. simpl in *.
  destruct Hinv as [Hbound Hinj Hcalls Honce].
  split; [|split; [|split]].
  - intros i call Hcall.
    destruct (Forall2_lookup_l _ _ _ _ _ Hdocs Hcall) as (doc & Hdoc & [d ->] & Heq).
    exists d. split; [done|]. apply lookup_lt_is_Some. by eapply Hbound.
  - intros i j call_i call_j doc_i doc_j Hi Hj Hdi Hdj.
    destruct (Forall2_lookup_l _ _ _ _ _ Hdocs Hi) as (di & Hdi' & _ & Heqi).
    destruct (Forall2_lookup_l _ _ _ _ _ Hdocs Hj) as (dj & Hdj' & _ & Heqj).
    rewrite Hdi in Hdi'. injection Hdi' as <-.
    rewrite Hdj in Hdj'. injection Hdj' as <-.
    split.
    + intros <-. destruct (Hinj _ _ _ _ _ (eq_sym Heqi) (eq_sym Heqj)).
      by apply injective_projections.
    + intros [= Hid Huri]. rewrite Hid, Huri in Heqi. congruence.
  - done.
  - intros [key uri]. rewrite Hcalls. split.
    + intros Hsome. destruct (Hnew _ _ Hsome) as [[? Hempty]|]; [|done].
      unfold Spec.lookupDoc in Hempty. simpl in Hempty. by rewrite lookup_empty in Hempty.
    + intros (call & Hkey & Hin)%list_elem_of_fmap.
      apply list_elem_of_lookup in Hin as [i Hi].
      destruct (Forall2_lookup_l _ _ _ _ _ Hdocs Hi) as (? & _ & Hsome & Heq).
      unfold Spec.callKey in Hkey. injection Hkey as -> ->. by rewrite <- Heq.
Qed.

Lemma documentStore_identity_keyed_witness :
  let first := {| snapshot_id := 1; snapshot_text := "let x" |} in
  let second := {| snapshot_id := 2; snapshot_text := "let x" |} in
  let calls := [("/a.ts", "typescript", first); ("/a.ts", "typescript", second);
                ("/a.ts", "typescript", first)] in
  snd (getAll calls emptyProvider) = [Some 0; Some 1; Some 0]%nat
  /\ getTextCalls (fst (getAll calls emptyProvider)) = [(1, "/a.ts"); (2, "/a.ts")]%nat
  /\ (0 = 1 <-> (1, "/a.ts") = (2, "/a.ts"))%nat
  /\ (0 = 0 <-> (1, "/a.ts") = (1, "/a.ts"))%nat.
Proof.
  intros first second calls.
  split; [by vm_compute|]. split; [by vm_compute|].
  pose proof (documentStore_identity_keyed calls) as (_ & Hsame & _ & _).
  split.
  - exact (Hsame 0 1 _ _ 0 1 eq_refl eq_refl eq_refl eq_refl)%nat.
  - exact (Hsame 0 2 _ _ 0 0 eq_refl eq_refl eq_refl eq_refl)%nat.
Defined.

(** ** Absence of a match *)

Section NoMatch.
Context {Data : Type} (this : SourceMapWithDocuments Data).

Lemma findPositions_nil position filter fromDoc toDoc from to :
  findMatching (map this) (offsetAt fromDoc position) from to = [] ->
  findPositions this position filter fromDoc toDoc from to = [].
Proof. unfold findPositions. by intros ->. Qed.

Lemma findRanges_nil range filter api api2 :
  callApi this api (TextDocument.start range) filter = [] ->
  findRanges this range filter api api2 = [].
Proof. unfold findRanges. by intros ->. Qed.

End NoMatch.

(** ** Diagnostics *)

Lemma bind_Ok {A B} (m : M A) (k : A -> M B) st b st' :
  (m ≫= k) st = Ok (b, st') ->
  exists a st1, m st = Ok (a, st1) /\ k a st1 = Ok (b, st').
Proof.
  unfold mbind, M_bind, bind. destruct (m st) as [[a st1]| |]; [eauto|done|done].
Qed.

Ltac inv_bind H :=
  let a := fresh "a" in
  let st := fresh "st" in
  let H1 := fresh H "_l" in
  apply bind_Ok in H as (a & st & H1 & H).

Section Extends.

Lemma extends_refl st : Spec.extends st st.
Proof.
  split; [done|done|done| |].
  - intros r o Hr. exists o. eauto.
  - exists []. rewrite app_nil_r. split; [done|]. split; [constructor|].
    intros x. split; [by intros ?%elem_of_nil|tauto].
Qed.

Lemma extends_trans st1 st2 st3 :
  Spec.extends st1 st2 -> Spec.extends st2 st3 -> Spec.extends st1 st3.
Proof.
  intros [Hh1 Hc1 Hs1 Ho1 (new1 & Hn1 & Hd1 & Hx1)]
         [Hh2 Hc2 Hs2 Ho2 (new2 & Hn2 & Hd2 & Hx2)].
  split.
  - lia.
  - set_solver.
  - intros x Hx. rewrite Hs2 by set_solver. by apply Hs1.
  - intros r o Hr.
    destruct (Ho1 r o Hr) as (o' & Hr' & Hsame' & Hkeep').
    destruct (Ho2 r o' Hr') as (o'' & Hr'' & Hsame'' & Hkeep'').
    exists o''. split; [done|]. split; [congruence|].
    intros [Hin|Hnotin].
    + rewrite Hkeep'' by (left; set_solver). apply Hkeep'. by left.
    + rewrite Hkeep'' by (by right). apply Hkeep'. right. set_solver.
  - exists (new1 ++ new2). split; [by rewrite Hn2, Hn1, app_assoc|]. split.
    + apply NoDup_app. split; [done|]. split; [|done].
      intros x Hx1in Hx2in. apply Hx1 in Hx1in. apply Hx2 in Hx2in. tauto.
    + intros x. rewrite elem_of_app, Hx1, Hx2.
      destruct (decide (x ∈ Spec.cached st2)); set_solver.
Qed.

(** Reserving the slot of a diagnostic that has none, and tracing it. *)
Lemma reserve_extends d st st1 st2 :
  d ∉ Spec.cached st ->
  cacheSet d None st = Ok (tt, st1) ->
  trace d st1 = Ok (tt, st2) ->
  Spec.extends st st2
  /\ heap st2 = heap st
  /\ transformedDiagnostics st2 !! d = Some None
  /\ Spec.cached st2 = {[d]} ∪ Spec.cached st
  /\ computed st2 = computed st ++ [d].
Proof.
  intros Hd [= <-] [= <-]. unfold Spec.cached in *. simpl.
  rewrite dom_insert_L, lookup_insert_eq.
  split; [|done].
  split; unfold Spec.cached; simpl.
  - done.
  - rewrite dom_insert_L. set_solver.
  - intros x Hx. rewrite lookup_insert_ne; [done|]. by intros ->.
  - intros r o Hr. exists o. eauto.
  - exists [d]. split; [done|]. split; [apply NoDup_singleton|].
    intros x. rewrite list_elem_of_singleton, dom_insert_L. set_solver.
Qed.

(** Assigning [relatedInformation] of a diagnostic whose slot was reserved
    during the run. *)
Lemma storeRelated_extends st d related st3 st4 :
  Spec.extends st st3 ->
  d ∉ Spec.cached st -> d ∈ Spec.cached st3 ->
  storeRelated d related st3 = Ok (tt, st4) ->
  Spec.extends st st4
  /\ transformedDiagnostics st4 = transformedDiagnostics st3
  /\ computed st4 = computed st3
  /\ length (heap st4) = length (heap st3).
Proof.
  intros [Hh Hc Hs Ho Hn] Hd Hd3. unfold storeRelated.
  destruct (heap st3 !! d) as [o3|] eqn:Hd3o; [|done].
  intros [= <-]. unfold Spec.cached in *. simpl.
  rewrite length_insert.
  split; [|done].
  split; unfold Spec.cached; simpl.
  - by rewrite length_insert.
  - done.
  - done.
  - intros r o Hr. destruct (Ho r o Hr) as (o' & Hr' & Hsame & Hkeep).
    destruct (decide (r = d)) as [->|Hne].
    + exists (withRelated o3 (Some related)).
      rewrite list_lookup_insert_eq by (by eapply lookup_lt_Some).
      split; [done|]. rewrite Hd3o in Hr'. injection Hr' as <-.
      split; [done|]. intros [?|?]; done.
    + exists o'. by rewrite list_lookup_insert_ne.
  - done.
Qed.

(** Filling the slot of a diagnostic whose slot was reserved during the run. *)
Lemma cacheSet_extends st d v st4 st5 :
  Spec.extends st st4 ->
  d ∉ Spec.cached st -> d ∈ Spec.cached st4 ->
  cacheSet d v st4 = Ok (tt, st5) ->
  Spec.extends st st5
  /\ Spec.cached st5 = Spec.cached st4
  /\ computed st5 = computed st4
  /\ heap st5 = heap st4.
Proof.
  intros [Hh Hc Hs Ho Hn] Hd Hd4 [= <-].
  assert (Spec.cached {| heap := heap st4;
                         transformedDiagnostics := <[d:=v]> (transformedDiagnostics st4);
                         computed := computed st4 |} = Spec.cached st4) as Hcached.
  { unfold Spec.cached in *. simpl. rewrite dom_insert_L. set_solver. }
  split; [|done].
  split; rewrite ?Hcached; try done.
  intros x Hx. simpl. rewrite lookup_insert_ne; [by apply Hs|]. by intros ->.
Qed.

Lemma alloc_extends st o st4 copy st5 :
  Spec.extends st st4 ->
  alloc o st4 = Ok (copy, st5) ->
  Spec.extends st st5
  /\ transformedDiagnostics st5 = transformedDiagnostics st4
  /\ computed st5 = computed st4
  /\ (length (heap st4) <= length (heap st5))%nat.
Proof.
  intros [Hh Hc Hs Ho Hn] [= <- <-]. unfold Spec.cached in *. simpl.
  rewrite length_app.
  split; [|split; [done|split; [done|lia]]].
  split; unfold Spec.cached; simpl.
  - rewrite length_app. lia.
  - done.
  - done.
  - intros r o0 Hr. destruct (Ho r o0 Hr) as (o' & Hr' & Hrest).
    exists o'. split; [|done]. by apply lookup_app_l_Some.
  - done.
Qed.

End Extends.

Lemma cached_has st d :
  d ∈ Spec.cached st <-> is_Some (transformedDiagnostics st !! d).
Proof. unfold Spec.cached. apply elem_of_dom. Qed.

Lemma dom_cached st st' :
  transformedDiagnostics st' = transformedDiagnostics st -> Spec.cached st' = Spec.cached st.
Proof. unfold Spec.cached. by intros ->. Qed.

Lemma transformOwnSpan_extends files st d st4 st5 :
  Spec.extends st st4 ->
  d ∉ Spec.cached st -> d ∈ Spec.cached st4 ->
  transformOwnSpan files d st4 = Ok (tt, st5) ->
  Spec.extends st st5
  /\ Spec.cached st5 = Spec.cached st4
  /\ computed st5 = computed st4
  /\ (length (heap st4) <= length (heap st5))%nat.
Proof.
  intros Hext Hd Hd4 Hrun. unfold transformOwnSpan in Hrun.
  inv_bind Hrun. unfold load in Hrun_l.
  destruct (heap st4 !! d) as [o|]; [|done]. injection Hrun_l as <- <-.
  assert (forall v, cacheSet d v st4 = Ok (tt, st5) ->
            Spec.extends st st5 /\ Spec.cached st5 = Spec.cached st4
            /\ computed st5 = computed st4
            /\ (length (heap st4) <= length (heap st5))%nat) as Hset.
  { intros v Hv.
    destruct (cacheSet_extends _ _ _ _ _ Hext Hd Hd4 Hv) as (? & ? & ? & ->).
    done. }
  destruct (file o) as [fileName|]; [|by eapply Hset].
  destruct (start o) as [start|]; [|by eapply Hset].
  destruct (length_ o) as [len|]; [|by eapply Hset].
  destruct (getVirtualFileAndMap files fileName) as [[[virtualCode sourceFile] map]|];
    [|by eapply Hset].
  destruct (transformRange _ _ _ _ _) as [sourceRange|].
  - inv_bind Hrun.
    destruct (alloc_extends _ _ _ _ _ Hext Hrun_l) as (Hext' & Hc'%dom_cached & Hn' & Hl').
    destruct (cacheSet_extends _ _ _ _ _ Hext' Hd ltac:(by rewrite Hc') Hrun)
      as (? & -> & -> & ->).
    done.
  - injection Hrun as <-. done.
Qed.

Lemma mapM_extends {A} (f : nat -> M A) (l : list nat) :
  (forall x st r st', f x st = Ok (r, st') -> Spec.extends st st') ->
  forall st rs st', mapM f l st = Ok (rs, st') -> Spec.extends st st'.
Proof.
  intros Hf. induction l as [|x l IH]; intros st rs st' Hrun.
  - injection Hrun as <- <-. apply extends_refl.
  - cbn [mapM] in Hrun. inv_bind Hrun. inv_bind Hrun. injection Hrun as <- <-.
    eapply extends_trans; [by eapply Hf|by eapply IH].
Qed.

Lemma transformRelated_extends recur st d st2 st4 :
  (forall x st r st', recur x st = Ok (r, st') -> Spec.extends st st') ->
  Spec.extends st st2 ->
  d ∉ Spec.cached st -> d ∈ Spec.cached st2 ->
  transformRelated recur d st2 = Ok (tt, st4) ->
  Spec.extends st st4
  /\ d ∈ Spec.cached st4
  /\ (exists new, computed st4 = computed st2 ++ new)
  /\ (length (heap st2) <= length (heap st4))%nat.
Proof.
  intros Hrecur Hext Hd Hd2 Hrun. unfold transformRelated in Hrun.
  inv_bind Hrun. unfold load in Hrun_l.
  destruct (heap st2 !! d) as [o|]; [|done]. injection Hrun_l as <- <-.
  destruct (relatedInformation o) as [related|].
  - inv_bind Hrun.
    pose proof (mapM_extends _ _ Hrecur _ _ _ Hrun_l) as Hext3.
    pose proof (extends_trans _ _ _ Hext Hext3) as Hext'.
    assert (d ∈ Spec.cached st0) as Hd3 by (destruct Hext3; set_solver).
    destruct (storeRelated_extends _ _ _ _ _ Hext' Hd Hd3 Hrun)
      as (? & Hc%dom_cached & Hn & Hl).
    split; [done|]. split; [by rewrite Hc|].
    destruct Hext3 as [Hh3 _ _ _ (new & Hnew & _)].
    split; [exists new; by rewrite Hn|lia].
  - injection Hrun as <-. split; [done|]. split; [done|].
    split; [exists []; by rewrite app_nil_r|done].
Qed.

Lemma transformDiagnostic_hit fuel files d st v :
  transformedDiagnostics st !! d = Some v ->
  transformDiagnostic (S fuel) files d st = Ok (v, st).
Proof.
  intros Hslot. cbn [transformDiagnostic].
  unfold mbind, M_bind, bind, cacheHas, cacheGet.
  rewrite bool_decide_eq_true_2 by eauto. simpl. by rewrite Hslot.
Qed.

Lemma transformDiagnostic_miss fuel files d st r st' :
  d ∉ Spec.cached st ->
  transformDiagnostic (S fuel) files d st = Ok (r, st') ->
  exists st1 st2 st4,
    cacheSet d None st = Ok (tt, st1)
    /\ trace d st1 = Ok (tt, st2)
    /\ transformRelated (transformDiagnostic fuel files) d st2 = Ok (tt, st4)
    /\ transformOwnSpan files d st4 = Ok (tt, st')
    /\ r = default None (transformedDiagnostics st' !! d).
Proof.
  intros Hd Hrun. cbn [transformDiagnostic] in Hrun.
  inv_bind Hrun. injection Hrun_l as <- <-.
  rewrite bool_decide_eq_false_2 in Hrun by (by rewrite <- cached_has).
  inv_bind Hrun. simpl in Hrun_l.
  injection Hrun as <- <-.
  inv_bind Hrun_l. destruct a0. inv_bind Hrun_l. destruct a0.
  inv_bind Hrun_l. destruct a0, a.
  eauto 10.
Qed.

Lemma transformDiagnostic_extends files fuel :
  forall d st r st',
    transformDiagnostic fuel files d st = Ok (r, st') ->
    Spec.extends st st'.
Proof.
  induction fuel as [|fuel IH]; intros d st r st' Hrun; [done|].
  destruct (decide (d ∈ Spec.cached st)) as [Hhit|Hmiss].
  - apply cached_has in Hhit as [v Hv].
    rewrite (transformDiagnostic_hit _ _ _ _ _ Hv) in Hrun.
    injection Hrun as <- <-. apply extends_refl.
  - destruct (transformDiagnostic_miss _ _ _ _ _ _ Hmiss Hrun)
      as (st1 & st2 & st4 & H1 & H2 & H3 & H4 & _).
    destruct (reserve_extends _ _ _ _ Hmiss H1 H2) as (Hext2 & _ & _ & Hc2 & _).
    assert (d ∈ Spec.cached st2) as Hd2 by (rewrite Hc2; set_solver).
    destruct (transformRelated_extends _ _ _ _ _ IH Hext2 Hmiss Hd2 H3)
      as (Hext4 & Hd4 & _).
    by destruct (transformOwnSpan_extends _ _ _ _ _ Hext4 Hmiss Hd4 H4).
Qed.


Lemma transformDiagnostic_computed files fuel d st r st' :
  d ∉ Spec.cached st ->
  transformDiagnostic (S fuel) files d st = Ok (r, st') ->
  exists new, computed st' = computed st ++ d :: new.
Proof.
  intros Hmiss Hrun.
  destruct (transformDiagnostic_miss _ _ _ _ _ _ Hmiss Hrun)
    as (st1 & st2 & st4 & H1 & H2 & H3 & H4 & _).
  destruct (reserve_extends _ _ _ _ Hmiss H1 H2) as (Hext2 & _ & _ & Hcached2 & Hc2).
  assert (d ∈ Spec.cached st2) as Hd2 by (rewrite Hcached2; set_solver).
  destruct (transformRelated_extends _ _ _ _ _ (transformDiagnostic_extends files fuel)
              Hext2 Hmiss Hd2 H3) as (Hext4 & Hd4 & (new & Hc4) & _).
  destruct (transformOwnSpan_extends _ _ _ _ _ Hext4 Hmiss Hd4 H4) as (_ & _ & Hc5 & _).
  exists new. by rewrite Hc5, Hc4, Hc2, <- app_assoc.
Qed.




Section Termination.
Variables (files : FileRegistry) (refs : gset nat).
Local Open Scope nat_scope.




End Termination.












(** C4 as stated fails: the diagnostic passed in is changed in place.  The
    diagnostic whose only related information is itself is returned as its
    own translation (the same object, not a new one), and its
    [relatedInformation], [[0]] before the call, is the empty list after it.
    In the second store the related information of diagnostic 0 names
    diagnostic 1 before the call and nothing after it. *)
Lemma transformDiagnostic_changes_its_input :
  (exists st',
      transformDiagnostic 2 Spec.exampleFiles 0 (Spec.newState [Spec.selfRelated])
        = Ok (Some 0%nat, st')
      /\ relatedInformation <$> heap (Spec.newState [Spec.selfRelated]) !! 0%nat
           = Some (Some [0%nat])
      /\ relatedInformation <$> heap st' !! 0%nat = Some (Some []))
  /\ (exists st',
        transformDiagnostic 3 Spec.exampleFiles 0
          (Spec.newState [Spec.mappedDiagnostic; Spec.unmappedDiagnostic])
          = Ok (Some 2%nat, st')
        /\ heap st' !! 0%nat = Some (withRelated Spec.mappedDiagnostic (Some []))
        /\ heap st' !! 0%nat <> Some Spec.mappedDiagnostic).
Proof.
  split.
  - eexists. split; [by vm_compute|]. split; by vm_compute.
  - eexists. split; [by vm_compute|]. split; by vm_compute.
Qed.

(** * Further properties *)

(** ** Positions and ranges of the translator *)

Section Translator.
Context {Data : Type} (this : SourceMapWithDocuments Data).

Lemma findPositions_filter position filter fromDoc toDoc from to :
  findPositions this position filter fromDoc toDoc from to =
  base.filter (fun c => filter (data (snd c)) = true)
    (findPositions this position acceptAll fromDoc toDoc from to).
Proof.
  unfold findPositions.
  induction (findMatching _ _ _ _) as [|mapped rest IH]; [done|].
  cbn [omap list_omap]. unfold acceptAll at 1. cbn [negb].
  rewrite filter_cons. cbn [snd].
  destruct (filter (data (snd mapped))) eqn:Hf; cbn [negb].
  - rewrite decide_True by done. by f_equal.
  - rewrite decide_False by done. done.
Qed.

Lemma findPositions_elem position filter fromDoc toDoc from to pos mapping :
  (pos, mapping) ∈ findPositions this position filter fromDoc toDoc from to <->
  filter (data mapping) = true
  /\ mapping ∈ map this
  /\ exists offset,
       translateOffset (offsetAt fromDoc position) (offsetsOf from mapping)
         (offsetsOf to mapping) (lengths mapping) = Some offset
       /\ pos = positionAt toDoc offset.
Proof.
  unfold findPositions, findMatching. rewrite list_elem_of_omap. split.
  - intros ([offset m] & Hin & Hsome). simpl in Hsome.
    destruct (filter (data m)) eqn:Hf; [|done]. injection Hsome as <- <-.
    apply list_elem_of_omap in Hin as (m' & Hm' & Hmapped).
    destruct (translateOffset _ _ _ _) as [o|] eqn:Ho; [|done].
    injection Hmapped as <- <-. eauto 10.
  - intros (Hf & Hin & offset & Ho & ->).
    exists (offset, mapping). simpl. rewrite Hf. split; [|done].
    apply list_elem_of_omap. exists mapping. by rewrite Ho.
Qed.

End Translator.

(** X1. A capability filter only removes candidates: the candidates of a
    position under [filter] are the candidates under the default filter whose
    mapping data passes [filter], in the same order, in both directions; so
    the positions under a filter are a sublist of the unfiltered positions. *)
Theorem positions_filter_sublist {Data} (this : SourceMapWithDocuments Data)
    position filter :
  getSourcePositionsBase this position filter =
    base.filter (fun c => filter (data (snd c)) = true)
      (getSourcePositionsBase this position acceptAll)
  /\ getGeneratedPositionsBase this position filter =
       base.filter (fun c => filter (data (snd c)) = true)
         (getGeneratedPositionsBase this position acceptAll)
  /\ sublist (getSourcePositions this position filter)
       (getSourcePositions this position acceptAll)
  /\ sublist (getGeneratedPositions this position filter)
       (getGeneratedPositions this position acceptAll).
Proof.
  assert (getSourcePositionsBase this position filter =
            base.filter (fun c => filter (data (snd c)) = true)
              (getSourcePositionsBase this position acceptAll)) as Hs
    by apply findPositions_filter.
  assert (getGeneratedPositionsBase this position filter =
            base.filter (fun c => filter (data (snd c)) = true)
              (getGeneratedPositionsBase this position acceptAll)) as Hg
    by apply findPositions_filter.
  split; [done|]. split; [done|].
  unfold getSourcePositions, getGeneratedPositions. rewrite Hs, Hg.
  split; apply fmap_sublist, sublist_filter.
Qed.

Section Ranges.
Context {Data : Type} (this : SourceMapWithDocuments Data).

(** A candidate of a position is what its own mapping answers for that
    position. *)
Lemma candidate_matches api position filter pos mapping :
  (pos, mapping) ∈ callApi this api position filter ->
  callApi2 this
    (match api with
     | getSourcePositionsBase_ => matchSourcePosition_
     | getGeneratedPositionsBase_ => matchGeneratedPosition_
     end) position mapping = Some pos.
Proof.
  destruct api; cbn [callApi callApi2];
    unfold getSourcePositionsBase, getGeneratedPositionsBase,
           matchSourcePosition, matchGeneratedPosition;
    intros (_ & _ & offset & Ho & ->)%findPositions_elem;
    cbn [offsetsOf] in Ho; by rewrite Ho.
Qed.

(** What a mapping answers for a position is a candidate of that position,
    if the mapping is in the map and passes the filter. *)
Lemma match_is_candidate api position filter pos mapping :
  mapping ∈ map this -> filter (data mapping) = true ->
  callApi2 this
    (match api with
     | getSourcePositionsBase_ => matchSourcePosition_
     | getGeneratedPositionsBase_ => matchGeneratedPosition_
     end) position mapping = Some pos ->
  (pos, mapping) ∈ callApi this api position filter.
Proof.
  intros Hin Hf.
  destruct api; cbn [callApi callApi2];
    unfold getSourcePositionsBase, getGeneratedPositionsBase,
           matchSourcePosition, matchGeneratedPosition;
    destruct (translateOffset _ _ _ _) as [offset|] eqn:Ho; try done;
    intros [= <-]; apply findPositions_elem; eauto 10.
Qed.

Lemma twoPass_elem
    (resolve : Position -> (Data -> bool) -> list (Position * Mapping Data))
    (resolveIn : Position -> Mapping Data -> option Position) range filter r :
  r ∈ Spec.twoPass resolve resolveIn range filter <->
  (exists c e,
      c ∈ resolve (TextDocument.start range) filter
      /\ resolveIn (end_ range) (snd c) = Some e
      /\ r = {| TextDocument.start := fst c; end_ := e |})
  \/ (exists c m,
        c ∈ resolve (TextDocument.start range) filter
        /\ resolveIn (end_ range) (snd c) = None
        /\ m ∈ resolve (end_ range) filter
        /\ r = {| TextDocument.start := fst c; end_ := fst m |}).
Proof.
  unfold Spec.twoPass. rewrite elem_of_app. split.
  - intros [Hexact|Hfallback]; [left|right].
    + apply list_elem_of_omap in Hexact as (c & Hc & Hr).
      destruct (resolveIn _ _) as [e|] eqn:He; [|done].
      injection Hr as <-. eauto.
    + apply list_elem_of_bind in Hfallback as (c & Hr & Hc).
      apply list_elem_of_filter in Hc as [Hnone Hc].
      apply list_elem_of_fmap in Hr as (m & -> & Hm). eauto 10.
  - intros [(c & e & Hc & He & ->)|(c & m & Hc & Hnone & Hm & ->)]; [left|right].
    + apply list_elem_of_omap. exists c. by rewrite He.
    + apply list_elem_of_bind. exists c. split.
      * apply list_elem_of_fmap. eauto.
      * by apply list_elem_of_filter.
Qed.

End Ranges.

Section RangeLaws.
Context {Data : Type} (this : SourceMapWithDocuments Data).

#[local] Abbreviation matchOf := Laws.matchOf.

Lemma findRanges_sound api range filter r :
  r ∈ findRanges this range filter api (matchOf api) ->
  TextDocument.start r ∈ fst <$> callApi this api (TextDocument.start range) filter
  /\ end_ r ∈ fst <$> callApi this api (end_ range) filter.
Proof.
  rewrite findRanges_twoPass.
  intros [(c & e & Hc & He & ->)|(c & m & Hc & _ & Hm & ->)]%twoPass_elem; simpl.
  - split; [apply list_elem_of_fmap; eauto|].
    apply list_elem_of_fmap. exists (e, snd c). split; [done|].
    destruct c as [pos mapping]. simpl in *.
    assert (filter (data mapping) = true /\ mapping ∈ map this) as [Hf Hin].
    { destruct api; cbn [callApi] in Hc;
        apply findPositions_elem in Hc as (? & ? & _); done. }
    by apply match_is_candidate.
  - split; apply list_elem_of_fmap; eauto.
Qed.

Lemma head_omap_exists {A B} (f : A -> option B) (l : list A) :
  (exists c, c ∈ l /\ is_Some (f c)) ->
  exists c y, head (omap f l) = Some y /\ c ∈ l /\ f c = Some y.
Proof.
  induction l as [|a l IH]; intros (c & Hc & Hsome).
  - by apply elem_of_nil in Hc.
  - cbn [omap list_omap]. destruct (f a) as [y|] eqn:Hfa.
    + exists a, y. split; [done|]. split; [apply list_elem_of_here|done].
    + apply elem_of_cons in Hc as [->|Hc].
      * rewrite Hfa in Hsome. by destruct Hsome.
      * destruct IH as (c' & y & Hhead & Hc' & Hy); [eauto|].
        exists c', y. split; [done|]. split; [by apply list_elem_of_further|done].
Qed.

Lemma findRanges_exact_first api range filter :
  (exists c, c ∈ callApi this api (TextDocument.start range) filter
             /\ is_Some (callApi2 this (matchOf api) (end_ range) (snd c))) ->
  exists c e,
    head (findRanges this range filter api (matchOf api))
      = Some {| TextDocument.start := fst c; end_ := e |}
    /\ c ∈ callApi this api (TextDocument.start range) filter
    /\ callApi2 this (matchOf api) (end_ range) (snd c) = Some e.
Proof.
  intros (c & Hc & [e He]). rewrite findRanges_twoPass. unfold Spec.twoPass.
  destruct (head_omap_exists
              (fun c => (fun e => {| TextDocument.start := fst c; end_ := e |})
                          <$> callApi2 this (matchOf api) (end_ range) (snd c))
              (callApi this api (TextDocument.start range) filter))
    as (c' & r & Hhead & Hc' & Hr).
  { exists c. split; [done|]. rewrite He. simpl. eauto. }
  destruct (callApi2 this (matchOf api) (end_ range) (snd c')) as [e'|] eqn:He'; [|done].
  injection Hr as <-. exists c', e'. split; [|done].
  destruct (omap _ _); [done|]. done.
Qed.

Lemma findRanges_collapsed api position filter :
  findRanges this {| TextDocument.start := position; end_ := position |} filter
    api (matchOf api) =
  (fun c => {| TextDocument.start := fst c; end_ := fst c |})
    <$> callApi this api position filter.
Proof.
  rewrite findRanges_twoPass. unfold Spec.twoPass. cbn [TextDocument.start end_].
  assert (Forall (fun c => callApi2 this (matchOf api) position (snd c) = Some (fst c))
            (callApi this api position filter)) as Hall.
  { apply Forall_forall. intros [pos mapping] Hc. by apply candidate_matches in Hc. }
  assert (forall l : list (Position * Mapping Data),
            Forall (fun c => callApi2 this (matchOf api) position (snd c) = Some (fst c)) l ->
            omap (fun c => (fun e => {| TextDocument.start := fst c; end_ := e |})
                             <$> callApi2 this (matchOf api) position (snd c)) l
              = (fun c => {| TextDocument.start := fst c; end_ := fst c |}) <$> l
            /\ base.filter
                 (fun c => callApi2 this (matchOf api) position (snd c) = None) l = [])
    as Hexact.
  { induction 1 as [|c l Hc _ [IHexact IHfailed]]; [done|].
    cbn [omap list_omap]. rewrite filter_cons, Hc. cbn [fmap option_fmap option_map].
    rewrite decide_False by done. rewrite fmap_cons. split; [by f_equal|done]. }
  destruct (Hexact _ Hall) as [-> ->]. by rewrite app_nil_r.
Qed.

End RangeLaws.

(** X2. Every range the translator yields pairs a candidate of the start
    with a candidate of the end: its start is one of the filtered positions of
    [range.start] and its end is one of the filtered positions of [range.end],
    in both directions, for the exact pairs and the best-effort pairs alike. *)
Theorem ranges_pair_candidates {Data} (this : SourceMapWithDocuments Data)
    range filter r :
  (r ∈ getSourceRanges this range filter ->
   TextDocument.start r ∈ getSourcePositions this (TextDocument.start range) filter
   /\ end_ r ∈ getSourcePositions this (end_ range) filter)
  /\ (r ∈ getGeneratedRanges this range filter ->
      TextDocument.start r ∈ getGeneratedPositions this (TextDocument.start range) filter
      /\ end_ r ∈ getGeneratedPositions this (end_ range) filter).
Proof.
  split; intros Hr.
  - exact (findRanges_sound this getSourcePositionsBase_ range filter r Hr).
  - exact (findRanges_sound this getGeneratedPositionsBase_ range filter r Hr).
Qed.

Lemma ranges_pair_candidates_witness :
  let range := {| TextDocument.start := Spec.at_ 1; end_ := Spec.at_ 6 |} in
  let r := {| TextDocument.start := Spec.at_ 1; end_ := Spec.at_ 4 |} in
  r ∈ getGeneratedRanges Spec.boundaryExample range acceptAll
  /\ TextDocument.start r ∈ getGeneratedPositions Spec.boundaryExample (Spec.at_ 1) acceptAll
  /\ end_ r ∈ getGeneratedPositions Spec.boundaryExample (Spec.at_ 6) acceptAll.
Proof.
  intros range r.
  assert (r ∈ getGeneratedRanges Spec.boundaryExample range acceptAll) as Hr
    by apply list_elem_of_here.
  split; [exact Hr|].
  exact (proj2 (ranges_pair_candidates Spec.boundaryExample range acceptAll r) Hr).
Defined.

(** X3. The single-result queries prefer an exact pair: if the end of the
    range resolves through the mapping of some candidate of the start, then
    [getSourceRange] ([getGeneratedRange]) answers a candidate of the start
    paired with the end resolved through that candidate's own mapping, never a
    best-effort pair. *)
Theorem range_prefers_exact_pair {Data} (this : SourceMapWithDocuments Data)
    range filter :
  ((exists c, c ∈ getSourcePositionsBase this (TextDocument.start range) filter
              /\ is_Some (matchSourcePosition this (end_ range) (snd c))) ->
   exists c e,
     getSourceRange this range filter
       = Some {| TextDocument.start := fst c; end_ := e |}
     /\ c ∈ getSourcePositionsBase this (TextDocument.start range) filter
     /\ matchSourcePosition this (end_ range) (snd c) = Some e)
  /\ ((exists c, c ∈ getGeneratedPositionsBase this (TextDocument.start range) filter
                 /\ is_Some (matchGeneratedPosition this (end_ range) (snd c))) ->
      exists c e,
        getGeneratedRange this range filter
          = Some {| TextDocument.start := fst c; end_ := e |}
        /\ c ∈ getGeneratedPositionsBase this (TextDocument.start range) filter
        /\ matchGeneratedPosition this (end_ range) (snd c) = Some e).
Proof.
  split; intros Hsome.
  - exact (findRanges_exact_first this getSourcePositionsBase_ range filter Hsome).
  - exact (findRanges_exact_first this getGeneratedPositionsBase_ range filter Hsome).
Qed.

Lemma range_prefers_exact_pair_witness :
  getGeneratedRange Spec.linearExample
    {| TextDocument.start := Spec.at_ 0; end_ := Spec.at_ 3 |} acceptAll
  = Some {| TextDocument.start := Spec.at_ 1; end_ := Spec.at_ 4 |}.
Proof.
  destruct (proj2 (range_prefers_exact_pair Spec.linearExample
                     {| TextDocument.start := Spec.at_ 0; end_ := Spec.at_ 3 |}
                     acceptAll))
    as (c & e & Hrange & Hc & He).
  { eexists. split; [apply list_elem_of_here|]. by eexists. }
  rewrite Hrange. f_equal.
  apply list_elem_of_In in Hc. simpl in Hc. destruct Hc as [<-|[]].
  vm_compute in He. injection He as <-. reflexivity.
Defined.

(** X4. An empty range stays empty: for a range whose start and end are the
    same position the translator yields one range per candidate of that
    position, with start and end both at the candidate, and no best-effort
    pair. *)
Theorem collapsed_range_stays_collapsed {Data} (this : SourceMapWithDocuments Data)
    position filter :
  getSourceRanges this {| TextDocument.start := position; end_ := position |} filter
    = (fun pos => {| TextDocument.start := pos; end_ := pos |})
        <$> getSourcePositions this position filter
  /\ getGeneratedRanges this {| TextDocument.start := position; end_ := position |} filter
     = (fun pos => {| TextDocument.start := pos; end_ := pos |})
         <$> getGeneratedPositions this position filter.
Proof.
  unfold getSourcePositions, getGeneratedPositions. rewrite <- !list_fmap_compose.
  split.
  - exact (findRanges_collapsed this getSourcePositionsBase_ position filter).
  - exact (findRanges_collapsed this getGeneratedPositionsBase_ position filter).
Qed.

(** ** The offsets of [transformRange] *)

Section TransformRange.
Variable filter : CodeInformation -> bool.

Lemma transformRange_end_None sourceStart sourceEnds :
  transformRange_end filter sourceStart sourceEnds = None <->
  forall b, b ∈ sourceEnds -> filter (data (snd b)) = true -> fst b < fst sourceStart.
Proof.
  induction sourceEnds as [|sourceEnd rest IH]; cbn [transformRange_end].
  - split; [|done]. by intros _ b ?%elem_of_nil.
  - destruct (bool_decide (fst sourceEnd >= fst sourceStart)) eqn:Hge;
      destruct (filter (data (snd sourceEnd))) eqn:Hf; cbn [andb].
    + split; [done|]. intros Hall.
      apply bool_decide_eq_true in Hge.
      pose proof (Hall sourceEnd (list_elem_of_here _ _) Hf). lia.
    + rewrite IH. split.
      * intros Hall b [->|Hb]%elem_of_cons Hfb; [congruence|by apply Hall].
      * intros Hall b Hb. apply Hall. by apply list_elem_of_further.
    + rewrite IH. apply bool_decide_eq_false in Hge. split.
      * intros Hall b [->|Hb]%elem_of_cons Hfb; [lia|by apply Hall].
      * intros Hall b Hb. apply Hall. by apply list_elem_of_further.
    + rewrite IH. split.
      * intros Hall b [->|Hb]%elem_of_cons Hfb; [congruence|by apply Hall].
      * intros Hall b Hb. apply Hall. by apply list_elem_of_further.
Qed.

Lemma transformRange_end_Some sourceStart sourceEnds x y :
  transformRange_end filter sourceStart sourceEnds = Some (x, y) ->
  x = fst sourceStart
  /\ exists b, b ∈ sourceEnds /\ filter (data (snd b)) = true /\ y = fst b /\ x <= y.
Proof.
  induction sourceEnds as [|sourceEnd rest IH]; cbn [transformRange_end]; [done|].
  destruct (bool_decide (fst sourceEnd >= fst sourceStart)) eqn:Hge;
    destruct (filter (data (snd sourceEnd))) eqn:Hf; cbn [andb].
  - intros [= <- <-]. split; [done|]. exists sourceEnd.
    apply bool_decide_eq_true in Hge.
    split; [apply list_elem_of_here|]. split; [done|]. split; [done|lia].
  - intros (-> & b & Hb & ?)%IH. split; [done|]. exists b.
    split; [by apply list_elem_of_further|done].
  - intros (-> & b & Hb & ?)%IH. split; [done|]. exists b.
    split; [by apply list_elem_of_further|done].
  - intros (-> & b & Hb & ?)%IH. split; [done|]. exists b.
    split; [by apply list_elem_of_further|done].
Qed.

Lemma transformRange_start_None sourceStarts sourceEnds :
  transformRange_start filter sourceStarts sourceEnds = None <->
  forall a b, a ∈ sourceStarts -> b ∈ sourceEnds ->
              filter (data (snd a)) = true -> filter (data (snd b)) = true ->
              fst b < fst a.
Proof.
  induction sourceStarts as [|sourceStart rest IH]; cbn [transformRange_start].
  - split; [|done]. by intros _ a b ?%elem_of_nil.
  - destruct (filter (data (snd sourceStart))) eqn:Hf.
    + destruct (transformRange_end filter sourceStart sourceEnds) as [found|] eqn:Hend.
      * split; [done|]. intros Hall.
        assert (transformRange_end filter sourceStart sourceEnds = None) as Hnone.
        { apply transformRange_end_None. intros b Hb Hfb.
          by apply (Hall sourceStart b (list_elem_of_here _ _)). }
        congruence.
      * rewrite IH.
        pose proof (proj1 (transformRange_end_None _ _) Hend) as Hend'. split.
        -- intros Hall a b [->|Ha]%elem_of_cons Hb Hfa Hfb; [by apply Hend'|by apply Hall].
        -- intros Hall a b Ha. apply Hall. by apply list_elem_of_further.
    + rewrite IH. split.
      * intros Hall a b [->|Ha]%elem_of_cons Hb Hfa Hfb; [congruence|by apply Hall].
      * intros Hall a b Ha. apply Hall. by apply list_elem_of_further.
Qed.

Lemma transformRange_start_Some sourceStarts sourceEnds x y :
  transformRange_start filter sourceStarts sourceEnds = Some (x, y) ->
  exists a b, a ∈ sourceStarts /\ b ∈ sourceEnds
              /\ filter (data (snd a)) = true /\ filter (data (snd b)) = true
              /\ x = fst a /\ y = fst b /\ x <= y.
Proof.
  induction sourceStarts as [|sourceStart rest IH]; cbn [transformRange_start]; [done|].
  destruct (filter (data (snd sourceStart))) eqn:Hf.
  - destruct (transformRange_end filter sourceStart sourceEnds) as [found|] eqn:Hend.
    + intros [= ->]. apply transformRange_end_Some in Hend as (-> & b & Hb & Hfb & -> & Hle).
      exists sourceStart, b. split; [apply list_elem_of_here|done].
    + intros (a & b & Ha & ?)%IH. exists a, b.
      split; [by apply list_elem_of_further|done].
  - intros (a & b & Ha & ?)%IH. exists a, b.
    split; [by apply list_elem_of_further|done].
Qed.

End TransformRange.

(** X5. [transformRange] is sound and complete for its search: a result
    [(s, e)] consists of a source offset of the shifted start and a source
    offset of the shifted end whose mappings both pass the filter, with
    [s <= e]; and there is no result exactly when every filtered source offset
    of the end lies before every filtered source offset of the start (in
    particular when one of the two has none). *)
Theorem transformRange_sound_complete sourceFile map start end_ filter :
  let sourceStarts := getSourceOffsets map (start - getLength (sf_snapshot sourceFile)) in
  let sourceEnds := getSourceOffsets map (end_ - getLength (sf_snapshot sourceFile)) in
  (forall s e,
      transformRange sourceFile map start end_ filter = Some (s, e) ->
      exists a b, a ∈ sourceStarts /\ b ∈ sourceEnds
                  /\ filter (data (snd a)) = true /\ filter (data (snd b)) = true
                  /\ s = fst a /\ e = fst b /\ s <= e)
  /\ (transformRange sourceFile map start end_ filter = None <->
      forall a b, a ∈ sourceStarts -> b ∈ sourceEnds ->
                  filter (data (snd a)) = true -> filter (data (snd b)) = true ->
                  fst b < fst a).
Proof.
  intros sourceStarts sourceEnds. unfold transformRange. split.
  - intros s e. apply transformRange_start_Some.
  - apply transformRange_start_None.
Qed.

Lemma transformRange_sound_complete_witness :
  transformRange Spec.exampleSourceFile Spec.exampleMap 13 11 acceptAll = None
  /\ exists a b,
       a ∈ getSourceOffsets Spec.exampleMap 1 /\ b ∈ getSourceOffsets Spec.exampleMap 3
       /\ (1, 7) = (fst a, fst b).
Proof.
  destruct (transformRange_sound_complete Spec.exampleSourceFile Spec.exampleMap
              11 13 acceptAll) as [Hsound _].
  destruct (transformRange_sound_complete Spec.exampleSourceFile Spec.exampleMap
              13 11 acceptAll) as [_ Hcomplete].
  split.
  - apply Hcomplete. intros a b Ha Hb _ _.
    apply list_elem_of_In in Ha, Hb. simpl in Ha, Hb.
    destruct Ha as [<-|[<-|[]]]; destruct Hb as [<-|[]]; simpl; lia.
  - destruct (Hsound 1 7 eq_refl) as (a & b & Ha & Hb & _ & _ & Hs & He & _).
    exists a, b. split; [exact Ha|]. split; [exact Hb|]. by rewrite Hs, He.
Defined.

(** ** Spans of composite results *)

Lemma transformSpan_unregistered files fileName textSpan filter :
  fileName <> EmptyString ->
  getVirtualFileAndMap files fileName = None ->
  transformSpan files (Some fileName) textSpan filter =
    (fun textSpan => {| fs_fileName := fileName; fs_textSpan := textSpan |}) <$> textSpan.
Proof.
  intros Hne Hnone. unfold transformSpan. rewrite (falsy_nonempty _ Hne).
  destruct textSpan; [|done]. by rewrite Hnone.
Qed.

Lemma transformSpan_registered_ordered files fileName textSpan filter result :
  is_Some (getVirtualFileAndMap files fileName) ->
  transformSpan files (Some fileName) textSpan filter = Some result ->
  Laws.ordered (fs_textSpan result).
Proof.
  intros [[[virtualFile sourceFile] map] Hreg]. unfold transformSpan, Laws.ordered.
  destruct (falsy (Some fileName)); [done|].
  destruct textSpan as [textSpan|]; [|done]. rewrite Hreg.
  destruct (transformRange _ _ _ _ _) as [[s e]|] eqn:Hrange; [|done].
  intros [= <-]. simpl. apply transformRange_ordered in Hrange. lia.
Qed.

Lemma transformSpan_empty_name files textSpan filter :
  transformSpan files (Some EmptyString) textSpan filter = None.
Proof. done. Qed.

(** X6. [transformCallHierarchyItem] never drops the item and keeps its name
    and file.  An item of a non-empty file name that is not a registered
    generated document is returned as it is; for a registered generated
    document both spans of the result have a length of at least 0, a span
    that does not map being replaced by the empty span at offset 0; and with
    the empty file name both spans are replaced by that empty span. *)
Theorem transformCallHierarchyItem_degrades files item filter :
  let result := transformCallHierarchyItem files item filter in
  chi_name result = chi_name item
  /\ chi_file result = chi_file item
  /\ (chi_file item <> EmptyString ->
      getVirtualFileAndMap files (chi_file item) = None ->
      result = item)
  /\ (is_Some (getVirtualFileAndMap files (chi_file item)) ->
      Laws.ordered (chi_span result) /\ Laws.ordered (chi_selectionSpan result))
  /\ (transformSpan files (Some (chi_file item)) (Some (chi_span item)) filter = None ->
      chi_span result = zeroSpan)
  /\ (transformSpan files (Some (chi_file item)) (Some (chi_selectionSpan item)) filter
        = None ->
      chi_selectionSpan result = zeroSpan)
  /\ (chi_file item = EmptyString ->
      chi_span result = zeroSpan /\ chi_selectionSpan result = zeroSpan).
Proof.
  intros result. subst result. unfold transformCallHierarchyItem.
  split; [done|]. split; [done|]. split; [|split; [|split; [|split]]].
  - intros Hne Hnone. rewrite !(transformSpan_unregistered _ _ _ _ Hne Hnone).
    by destruct item.
  - intros Hreg. cbn [chi_span chi_selectionSpan].
    split.
    + destruct (transformSpan files _ (Some (chi_span item)) filter) as [r|] eqn:Hr;
        [|by compute].
      by apply (transformSpan_registered_ordered _ _ _ _ _ Hreg Hr).
    + destruct (transformSpan files _ (Some (chi_selectionSpan item)) filter)
        as [r|] eqn:Hr; [|by compute].
      by apply (transformSpan_registered_ordered _ _ _ _ _ Hreg Hr).
  - by intros ->.
  - by intros ->.
  - intros ->. by rewrite !transformSpan_empty_name.
Qed.

Lemma transformCallHierarchyItem_degrades_witness :
  let item := {| chi_name := "run"; chi_file := "/a.vue";
                 chi_span := Spec.span 10 4; chi_selectionSpan := Spec.span 15 1 |} in
  transformCallHierarchyItem Spec.exampleFiles item acceptAll =
    {| chi_name := "run"; chi_file := "/a.vue";
       chi_span := Spec.span 0 8; chi_selectionSpan := Spec.span 0 0 |}
  /\ Laws.ordered (chi_span (transformCallHierarchyItem Spec.exampleFiles item acceptAll))
  /\ chi_selectionSpan (transformCallHierarchyItem Spec.exampleFiles item acceptAll)
       = zeroSpan
  /\ transformCallHierarchyItem Spec.exampleFiles
       {| chi_name := "run"; chi_file := "/b.ts";
          chi_span := Spec.span 10 4; chi_selectionSpan := Spec.span 15 1 |} acceptAll
     = {| chi_name := "run"; chi_file := "/b.ts";
          chi_span := Spec.span 10 4; chi_selectionSpan := Spec.span 15 1 |}.
Proof.
  intros item. split; [by vm_compute|].
  destruct (transformCallHierarchyItem_degrades Spec.exampleFiles item acceptAll)
    as (_ & _ & _ & Hordered & _ & Hselection & _).
  split; [exact (proj1 (Hordered (ex_intro _ _ eq_refl)))|].
  split; [exact (Hselection eq_refl)|].
  exact (proj1 (proj2 (proj2 (transformCallHierarchyItem_degrades Spec.exampleFiles
           {| chi_name := "run"; chi_file := "/b.ts";
              chi_span := Spec.span 10 4; chi_selectionSpan := Spec.span 15 1 |}
           acceptAll))) ltac:(done) eq_refl).
Defined.

(** X7. On a span of a real source document [transformDocumentSpan] changes
    no offset, with or without fallback: for a non-empty file name that is
    not a registered generated document, and an original file name that is
    absent or likewise non-empty and not registered, the primary and the
    context span are returned as they are.  The three original fields pass
    through only together: the original file name is kept only if there is an
    original text span, and the original text and context spans only if there
    is an original file name; so a document span that has the original file
    name together with the original text span, or none of the three original
    fields, is returned unchanged. *)
Theorem transformDocumentSpan_source_document files documentSpan filter shouldFallback :
  ds_fileName documentSpan <> EmptyString ->
  getVirtualFileAndMap files (ds_fileName documentSpan) = None ->
  (forall name, originalFileName documentSpan = Some name ->
                name <> EmptyString /\ getVirtualFileAndMap files name = None) ->
  transformDocumentSpan files documentSpan filter shouldFallback =
    Some {| ds_fileName := ds_fileName documentSpan;
            ds_textSpan := ds_textSpan documentSpan;
            contextSpan := contextSpan documentSpan;
            originalFileName :=
              originalTextSpan documentSpan ≫= fun _ => originalFileName documentSpan;
            originalTextSpan :=
              originalFileName documentSpan ≫= fun _ => originalTextSpan documentSpan;
            originalContextSpan :=
              originalFileName documentSpan ≫= fun _ => originalContextSpan documentSpan |}
  /\ (is_Some (originalFileName documentSpan) /\ is_Some (originalTextSpan documentSpan)
      \/ originalFileName documentSpan = None
         /\ originalTextSpan documentSpan = None
         /\ originalContextSpan documentSpan = None ->
      transformDocumentSpan files documentSpan filter shouldFallback = Some documentSpan).
Proof.
  intros Hne Hnone Horiginal.
  assert (transformDocumentSpan files documentSpan filter shouldFallback =
    Some {| ds_fileName := ds_fileName documentSpan;
            ds_textSpan := ds_textSpan documentSpan;
            contextSpan := contextSpan documentSpan;
            originalFileName :=
              originalTextSpan documentSpan ≫= fun _ => originalFileName documentSpan;
            originalTextSpan :=
              originalFileName documentSpan ≫= fun _ => originalTextSpan documentSpan;
            originalContextSpan :=
              originalFileName documentSpan ≫= fun _ => originalContextSpan documentSpan |})
    as Hresult.
  { unfold transformDocumentSpan.
    rewrite !(transformSpan_unregistered _ _ _ _ Hne Hnone). cbn [fmap option_fmap option_map notEmpty negb andb].
    destruct (originalFileName documentSpan) as [name|] eqn:Hname.
    - destruct (Horiginal name eq_refl) as [Hne' Hnone'].
      rewrite !(transformSpan_unregistered _ _ _ _ Hne' Hnone').
      destruct (contextSpan documentSpan), (originalTextSpan documentSpan),
        (originalContextSpan documentSpan); done.
    - destruct (contextSpan documentSpan), (originalTextSpan documentSpan),
        (originalContextSpan documentSpan); done. }
  split; [exact Hresult|].
  rewrite Hresult. destruct documentSpan as [name primary context oname otext ocontext]. simpl.
  intros [[[? ->] [? ->]]|(-> & -> & ->)]; done.
Qed.

Lemma transformDocumentSpan_source_document_witness :
  let documentSpan :=
    {| ds_fileName := "/b.ts"; ds_textSpan := Spec.span 3 4;
       contextSpan := Some (Spec.span 0 9);
       originalFileName := Some "/c.ts";
       originalTextSpan := None;
       originalContextSpan := Some (Spec.span 1 1) |} in
  transformDocumentSpan Spec.exampleFiles documentSpan acceptAll false =
    Some {| ds_fileName := "/b.ts"; ds_textSpan := Spec.span 3 4;
            contextSpan := Some (Spec.span 0 9);
            originalFileName := None;
            originalTextSpan := None;
            originalContextSpan := Some (Spec.span 1 1) |}.
Proof.
  intros documentSpan.
  refine (proj1 (transformDocumentSpan_source_document Spec.exampleFiles documentSpan
                   acceptAll false _ _ _)).
  - done.
  - reflexivity.
  - intros name [= <-]. split; [done|reflexivity].
Defined.

(** X8. The fallback of [transformDocumentSpan] only adds results: whatever
    is returned without fallback is returned unchanged with it; with the
    fallback a span of a registered generated document is never dropped; and
    any result keeps the file name of the input, its primary span having a
    length of at least 0 when the file is a registered generated document. *)
Theorem transformDocumentSpan_fallback_only_adds files documentSpan filter :
  (forall result,
      transformDocumentSpan files documentSpan filter false = Some result ->
      transformDocumentSpan files documentSpan filter true = Some result)
  /\ (is_Some (getVirtualFileAndMap files (ds_fileName documentSpan)) ->
      is_Some (transformDocumentSpan files documentSpan filter true))
  /\ (forall shouldFallback result,
        transformDocumentSpan files documentSpan filter shouldFallback = Some result ->
        ds_fileName result = ds_fileName documentSpan
        /\ (is_Some (getVirtualFileAndMap files (ds_fileName documentSpan)) ->
            Laws.ordered (ds_textSpan result))).
Proof.
  unfold transformDocumentSpan.
  destruct (transformSpan files (Some (ds_fileName documentSpan))
              (Some (ds_textSpan documentSpan)) filter) as [primary|] eqn:Hprimary;
    cbn [notEmpty negb andb].
  - split; [done|]. split; [by eauto|].
    intros shouldFallback result Hresult.
    assert (Some result = Some
      {| ds_fileName := fs_fileName primary; ds_textSpan := fs_textSpan primary;
         contextSpan := fs_textSpan <$> transformSpan files
                          (Some (ds_fileName documentSpan)) (contextSpan documentSpan) filter;
         originalFileName := fs_fileName <$> transformSpan files
                          (originalFileName documentSpan) (originalTextSpan documentSpan) filter;
         originalTextSpan := fs_textSpan <$> transformSpan files
                          (originalFileName documentSpan) (originalTextSpan documentSpan) filter;
         originalContextSpan := fs_textSpan <$> transformSpan files
                          (originalFileName documentSpan) (originalContextSpan documentSpan)
                          filter |}) as [= ->]
      by (rewrite <- Hresult; by destruct shouldFallback).
    cbn [ds_fileName ds_textSpan]. split.
    + apply transformSpan_fileName in Hprimary. congruence.
    + intros Hreg. by eapply transformSpan_registered_ordered.
  - split; [done|]. split.
    + intros [registered ->]. by eauto.
    + intros [|] result; [|done].
      destruct (getVirtualFileAndMap files (ds_fileName documentSpan)); [|done].
      intros [= <-]. cbn [ds_fileName ds_textSpan]. split; [done|].
      intros _. by compute.
Qed.

Lemma transformDocumentSpan_fallback_only_adds_witness :
  let documentSpan :=
    {| ds_fileName := "/a.vue"; ds_textSpan := Spec.span 11 2;
       contextSpan := None; originalFileName := None;
       originalTextSpan := None; originalContextSpan := None |} in
  transformDocumentSpan Spec.exampleFiles documentSpan acceptAll true =
    Some {| ds_fileName := "/a.vue"; ds_textSpan := Spec.span 1 6;
            contextSpan := None; originalFileName := None;
            originalTextSpan := None; originalContextSpan := None |}.
Proof.
  intros documentSpan.
  exact (proj1 (transformDocumentSpan_fallback_only_adds Spec.exampleFiles documentSpan
                  acceptAll) _ eq_refl).
Defined.

(** X9. [transformFileTextChanges] always answers a batch, for the same file
    name and with at most as many edits as the input; for a registered
    generated document every edit of the output has a span of length at
    least 0. *)
Theorem transformFileTextChanges_ordered files changes filter :
  exists output,
    transformFileTextChanges files changes filter = Some output
    /\ ftc_fileName output = ftc_fileName changes
    /\ (length (textChanges output) <= length (textChanges changes))%nat
    /\ (is_Some (getVirtualFileAndMap files (ftc_fileName changes)) ->
        Forall (fun c => Laws.ordered (tc_span c)) (textChanges output)).
Proof.
  unfold transformFileTextChanges.
  destruct (getVirtualFileAndMap files (ftc_fileName changes))
    as [[[virtualCode source] map]|] eqn:Hreg.
  - eexists. split; [reflexivity|]. cbn [ftc_fileName textChanges].
    pose proof (filterNotEmpty_transformTextChange files (ftc_fileName changes) filter
                  (textChanges changes)) as Hall.
    split; [done|]. split.
    + rewrite <- (Forall2_length _ _ _ Hall). apply length_filter.
    + intros _. clear -Hall Hreg. induction Hall as [|input output ? ? [Hspan _] _ IH];
        constructor; [|done].
      eapply (transformSpan_registered_ordered files (ftc_fileName changes)
                (Some (tc_span input)) filter
                {| fs_fileName := ftc_fileName changes; fs_textSpan := tc_span output |});
        [by rewrite Hreg|done].
  - exists changes. split; [done|]. split; [done|]. split; [done|].
    by intros [? ?].
Qed.

Lemma transformFileTextChanges_ordered_witness :
  exists output,
    transformFileTextChanges Spec.exampleFiles
      {| ftc_fileName := "/a.vue";
         textChanges := [ {| tc_span := Spec.span 12 2; newText := "z" |} ];
         isNewFile := None |} acceptAll = Some output
    /\ Forall (fun c => Laws.ordered (tc_span c)) (textChanges output).
Proof.
  destruct (transformFileTextChanges_ordered Spec.exampleFiles
              {| ftc_fileName := "/a.vue";
                 textChanges := [ {| tc_span := Spec.span 12 2; newText := "z" |} ];
                 isNewFile := None |} acceptAll)
    as (output & Hout & _ & _ & Hordered).
  exists output. split; [exact Hout|]. apply Hordered. by eexists.
Defined.

(** ** More on the document store *)

Lemma get_returns uri languageId snapshot st :
  exists doc,
    snd (get uri languageId snapshot st) = Some doc
    /\ Spec.lookupDoc (fst (get uri languageId snapshot st)) (snapshot_id snapshot) uri
       = Some doc.
Proof.
  destruct (Spec.lookupDoc st (snapshot_id snapshot) uri) as [doc|] eqn:Hlookup.
  - rewrite (get_hit _ languageId _ _ _ Hlookup). eauto.
  - destruct (get_miss uri languageId snapshot st Hlookup) as (st' & -> & _ & _ & Hst').
    eexists. split; [done|]. simpl. rewrite Hst'. by rewrite decide_True.
Qed.

(** X10. A repeated [get] is free: after [get(uri, languageId, snapshot)],
    from any state of the store, a second [get] for the same URI and the same
    snapshot object returns the same document and leaves the store as it is,
    whatever language id it is given. *)
Theorem get_again_changes_nothing uri languageId languageId' snapshot snapshot' st :
  snapshot_id snapshot' = snapshot_id snapshot ->
  get uri languageId' snapshot' (fst (get uri languageId snapshot st)) =
    (fst (get uri languageId snapshot st), snd (get uri languageId snapshot st))
  /\ is_Some (snd (get uri languageId snapshot st)).
Proof.
  intros Hid.
  destruct (get_returns uri languageId snapshot st) as (doc & Hdoc & Hlookup).
  rewrite Hdoc. split; [|eauto].
  apply get_hit. by rewrite Hid.
Qed.

Lemma get_again_changes_nothing_witness :
  let snapshot := {| snapshot_id := 7; snapshot_text := "let x" |} in
  let st := fst (get "/a.ts" "typescript" snapshot emptyProvider) in
  get "/a.ts" "javascript" snapshot st = (st, Some 0%nat).
Proof.
  intros snapshot st.
  exact (proj1 (get_again_changes_nothing "/a.ts" "typescript" "javascript"
                  snapshot snapshot emptyProvider eq_refl)).
Defined.

Lemma get_miss_version uri languageId snapshot st :
  Spec.lookupDoc st (snapshot_id snapshot) uri = None ->
  version (fst (get uri languageId snapshot st)) = S (version st).
Proof.
  unfold Spec.lookupDoc, get. intros Hmiss.
  destruct (snapshot2Doc st !! snapshot_id snapshot) as [map|] eqn:Hmap; simpl in Hmiss.
  - rewrite (bool_decide_eq_true_2 (is_Some (Some map))) by eauto.
    rewrite Hmap. simpl.
    by rewrite (bool_decide_eq_false_2 (is_Some (map !! uri)))
      by (rewrite Hmiss; by intros [? ?]).
  - rewrite (bool_decide_eq_false_2 (is_Some None)) by (by intros [? ?]). simpl.
    rewrite lookup_insert_eq. simpl.
    by rewrite (bool_decide_eq_false_2 (is_Some (∅ !! uri)))
      by (rewrite lookup_empty; by intros [? ?]).
Qed.

Lemma get_versions uri languageId snapshot st :
  Laws.versionsOk st ->
  Laws.versionsOk (fst (get uri languageId snapshot st))
  /\ documents st `prefix_of` documents (fst (get uri languageId snapshot st))
  /\ (length (documents (fst (get uri languageId snapshot st)))
      - length (documents st) =
      length (getTextCalls (fst (get uri languageId snapshot st)))
      - length (getTextCalls st))%nat
  /\ (length (getTextCalls st) <=
      length (getTextCalls (fst (get uri languageId snapshot st))))%nat.
Proof.
  intros [Hversion Hdocs].
  destruct (Spec.lookupDoc st (snapshot_id snapshot) uri) as [doc|] eqn:Hlookup.
  - rewrite (get_hit _ languageId _ _ _ Hlookup). simpl.
    split; [done|]. split; [done|]. lia.
  - pose proof (get_miss uri languageId snapshot st Hlookup) as (st' & Hget & Hd & Hlog & _).
    pose proof (get_miss_version uri languageId snapshot st Hlookup) as Hv.
    rewrite Hget in Hv. simpl in Hv.
    rewrite Hget. simpl. unfold Laws.versionsOk. rewrite Hv, Hd, Hlog, !length_app. simpl.
    split; [|split; [by eexists|lia]].
    split; [lia|].
    intros d doc [Hold|[Hle Hnew]]%lookup_app_Some.
    + by apply Hdocs.
    + destruct (d - length (documents st))%nat eqn:Hdiff; [|done].
      injection Hnew as <-. simpl. lia.
Qed.

Lemma getAll_app calls more st :
  getAll (calls ++ more) st =
    (fst (getAll more (fst (getAll calls st))),
     snd (getAll calls st) ++ snd (getAll more (fst (getAll calls st)))).
Proof.
  revert st. induction calls as [|[[uri languageId] snapshot] calls IH]; intros st.
  - simpl. by destruct (getAll more st).
  - cbn [getAll app]. destruct (get uri languageId snapshot st) as [st1 doc].
    rewrite IH. destruct (getAll calls st1) as [st2 docs]. done.
Qed.

Lemma getAll_cons uri languageId snapshot calls st :
  getAll ((uri, languageId, snapshot) :: calls) st =
    (fst (getAll calls (fst (get uri languageId snapshot st))),
     snd (get uri languageId snapshot st)
       :: snd (getAll calls (fst (get uri languageId snapshot st)))).
Proof.
  cbn [getAll]. destruct (get uri languageId snapshot st) as [st1 doc]. simpl.
  by destruct (getAll calls st1).
Qed.

Lemma getAll_versions calls st :
  Laws.versionsOk st ->
  Laws.versionsOk (fst (getAll calls st))
  /\ documents st `prefix_of` documents (fst (getAll calls st))
  /\ (length (documents (fst (getAll calls st))) - length (documents st) =
      length (getTextCalls (fst (getAll calls st))) - length (getTextCalls st))%nat
  /\ (length (getTextCalls st) <= length (getTextCalls (fst (getAll calls st))))%nat.
Proof.
  revert st. induction calls as [|[[uri languageId] snapshot] calls IH]; intros st Hok.
  - simpl. split; [done|]. split; [done|]. lia.
  - rewrite getAll_cons. cbn [fst].
    destruct (get_versions uri languageId snapshot st Hok) as (Hok1 & Hpre1 & Hlen1 & Hle1).
    destruct (IH _ Hok1) as (Hok2 & Hpre2 & Hlen2 & Hle2).
    split; [done|]. split; [by etrans|].
    apply prefix_length in Hpre1, Hpre2. lia.
Qed.

(** X11. The documents of a store are numbered in creation order and are
    never replaced: after any sequence of [get] calls on a new provider the
    version counter equals the number of documents, every document carries
    its own index as version, there is one document per [getText] call, and
    the documents present after a sequence of calls are still there, at the
    same indices, after any further calls. *)
Theorem documents_numbered_and_kept calls more :
  let st := fst (getAll calls emptyProvider) in
  version st = length (documents st)
  /\ (forall d doc, documents st !! d = Some doc -> TextDocument.version doc = d)
  /\ length (documents st) = length (getTextCalls st)
  /\ documents st `prefix_of` documents (fst (getAll (calls ++ more) emptyProvider)).
Proof.
  intros st. subst st.
  assert (Laws.versionsOk emptyProvider) as Hempty.
  { split; [done|]. by intros d doc. }
  destruct (getAll_versions calls emptyProvider Hempty) as ([Hv Hd] & _ & Hlen & _).
  split; [done|]. split; [done|]. split.
  - simpl in Hlen. lia.
  - rewrite getAll_app. cbn [fst].
    by destruct (getAll_versions more _ (conj Hv Hd)) as (_ & Hpre & _).
Qed.

Lemma getAll_inv calls st :
  Spec.providerInv st -> Spec.providerInv (fst (getAll calls st)).
Proof. intros Hinv. by destruct (getAll_spec calls st Hinv) as (? & _). Qed.

Lemma getAll_mono calls st key uri doc :
  Spec.providerInv st ->
  Spec.lookupDoc st key uri = Some doc ->
  Spec.lookupDoc (fst (getAll calls st)) key uri = Some doc.
Proof. intros Hinv. destruct (getAll_spec calls st Hinv) as (_ & Hmono & _). apply Hmono. Qed.

Lemma getAll_first calls :
  forall st key uri d,
    Spec.providerInv st -> Laws.versionsOk st ->
    Spec.lookupDoc (fst (getAll calls st)) key uri = Some d ->
    Spec.lookupDoc st key uri = None ->
    exists j languageId snapshot,
      Laws.firstCallAt calls j (uri, languageId, snapshot)
      /\ snapshot_id snapshot = key
      /\ documents (fst (getAll calls st)) !! d =
           Some (TextDocument.create uri languageId d (snapshot_text snapshot)).
Proof.
  induction calls as [|[[u l] s] calls IH]; intros st key uri d Hinv Hok Hafter Hbefore.
  { simpl in Hafter. congruence. }
  rewrite getAll_cons in *. cbn [fst] in *.
  assert (forall j call,
             Laws.firstCallAt calls j call -> Spec.callKey call <> (snapshot_id s, u) ->
             Laws.firstCallAt ((u, l, s) :: calls) (S j) call) as Hshift.
  { intros j call [Hj Hearlier] Hkey. split; [done|].
    intros [|k] earlier Hk Hearlier'.
    - injection Hearlier' as <-. unfold Spec.callKey at 1. simpl. congruence.
    - apply (Hearlier k); [lia|done]. }
  destruct (Spec.lookupDoc st (snapshot_id s) u) as [d0|] eqn:Hhead.
  - rewrite (get_hit _ l _ _ _ Hhead) in *. cbn [fst] in *.
    destruct (IH st key uri d Hinv Hok Hafter Hbefore) as (j & lang & snap & Hfirst & Hid & Hdoc).
    exists (S j), lang, snap. split; [|done].
    apply Hshift; [done|]. unfold Spec.callKey. simpl. intros [= Hk Hu].
    rewrite <- Hid, Hk, Hu in Hbefore. congruence.
  - destruct (get_miss u l s st Hhead) as (st1 & Hget & Hdocs1 & _ & Hst1).
    pose proof (get_miss_inv _ _ _ _ _ _ Hinv Hhead Hget) as Hinv1.
    pose proof (get_versions u l s st Hok) as (Hok1 & _).
    rewrite Hget in *. cbn [fst] in *.
    destruct (decide (key = snapshot_id s /\ uri = u)) as [[-> ->]|Hother].
    + exists 0%nat, l, s.
      assert (Spec.lookupDoc st1 (snapshot_id s) u = Some (length (documents st))) as Hnew
        by (rewrite Hst1; by rewrite decide_True).
      pose proof (getAll_mono calls st1 _ _ _ Hinv1 Hnew) as Hafter'.
      rewrite Hafter in Hafter'. injection Hafter' as ->.
      split; [|split; [done|]].
      * split; [done|]. intros k earlier Hk. lia.
      * destruct (getAll_versions calls st1 Hok1) as (_ & Hpre & _).
        eapply prefix_lookup_Some; [|exact Hpre].
        rewrite Hdocs1, lookup_app_r by lia. rewrite Nat.sub_diag. simpl.
        destruct Hok as [-> _]. done.
    + assert (Spec.lookupDoc st1 key uri = None) as Hbefore1
        by (rewrite Hst1; by rewrite decide_False).
      destruct (IH st1 key uri d Hinv1 Hok1 Hafter Hbefore1)
        as (j & lang & snap & Hfirst & Hid & Hdoc).
      exists (S j), lang, snap. split; [|done].
      apply Hshift; [done|]. unfold Spec.callKey. simpl. intros [= Hk Hu].
      apply Hother. by rewrite <- Hid.
Qed.

(** X12. The first [get] for a key decides the document: the document a call
    [get(uri, languageId, snapshot)] returns on a provider that started new is
    the one created by the first call of the sequence with that URI and that
    snapshot identity; it has that URI, the language id and the snapshot text
    of that first call, and its creation index as version.  The language id
    of a later call for the same key has no effect. *)
Theorem first_get_decides_document calls i uri languageId snapshot d :
  calls !! i = Some (uri, languageId, snapshot) ->
  snd (getAll calls emptyProvider) !! i = Some (Some d) ->
  exists j firstLanguageId firstSnapshot,
    (j <= i)%nat
    /\ Laws.firstCallAt calls j (uri, firstLanguageId, firstSnapshot)
    /\ snapshot_id firstSnapshot = snapshot_id snapshot
    /\ documents (fst (getAll calls emptyProvider)) !! d =
         Some (TextDocument.create uri firstLanguageId d (snapshot_text firstSnapshot)).
Proof.
  intros Hcall Hdoc.
  destruct (getAll_spec calls emptyProvider emptyProvider_inv) as (_ & _ & _ & Hdocs).
  destruct (Forall2_lookup_l _ _ _ _ _ Hdocs Hcall) as (doc & Hdoc' & _ & Heq).
  rewrite Hdoc in Hdoc'. injection Hdoc' as <-. unfold Spec.callKey in Heq. simpl in Heq.
  destruct (getAll_first calls emptyProvider (snapshot_id snapshot) uri d
              emptyProvider_inv) as (j & lang & snap & Hfirst & Hid & Hd).
  { split; [done|]. by intros ? ?. }
  { done. }
  { unfold Spec.lookupDoc. simpl. by rewrite lookup_empty. }
  exists j, lang, snap. split; [|done].
  destruct (decide (j <= i)%nat) as [|Hlt]; [done|].
  destruct Hfirst as [_ Hearlier].
  destruct (Hearlier i (uri, languageId, snapshot) ltac:(lia) Hcall).
  unfold Spec.callKey. simpl. by rewrite Hid.
Qed.

Lemma first_get_decides_document_witness :
  let first := {| snapshot_id := 1; snapshot_text := "let x" |} in
  let calls := [("/a.ts", "typescript", first); ("/a.ts", "javascript", first)] in
  exists j firstLanguageId firstSnapshot,
    (j <= 1)%nat
    /\ Laws.firstCallAt calls j ("/a.ts", firstLanguageId, firstSnapshot)
    /\ snapshot_id firstSnapshot = 1%nat
    /\ documents (fst (getAll calls emptyProvider)) !! 0%nat =
         Some (TextDocument.create "/a.ts" firstLanguageId 0 (snapshot_text firstSnapshot)).
Proof.
  intros first calls.
  exact (first_get_decides_document calls 1 "/a.ts" "javascript" first 0 eq_refl eq_refl).
Defined.

(** ** More on virtual code URIs *)

Lemma stripPrefix_Some sep s rest :
  stripPrefix sep s = Some rest -> s = sep +:+ rest.
Proof.
  revert s. induction sep as [|c sep IH]; intros s; simpl.
  - by intros [= ->].
  - destruct s as [|d s]; [done|]. case_bool_decide as Hcd; [|done].
    intros Hrest%IH. by subst.
Qed.

Lemma cut_Some sep s before after :
  cut sep s = Some (before, after) -> s = before +:+ sep +:+ after.
Proof.
  revert before after. induction s as [|d s IH]; intros before after.
  - unfold cut. destruct (stripPrefix sep EmptyString) as [rest|] eqn:Hstrip; [|done].
    intros [= <- <-]. exact (stripPrefix_Some _ _ _ Hstrip).
  - unfold cut; fold cut.
    destruct (stripPrefix sep (String d s)) as [rest|] eqn:Hstrip.
    + intros [= <- <-]. exact (stripPrefix_Some _ _ _ Hstrip).
    + destruct (cut sep s) as [[b a]|] eqn:Hcut; [|done].
      intros [= <- <-]. change (String d s = String d (b +:+ sep +:+ a)).
      f_equal. by apply IH.
Qed.

Lemma length_append (s t : string) :
  String.length (s +:+ t) = (String.length s + String.length t)%nat.
Proof. induction s as [|c s IH]; simpl; [done|]. by rewrite IH. Qed.

(** X13. Distinct pairs get distinct URIs: if two source file URIs do not
    contain ['?virtualCodeId='] and [getVirtualCodeUri] gives the same URI
    for them with two virtual code ids, then the source file URIs are equal
    and the ids are equal. *)
Theorem getVirtualCodeUri_injective sourceFileUri virtualCodeId sourceFileUri' virtualCodeId' :
  includes sourceFileUri virtualCodeIdMark = false ->
  includes sourceFileUri' virtualCodeIdMark = false ->
  getVirtualCodeUri sourceFileUri virtualCodeId
    = getVirtualCodeUri sourceFileUri' virtualCodeId' ->
  sourceFileUri = sourceFileUri' /\ virtualCodeId = virtualCodeId'.
Proof.
  intros Hs%includes_false Hs'%includes_false Heq.
  unfold getVirtualCodeUri, virtualCodeIdMark in *.
  pose proof (cut_join "?"%char "virtualCodeId=" eq_refl _ virtualCodeId Hs) as Hcut.
  pose proof (cut_join "?"%char "virtualCodeId=" eq_refl _ virtualCodeId' Hs') as Hcut'.
  rewrite Heq in Hcut. rewrite Hcut in Hcut'. by injection Hcut' as -> ->.
Qed.

Lemma getVirtualCodeUri_injective_witness :
  "file:///a.vue" = "file:///a.vue" /\ "script_0" = "script_0".
Proof.
  exact (getVirtualCodeUri_injective "file:///a.vue" "script_0" "file:///a.vue" "script_0"
           eq_refl eq_refl eq_refl).
Defined.

(** X14. What [getVirtualCodeByUri] reads from a URI that contains
    ['?virtualCodeId=']: the source file URI is the text before the first
    occurrence of the mark and the virtual code id is the text between the
    first occurrence and the second, or up to the end if there is no second;
    both arguments of the registry lookup are defined.  So an id that itself
    contains the mark does not come back from the URI built with it: the
    lookup gets the part of the id before the mark. *)
Theorem getVirtualCodeByUri_reads files :
  (forall uri,
      includes uri virtualCodeIdMark = true ->
      exists before after,
        cut virtualCodeIdMark uri = Some (before, after)
        /\ uri = before +:+ virtualCodeIdMark +:+ after
        /\ getVirtualCodeByUri files uri =
             getVirtualCode files (Some before)
               (Some (match cut virtualCodeIdMark after with
                      | Some (id, _) => id
                      | None => after
                      end)))
  /\ (forall sourceFileUri id rest,
        includes sourceFileUri virtualCodeIdMark = false ->
        includes id virtualCodeIdMark = false ->
        getVirtualCodeByUri files
          (getVirtualCodeUri sourceFileUri (id +:+ virtualCodeIdMark +:+ rest))
        = getVirtualCode files (Some sourceFileUri) (Some id)).
Proof.
  assert (forall uri,
      includes uri virtualCodeIdMark = true ->
      exists before after,
        cut virtualCodeIdMark uri = Some (before, after)
        /\ uri = before +:+ virtualCodeIdMark +:+ after
        /\ getVirtualCodeByUri files uri =
             getVirtualCode files (Some before)
               (Some (match cut virtualCodeIdMark after with
                      | Some (id, _) => id
                      | None => after
                      end))) as Hreads.
  { intros uri Hin. unfold getVirtualCodeByUri. rewrite Hin.
    unfold includes in Hin. apply bool_decide_eq_true in Hin as [[before after] Hcut].
    exists before, after. split; [done|].
    pose proof (cut_Some _ _ _ _ Hcut) as Huri. split; [done|].
    unfold split.
    assert (exists fuel, String.length uri = S (S fuel)) as [fuel ->].
    { exists (String.length before + String.length after + 13)%nat.
      rewrite Huri, !length_append. simpl. lia. }
    cbn [split_fuel]. rewrite Hcut.
    destruct (cut virtualCodeIdMark after) as [[id rest]|]; done. }
  split; [exact Hreads|].
  intros s id rest Hs%includes_false Hid%includes_false.
  unfold getVirtualCodeUri, virtualCodeIdMark in *.
  pose proof (cut_join "?"%char "virtualCodeId=" eq_refl s
                (id +:+ "?virtualCodeId=" +:+ rest) Hs) as Hcut.
  pose proof (cut_join "?"%char "virtualCodeId=" eq_refl id rest Hid) as Hcut'.
  destruct (Hreads (s +:+ "?virtualCodeId=" +:+ id +:+ "?virtualCodeId=" +:+ rest))
    as (before & after & Hcut'' & _ & ->).
  { unfold includes. rewrite Hcut. apply bool_decide_eq_true. eauto. }
  rewrite Hcut in Hcut''. injection Hcut'' as <- <-. by rewrite Hcut'.
Qed.

Lemma getVirtualCodeByUri_reads_witness :
  getVirtualCodeByUri Spec.exampleFiles "/a.vue?virtualCodeId=x?virtualCodeId=y"
  = getVirtualCode Spec.exampleFiles (Some "/a.vue") (Some "x").
Proof.
  exact (proj2 (getVirtualCodeByUri_reads Spec.exampleFiles) "/a.vue" "x" "y"
           eq_refl eq_refl).
Defined.

(** ** More on diagnostics *)

Lemma mapM_length {A} (f : nat -> M A) (l : list nat) st rs st' :
  mapM f l st = Ok (rs, st') -> length rs = length l.
Proof.
  revert st rs. induction l as [|x l IH]; intros st rs Hrun.
  - by injection Hrun as <- <-.
  - cbn [mapM] in Hrun. inv_bind Hrun. inv_bind Hrun. injection Hrun as <- <-.
    simpl. f_equal. by eapply IH.
Qed.

Lemma length_filterNotEmpty {A} (values : list (option A)) :
  (length (filterNotEmpty values) <= length values)%nat.
Proof.
  unfold filterNotEmpty. induction values as [|v values IH]; [done|].
  rewrite filter_cons.
  destruct v; [rewrite decide_True by done|rewrite decide_False by done];
    cbn [omap list_omap id length]; lia.
Qed.

(** The related-information block leaves the slot of its diagnostic alone and
    only replaces the diagnostic's related information, by a list that is not
    longer. *)
Lemma transformRelated_result files fuel d st2 st4 o :
  transformRelated (transformDiagnostic fuel files) d st2 = Ok (tt, st4) ->
  heap st2 !! d = Some o ->
  d ∈ Spec.cached st2 ->
  transformedDiagnostics st4 !! d = transformedDiagnostics st2 !! d
  /\ exists o4,
       heap st4 !! d = Some o4
       /\ withRelated o4 None = withRelated o None
       /\ match relatedInformation o with
          | Some related =>
              exists related', relatedInformation o4 = Some related'
                               /\ (length related' <= length related)%nat
          | None => relatedInformation o4 = None
          end.
Proof.
  intros Hrun Ho Hd. unfold transformRelated in Hrun.
  inv_bind Hrun. unfold load in Hrun_l. rewrite Ho in Hrun_l. injection Hrun_l as <- <-.
  destruct (relatedInformation o) as [related|] eqn:Hrel.
  - inv_bind Hrun.
    pose proof (mapM_extends _ _ (transformDiagnostic_extends files fuel) _ _ _ Hrun_l)
      as [_ _ Hslots Hobjects _].
    destruct (Hobjects d o Ho) as (o3 & Ho3 & _ & Hkeep).
    rewrite (Hkeep (or_introl Hd)) in Ho3.
    unfold storeRelated in Hrun. rewrite Ho3 in Hrun. injection Hrun as <-. simpl.
    split; [by apply Hslots|].
    eexists. rewrite list_lookup_insert_eq by (by eapply lookup_lt_Some).
    split; [done|]. split; [done|]. simpl.
    eexists. split; [done|].
    rewrite <- (mapM_length _ _ _ _ _ Hrun_l). apply length_filterNotEmpty.
  - injection Hrun as <-. split; [done|]. exists o. by rewrite Hrel.
Qed.

Lemma transformOwnSpan_prefix files d st4 st5 :
  transformOwnSpan files d st4 = Ok (tt, st5) -> heap st4 `prefix_of` heap st5.
Proof.
  intros Hrun. unfold transformOwnSpan in Hrun.
  inv_bind Hrun. unfold load in Hrun_l.
  destruct (heap st4 !! d) as [o|]; [|done]. injection Hrun_l as <- <-.
  destruct (file o); [|by injection Hrun as <-].
  destruct (start o); [|by injection Hrun as <-].
  destruct (length_ o); [|by injection Hrun as <-].
  destruct (getVirtualFileAndMap files _) as [[[? ?] ?]|]; [|by injection Hrun as <-].
  destruct (transformRange _ _ _ _ _); [|by injection Hrun as <-].
  inv_bind Hrun. injection Hrun_l as <- <-. injection Hrun as <-. simpl.
  by eexists.
Qed.

Lemma transformDiagnostic_slot files fuel d st r st' :
  transformDiagnostic fuel files d st = Ok (r, st') ->
  d ∈ Spec.cached st' /\ r = default None (transformedDiagnostics st' !! d).
Proof.
  intros Hrun. destruct fuel as [|fuel]; [done|].
  destruct (decide (d ∈ Spec.cached st)) as [Hhit|Hmiss].
  - pose proof Hhit as [v Hv]%cached_has.
    rewrite (transformDiagnostic_hit _ _ _ _ _ Hv) in Hrun.
    injection Hrun as <- <-. by rewrite Hv.
  - pose proof (transformDiagnostic_extends _ _ _ _ _ _ Hrun) as [_ _ _ _ (new & Hnew & _ & Hin)].
    destruct (transformDiagnostic_computed _ _ _ _ _ _ Hmiss Hrun) as [new' Hnew'].
    destruct (transformDiagnostic_miss _ _ _ _ _ _ Hmiss Hrun)
      as (_ & _ & _ & _ & _ & _ & _ & ->).
    split; [|done]. apply Hin. rewrite Hnew' in Hnew.
    apply app_inv_head in Hnew. rewrite <- Hnew. apply list_elem_of_here.
Qed.

(** X15. Answering again is free: once [transformDiagnostic] has answered for
    a diagnostic, every later call for that diagnostic, with any fuel, gives
    the same answer and leaves the store, the cache and the trace as they
    are. *)
Theorem transformDiagnostic_answers_again files fuel fuel' d st r st' :
  transformDiagnostic fuel files d st = Ok (r, st') ->
  transformDiagnostic (S fuel') files d st' = Ok (r, st').
Proof.
  intros [[v Hv]%cached_has ->]%transformDiagnostic_slot.
  rewrite Hv. simpl. by apply transformDiagnostic_hit.
Qed.

Lemma transformDiagnostic_answers_again_witness :
  exists r st',
    transformDiagnostic 3 Spec.exampleFiles 0
      (Spec.newState [Spec.mappedDiagnostic; Spec.unmappedDiagnostic]) = Ok (r, st')
    /\ transformDiagnostic 1 Spec.exampleFiles 0 st' = Ok (r, st').
Proof.
  destruct (transformDiagnostic 3 Spec.exampleFiles 0
              (Spec.newState [Spec.mappedDiagnostic; Spec.unmappedDiagnostic]))
    as [[r st']| |] eqn:Hrun; [|by vm_compute in Hrun|by vm_compute in Hrun].
  exists r, st'. split; [done|].
  exact (transformDiagnostic_answers_again _ _ 0 _ _ _ _ Hrun).
Defined.

(** The state in which the own span of a diagnostic without a slot is
    transformed. *)
Lemma transformDiagnostic_own_span files fuel d st r st' o :
  d ∉ Spec.cached st ->
  transformDiagnostic (S fuel) files d st = Ok (r, st') ->
  heap st !! d = Some o ->
  exists st4 o4,
    transformOwnSpan files d st4 = Ok (tt, st')
    /\ r = default None (transformedDiagnostics st' !! d)
    /\ (length (heap st) <= length (heap st4))%nat
    /\ transformedDiagnostics st4 !! d = Some None
    /\ heap st4 !! d = Some o4
    /\ withRelated o4 None = withRelated o None
    /\ match relatedInformation o with
       | Some related =>
           exists related', relatedInformation o4 = Some related'
                            /\ (length related' <= length related)%nat
       | None => relatedInformation o4 = None
       end.
Proof.
  intros Hmiss Hrun Ho.
  destruct (transformDiagnostic_miss _ _ _ _ _ _ Hmiss Hrun)
    as (st1 & st2 & st4 & H1 & H2 & H3 & H4 & Hr).
  destruct (reserve_extends _ _ _ _ Hmiss H1 H2) as (Hext2 & Hheap2 & Hslot2 & Hc2 & _).
  assert (d ∈ Spec.cached st2) as Hd2 by (rewrite Hc2; set_solver).
  destruct (transformRelated_extends _ _ _ _ _ (transformDiagnostic_extends files fuel)
              Hext2 Hmiss Hd2 H3) as (_ & _ & _ & Hlen).
  rewrite <- Hheap2 in Ho.
  destruct (transformRelated_result _ _ _ _ _ _ H3 Ho Hd2) as (Hslot4 & o4 & Ho4 & Hsame & Hrel).
  exists st4, o4. rewrite Hslot4, Hslot2, <- Hheap2. done.
Qed.

(** X16. What [transformDiagnostic] answers for a diagnostic that has no slot
    yet.  A diagnostic without file, start or length, or whose file is not a
    registered generated document, is answered by itself.  For a diagnostic
    of a registered generated document the answer depends on the range of its
    span under the diagnostics filter: if the range does not map there is no
    translation; if it maps to [(s, e)] the answer is a new object, not one
    of the objects present before, with the same file, message and code,
    start [s] and length [e - s], which is at least 0, and the related
    information the diagnostic itself has after the call. *)
Theorem transformDiagnostic_answer files fuel d st r st' o :
  d ∉ Spec.cached st ->
  transformDiagnostic (S fuel) files d st = Ok (r, st') ->
  heap st !! d = Some o ->
  (file o = None \/ start o = None \/ length_ o = None
   \/ (exists fileName, file o = Some fileName
                        /\ getVirtualFileAndMap files fileName = None) ->
   r = Some d)
  /\ (forall fileName start' length' virtualCode sourceFile map,
        file o = Some fileName -> start o = Some start' -> length_ o = Some length' ->
        getVirtualFileAndMap files fileName = Some (virtualCode, sourceFile, map) ->
        (transformRange sourceFile map start' (start' + length') shouldReportDiagnostics
           = None -> r = None)
        /\ (forall s e,
              transformRange sourceFile map start' (start' + length') shouldReportDiagnostics
                = Some (s, e) ->
              exists copy o',
                r = Some copy
                /\ (length (heap st) <= copy)%nat
                /\ heap st' !! copy = Some o'
                /\ file o' = Some fileName
                /\ start o' = Some s /\ length_ o' = Some (e - s) /\ 0 <= e - s
                /\ messageText o' = messageText o /\ code o' = code o
                /\ relatedInformation <$> heap st' !! d = Some (relatedInformation o'))).
Proof.
  intros Hmiss Hrun Ho.
  destruct (transformDiagnostic_own_span _ _ _ _ _ _ _ Hmiss Hrun Ho)
    as (st4 & o4 & Hown & -> & Hlen & Hslot & Ho4 & Hsame & _).
  unfold withRelated in Hsame. injection Hsame as Hfile Hstart Hlength Htext Hcode.
  unfold transformOwnSpan in Hown. inv_bind Hown.
  unfold load in Hown_l. rewrite Ho4 in Hown_l. injection Hown_l as <- <-.
  rewrite Hfile, Hstart, Hlength in Hown.
  assert (cacheSet d (Some d) st4 = Ok (tt, st') ->
          default None (transformedDiagnostics st' !! d) = Some d) as Hself.
  { intros [= <-]. simpl. by rewrite lookup_insert_eq. }
  split.
  - intros [Hnone|[Hnone|[Hnone|(fileName & Hname & Hnone)]]].
    + rewrite Hnone in Hown. by apply Hself.
    + rewrite Hnone in Hown. destruct (file o); by apply Hself.
    + rewrite Hnone in Hown. destruct (file o), (start o); by apply Hself.
    + rewrite Hname in Hown. destruct (start o); [|by apply Hself].
      destruct (length_ o); [|by apply Hself].
      rewrite Hnone in Hown. by apply Hself.
  - intros fileName start' length' virtualCode sourceFile map Hname Hs Hl Hreg.
    rewrite Hname, Hs, Hl, Hreg in Hown. split.
    + intros Hnone. rewrite Hnone in Hown. injection Hown as <-. by rewrite Hslot.
    + intros s e Hrange. rewrite Hrange in Hown.
      inv_bind Hown. injection Hown_l as <- <-. injection Hown as <-. simpl.
      rewrite lookup_insert_eq. simpl.
      eexists _, _. split; [done|]. split; [done|].
      split; [by rewrite lookup_app_r, Nat.sub_diag by lia|]. simpl.
      rewrite Htext, Hcode.
      split; [done|]. split; [done|]. split; [done|].
      split; [apply transformRange_ordered in Hrange; lia|].
      split; [done|]. split; [done|].
      rewrite (lookup_app_l_Some _ _ _ _ Ho4). done.
Qed.

Lemma transformDiagnostic_answer_witness :
  let st := Spec.newState [Spec.mappedDiagnostic; Spec.unmappedDiagnostic] in
  exists copy o' st',
    transformDiagnostic 3 Spec.exampleFiles 0 st = Ok (Some copy, st')
    /\ heap st' !! copy = Some o'
    /\ start o' = Some 1 /\ length_ o' = Some 6
    /\ messageText o' = "Type mismatch".
Proof.
  intros st.
  destruct (transformDiagnostic 3 Spec.exampleFiles 0 st) as [[r st']| |] eqn:Hrun;
    [|by vm_compute in Hrun|by vm_compute in Hrun].
  destruct (proj2 (transformDiagnostic_answer Spec.exampleFiles 2 0 st r st'
                     Spec.mappedDiagnostic ltac:(by vm_compute) Hrun eq_refl)
              "/a.vue" 11 2 Spec.exampleVirtualCode Spec.exampleSourceFile Spec.exampleMap
              eq_refl eq_refl eq_refl eq_refl) as [_ Hmapped].
  destruct (Hmapped 1 7 eq_refl)
    as (copy & o' & -> & _ & Hcopy & _ & Hstart & Hlength & _ & Htext & _).
  exists copy, o', st'. done.
Defined.

(** X17. [transformDiagnostic] never adds related information: after the
    call, a diagnostic that had no slot and no related-information list still
    has none, and one that had a list has a list that is not longer (the
    related diagnostics without translation are left out); its file, start,
    length, message and code are unchanged. *)
Theorem transformDiagnostic_related_shrinks files fuel d st r st' o :
  d ∉ Spec.cached st ->
  transformDiagnostic (S fuel) files d st = Ok (r, st') ->
  heap st !! d = Some o ->
  exists o',
    heap st' !! d = Some o'
    /\ withRelated o' None = withRelated o None
    /\ match relatedInformation o with
       | Some related =>
           exists related', relatedInformation o' = Some related'
                            /\ (length related' <= length related)%nat
       | None => relatedInformation o' = None
       end.
Proof.
  intros Hmiss Hrun Ho.
  destruct (transformDiagnostic_own_span _ _ _ _ _ _ _ Hmiss Hrun Ho)
    as (st4 & o4 & Hown & _ & _ & _ & Ho4 & Hsame & Hrel).
  exists o4. split; [|done].
  eapply prefix_lookup_Some; [done|]. by eapply transformOwnSpan_prefix.
Qed.

Lemma transformDiagnostic_related_shrinks_witness :
  let st := Spec.newState [Spec.mappedDiagnostic; Spec.unmappedDiagnostic] in
  exists r st' o',
    transformDiagnostic 3 Spec.exampleFiles 0 st = Ok (r, st')
    /\ heap st' !! 0%nat = Some o'
    /\ exists related', relatedInformation o' = Some related'
                        /\ (length related' <= 1)%nat.
Proof.
  intros st.
  destruct (transformDiagnostic 3 Spec.exampleFiles 0 st) as [[r st']| |] eqn:Hrun;
    [|by vm_compute in Hrun|by vm_compute in Hrun].
  destruct (transformDiagnostic_related_shrinks Spec.exampleFiles 2 0 st r st'
              Spec.mappedDiagnostic ltac:(by vm_compute) Hrun eq_refl)
    as (o' & Ho' & _ & Hrel).
  exists r, st', o'. done.
Defined.

(** ** The translators of a virtual code *)

Import Provider.

Lemma get_mono uri languageId snapshot st key uri' doc :
  Spec.lookupDoc st key uri' = Some doc ->
  Spec.lookupDoc (fst (get uri languageId snapshot st)) key uri' = Some doc.
Proof.
  intros Hold.
  destruct (Spec.lookupDoc st (snapshot_id snapshot) uri) as [d|] eqn:Hlookup.
  - by rewrite (get_hit _ languageId _ _ _ Hlookup).
  - destruct (get_miss uri languageId snapshot st Hlookup) as (st' & -> & _ & _ & Hst').
    simpl. rewrite Hst'. rewrite decide_False; [done|]. intros [-> ->]. congruence.
Qed.

Lemma getMaps_body_hit virtualCode p entry dm :
  map2DocMap p !! map_id (entryMap entry) = Some dm ->
  getMaps_body virtualCode p entry = (p, Some dm).
Proof.
  intros Hdm. unfold getMaps_body.
  rewrite bool_decide_eq_true_2 by eauto. by rewrite Hdm.
Qed.

Lemma getMaps_body_miss virtualCode p entry :
  map2DocMap p !! map_id (entryMap entry) = None ->
  let store1 := fst (get (sourceFileUri entry) (sourceLanguageId entry)
                       (sourceSnapshot entry) (store p)) in
  let sourceDoc := snd (get (sourceFileUri entry) (sourceLanguageId entry)
                          (sourceSnapshot entry) (store p)) in
  let virtualUri := getVirtualCodeUri (sourceFileUri entry) (vc_id virtualCode) in
  let store2 := fst (get virtualUri (vc_languageId virtualCode)
                       (vc_snapshot virtualCode) store1) in
  let virtualDoc := snd (get virtualUri (vc_languageId virtualCode)
                           (vc_snapshot virtualCode) store1) in
  let dm := {| dm_sourceFileDocument := sourceDoc;
               dm_virtualFileDocument := virtualDoc;
               dm_map := entryMap entry |} in
  getMaps_body virtualCode p entry =
    ({| store := store2;
        map2DocMap := <[map_id (entryMap entry) := dm]> (map2DocMap p);
        mirrorMap2DocMirrorMap := mirrorMap2DocMirrorMap p |}, Some dm).
Proof.
  intros Hnone. cbn zeta. unfold getMaps_body.
  rewrite bool_decide_eq_false_2 by (rewrite Hnone; by intros [? ?]).
  destruct (get (sourceFileUri entry) _ _ (store p)) as [store1 sourceDoc].
  cbn [fst snd].
  destruct (get (getVirtualCodeUri _ _) _ _ store1) as [store2 virtualDoc].
  cbn [fst snd map2DocMap]. by rewrite lookup_insert_eq.
Qed.

(** One step of [getMaps]: it yields the translator filed under the map of
    the element, and it keeps every translator it already had. *)
Lemma getMaps_body_spec virtualCode p entry :
  (exists dm,
      snd (getMaps_body virtualCode p entry) = Some dm
      /\ map2DocMap (fst (getMaps_body virtualCode p entry)) !! map_id (entryMap entry)
         = Some dm)
  /\ forall key dm,
       map2DocMap p !! key = Some dm ->
       map2DocMap (fst (getMaps_body virtualCode p entry)) !! key = Some dm.
Proof.
  destruct (map2DocMap p !! map_id (entryMap entry)) as [dm|] eqn:Hdm.
  - rewrite (getMaps_body_hit _ _ _ _ Hdm). simpl. eauto.
  - rewrite (getMaps_body_miss virtualCode _ _ Hdm). cbn [fst snd map2DocMap]. split.
    + eexists. split; [done|]. by rewrite lookup_insert_eq.
    + intros key dm Hkey. rewrite lookup_insert_ne; [done|]. congruence.
Qed.

Lemma getMaps_cons entry entries virtualCode p :
  getMaps (entry :: entries) virtualCode p =
    (fst (getMaps entries virtualCode (fst (getMaps_body virtualCode p entry))),
     snd (getMaps_body virtualCode p entry)
       :: snd (getMaps entries virtualCode (fst (getMaps_body virtualCode p entry)))).
Proof.
  cbn [getMaps]. destruct (getMaps_body virtualCode p entry) as [p1 yielded]. simpl.
  by destruct (getMaps entries virtualCode p1).
Qed.

Lemma getMaps_keeps entries virtualCode p key dm :
  map2DocMap p !! key = Some dm ->
  map2DocMap (fst (getMaps entries virtualCode p)) !! key = Some dm.
Proof.
  revert p. induction entries as [|entry entries IH]; intros p Hkey; [done|].
  rewrite getMaps_cons. cbn [fst]. apply IH.
  by apply (getMaps_body_spec virtualCode p entry).
Qed.

Lemma getMaps_yields entries virtualCode p :
  Forall2 (fun entry yielded =>
             is_Some yielded
             /\ yielded = map2DocMap (fst (getMaps entries virtualCode p))
                            !! map_id (entryMap entry))
    entries (snd (getMaps entries virtualCode p)).
Proof.
  revert p. induction entries as [|entry entries IH]; intros p; [constructor|].
  rewrite getMaps_cons. cbn [fst snd].
  destruct (getMaps_body_spec virtualCode p entry) as [(dm & Hdm & Hfiled) _].
  constructor.
  - rewrite Hdm. split; [eauto|]. symmetry. by apply getMaps_keeps.
  - eapply Forall2_impl; [apply IH|]. done.
Qed.

Lemma getMaps_all_hits entries virtualCode p :
  Forall (fun entry => is_Some (map2DocMap p !! map_id (entryMap entry))) entries ->
  getMaps entries virtualCode p =
    (p, (fun entry => map2DocMap p !! map_id (entryMap entry)) <$> entries).
Proof.
  induction 1 as [|entry entries [dm Hdm] _ IH]; [done|].
  rewrite getMaps_cons, (getMaps_body_hit _ _ _ _ Hdm). cbn [fst snd].
  rewrite IH. cbn [fst snd]. by rewrite fmap_cons, Hdm.
Qed.

Lemma yields_are_lookups (m : gmap nat DocMap) (entries : list MapsEntry)
    (yields : list (option DocMap)) :
  Forall2 (fun entry yielded =>
             is_Some yielded /\ yielded = m !! map_id (entryMap entry)) entries yields ->
  yields = (fun entry => m !! map_id (entryMap entry)) <$> entries
  /\ Forall (fun yielded : option DocMap => is_Some yielded) yields.
Proof.
  induction 1 as [|entry yielded entries yields [Hsome ->] _ [IHeq IHsome]].
  - split; [done|constructor].
  - split; [by rewrite fmap_cons, <- IHeq|by constructor].
Qed.

(** X18. The translators are memoized by the identity of their map alone.
    After [getMaps] has been consumed over some elements, consuming
    [getMaps] again, for any virtual code and any elements that carry the
    same maps in the same order (their source file, language and snapshot
    may differ), yields the same translator objects and changes nothing: no
    document is created and no text is read. *)
Theorem getMaps_memoized_by_map entries entries' virtualCode virtualCode' p :
  (map_id ∘ entryMap) <$> entries' = (map_id ∘ entryMap) <$> entries ->
  getMaps entries' virtualCode' (fst (getMaps entries virtualCode p)) =
    (fst (getMaps entries virtualCode p), snd (getMaps entries virtualCode p))
  /\ Forall (fun yielded : option DocMap => is_Some yielded)
       (snd (getMaps entries virtualCode p)).
Proof.
  intros Hids.
  destruct (yields_are_lookups _ _ _ (getMaps_yields entries virtualCode p))
    as [Hsame Hsome].
  split; [|done].
  assert ((fun entry => map2DocMap (fst (getMaps entries virtualCode p))
                          !! map_id (entryMap entry)) <$> entries'
          = snd (getMaps entries virtualCode p)) as Hsame'.
  { assert (forall l : list MapsEntry,
              (fun entry => map2DocMap (fst (getMaps entries virtualCode p))
                              !! map_id (entryMap entry)) <$> l
              = (fun key => map2DocMap (fst (getMaps entries virtualCode p)) !! key)
                  <$> ((map_id ∘ entryMap) <$> l)) as Hcompose
      by (intros l; by rewrite <- list_fmap_compose).
    by rewrite Hsame, (Hcompose entries'), Hids, <- (Hcompose entries). }
  rewrite getMaps_all_hits; [by rewrite Hsame'|].
  apply Forall_forall. intros entry' Hin.
  assert (map_id (entryMap entry') ∈ (map_id ∘ entryMap) <$> entries') as Hid
    by (apply list_elem_of_fmap; eauto).
  rewrite Hids in Hid. apply list_elem_of_fmap in Hid as (entry & Heq & Hentry).
  simpl in Heq. rewrite Heq.
  apply list_elem_of_lookup in Hentry as [i Hi].
  destruct (Forall2_lookup_l _ _ _ _ _ (getMaps_yields entries virtualCode p) Hi)
    as (y & _ & Hy & ->).
  done.
Qed.

Lemma getMaps_memoized_by_map_witness :
  let snapshot := {| snapshot_id := 1; snapshot_text := "0123456789" |} in
  let other := {| snapshot_id := 5; snapshot_text := "edited" |} in
  let map := {| map_id := 9; map_mappings := Spec.exampleMap |} in
  let entries := [{| sourceFileUri := "/a.vue"; sourceLanguageId := "vue";
                     sourceSnapshot := snapshot; entryMap := map |}] in
  let entries' := [{| sourceFileUri := "/a.vue"; sourceLanguageId := "vue";
                      sourceSnapshot := other; entryMap := map |}] in
  let p := fst (getMaps entries Spec.exampleVirtualCode newProvider) in
  getMaps entries' Spec.exampleVirtualCode p =
    (p, [Some {| dm_sourceFileDocument := Some 0%nat;
                 dm_virtualFileDocument := Some 1%nat;
                 dm_map := map |}]).
Proof.
  intros snapshot other map entries entries' p.
  exact (proj1 (getMaps_memoized_by_map entries entries' Spec.exampleVirtualCode
                  Spec.exampleVirtualCode newProvider eq_refl)).
Defined.

Lemma get_prefix uri languageId snapshot st :
  documents st `prefix_of` documents (fst (get uri languageId snapshot st)).
Proof.
  destruct (Spec.lookupDoc st (snapshot_id snapshot) uri) as [d|] eqn:Hlookup.
  - by rewrite (get_hit _ languageId _ _ _ Hlookup).
  - destruct (get_miss uri languageId snapshot st Hlookup) as (st' & Hget & Hdocs & _).
    rewrite Hget. cbn [fst]. rewrite Hdocs. by eexists.
Qed.

Lemma get_inv uri languageId snapshot st :
  Spec.providerInv st -> Spec.providerInv (fst (get uri languageId snapshot st)).
Proof.
  intros Hinv.
  destruct (Spec.lookupDoc st (snapshot_id snapshot) uri) as [d|] eqn:Hlookup.
  - by rewrite (get_hit _ languageId _ _ _ Hlookup).
  - destruct (get uri languageId snapshot st) as [st' doc] eqn:Hget.
    by eapply get_miss_inv.
Qed.

(** One step of [getMaps] on a provider whose store and translators are in
    order. *)
Lemma getMaps_body_ok virtualCode p entry :
  Spec.providerInv (store p) -> Laws.translatorsOk p ->
  let p1 := fst (getMaps_body virtualCode p entry) in
  Spec.providerInv (store p1)
  /\ Laws.translatorsOk p1
  /\ documents (store p) `prefix_of` documents (store p1)
  /\ (forall key uri doc,
        Spec.lookupDoc (store p) key uri = Some doc ->
        Spec.lookupDoc (store p1) key uri = Some doc)
  /\ (map2DocMap p !! map_id (entryMap entry) = None ->
      exists dm,
        snd (getMaps_body virtualCode p entry) = Some dm
        /\ dm_map dm = entryMap entry
        /\ dm_sourceFileDocument dm =
             Spec.lookupDoc (store p1) (snapshot_id (sourceSnapshot entry))
               (sourceFileUri entry)
        /\ dm_virtualFileDocument dm =
             Spec.lookupDoc (store p1) (snapshot_id (vc_snapshot virtualCode))
               (getVirtualCodeUri (sourceFileUri entry) (vc_id virtualCode))).
Proof.
  intros Hinv Hok. cbn zeta.
  destruct (map2DocMap p !! map_id (entryMap entry)) as [dm|] eqn:Hdm.
  - rewrite (getMaps_body_hit _ _ _ _ Hdm). cbn [fst snd]. done.
  - rewrite (getMaps_body_miss virtualCode _ _ Hdm). cbn [fst snd store map2DocMap].
    set (get1 := get (sourceFileUri entry) (sourceLanguageId entry)
                   (sourceSnapshot entry) (store p)).
    set (virtualUri := getVirtualCodeUri (sourceFileUri entry) (vc_id virtualCode)).
    set (get2 := get virtualUri (vc_languageId virtualCode) (vc_snapshot virtualCode)
                   (fst get1)).
    pose proof (get_inv (sourceFileUri entry) (sourceLanguageId entry)
                  (sourceSnapshot entry) (store p) Hinv) as Hinv1.
    pose proof (get_inv virtualUri (vc_languageId virtualCode) (vc_snapshot virtualCode)
                  (fst get1) Hinv1) as Hinv2.
    destruct (get_returns (sourceFileUri entry) (sourceLanguageId entry)
                (sourceSnapshot entry) (store p)) as (s & Hs & Hlookup1).
    destruct (get_returns virtualUri (vc_languageId virtualCode) (vc_snapshot virtualCode)
                (fst get1)) as (v & Hv & Hlookup2).
    pose proof (get_mono virtualUri (vc_languageId virtualCode) (vc_snapshot virtualCode)
                  (fst get1) _ _ _ Hlookup1) as Hlookup1'.
    fold get1 in Hinv1, Hs, Hlookup1. fold get2 in Hinv2, Hv, Hlookup2, Hlookup1'.
    assert (documents (store p) `prefix_of` documents (fst get2)) as Hprefix.
    { etrans; apply get_prefix. }
    split; [exact Hinv2|]. split; [|split; [exact Hprefix|split]].
    + intros key dm. cbn [store map2DocMap].
      destruct (decide (key = map_id (entryMap entry))) as [->|Hne].
      * rewrite lookup_insert_eq. intros Hfiled.
        apply (inj Some) in Hfiled. subst dm.
        cbn [dm_map dm_sourceFileDocument dm_virtualFileDocument].
        split; [reflexivity|]. split.
        -- exists s. split; [exact Hs|]. apply lookup_lt_is_Some.
           exact (Spec.inv_bound _ Hinv2 _ _ _ Hlookup1').
        -- exists v. split; [exact Hv|]. apply lookup_lt_is_Some.
           exact (Spec.inv_bound _ Hinv2 _ _ _ Hlookup2).
      * rewrite lookup_insert_ne by done. intros Hkey.
        destruct (Hok key dm Hkey) as (Hid & (s' & Hs' & [? Hdoc]) & (v' & Hv' & [? Hdoc'])).
        split; [exact Hid|]. split.
        -- exists s'. split; [exact Hs'|]. eexists.
           exact (prefix_lookup_Some _ _ _ _ Hdoc Hprefix).
        -- exists v'. split; [exact Hv'|]. eexists.
           exact (prefix_lookup_Some _ _ _ _ Hdoc' Hprefix).
    + intros key uri doc Hold. subst get2 get1. by do 2 apply get_mono.
    + intros _. eexists. split; [reflexivity|]. cbn [dm_map dm_sourceFileDocument
        dm_virtualFileDocument]. split; [reflexivity|].
      rewrite Hs, Hv, Hlookup1', Hlookup2. split; reflexivity.
Qed.

Lemma newProvider_ok : Laws.translatorsOk newProvider.
Proof.
  intros key dm Hkey. unfold newProvider in Hkey. cbn [map2DocMap] in Hkey.
  by rewrite lookup_empty in Hkey.
Qed.

Lemma getMaps_app entries more virtualCode p :
  getMaps (entries ++ more) virtualCode p =
    (fst (getMaps more virtualCode (fst (getMaps entries virtualCode p))),
     snd (getMaps entries virtualCode p)
       ++ snd (getMaps more virtualCode (fst (getMaps entries virtualCode p)))).
Proof.
  revert p. induction entries as [|entry entries IH]; intros p.
  - simpl. by destruct (getMaps more virtualCode p).
  - cbn [app]. rewrite !getMaps_cons. cbn [fst snd]. by rewrite IH.
Qed.

Lemma getMaps_ok entries virtualCode p :
  Spec.providerInv (store p) -> Laws.translatorsOk p ->
  let p' := fst (getMaps entries virtualCode p) in
  Spec.providerInv (store p')
  /\ Laws.translatorsOk p'
  /\ documents (store p) `prefix_of` documents (store p')
  /\ (forall key uri doc,
        Spec.lookupDoc (store p) key uri = Some doc ->
        Spec.lookupDoc (store p') key uri = Some doc).
Proof.
  revert p. induction entries as [|entry entries IH]; intros p Hinv Hok; [done|].
  cbn zeta. rewrite getMaps_cons. cbn [fst].
  destruct (getMaps_body_ok virtualCode p entry Hinv Hok) as (Hinv1 & Hok1 & Hpre1 & Hmono1 & _).
  destruct (IH _ Hinv1 Hok1) as (Hinv' & Hok' & Hpre' & Hmono').
  split; [done|]. split; [done|]. split; [by etrans|]. eauto.
Qed.

(** The value yielded for the element after [entries]: it is filed in the
    final provider, and when the element's map had no translator at its turn
    it was built from that element and the store's documents. *)
Lemma getMaps_at entries entry more virtualCode p :
  Spec.providerInv (store p) -> Laws.translatorsOk p ->
  let all := entries ++ entry :: more in
  let p' := fst (getMaps all virtualCode p) in
  exists dm,
    snd (getMaps all virtualCode p) !! length entries = Some (Some dm)
    /\ map2DocMap p' !! map_id (entryMap entry) = Some dm
    /\ (map2DocMap (fst (getMaps entries virtualCode p)) !! map_id (entryMap entry)
          = None ->
        dm_map dm = entryMap entry
        /\ dm_sourceFileDocument dm =
             Spec.lookupDoc (store p') (snapshot_id (sourceSnapshot entry))
               (sourceFileUri entry)
        /\ dm_virtualFileDocument dm =
             Spec.lookupDoc (store p') (snapshot_id (vc_snapshot virtualCode))
               (getVirtualCodeUri (sourceFileUri entry) (vc_id virtualCode))
        /\ is_Some (dm_sourceFileDocument dm)
        /\ is_Some (dm_virtualFileDocument dm)).
Proof.
  intros Hinv Hok. cbn zeta.
  destruct (getMaps_ok (entries ++ entry :: more) virtualCode p Hinv Hok)
    as (_ & Hok' & _ & _).
  destruct (getMaps_ok entries virtualCode p Hinv Hok) as (Hinv0 & Hok0 & _).
  set (p0 := fst (getMaps entries virtualCode p)) in *.
  destruct (getMaps_body_ok virtualCode p0 entry Hinv0 Hok0)
    as (Hinv1 & Hok1 & _ & _ & Hfresh).
  destruct (getMaps_body_spec virtualCode p0 entry) as [(dm & Hdm & Hfiled) _].
  set (p1 := fst (getMaps_body virtualCode p0 entry)) in *.
  destruct (getMaps_ok more virtualCode p1 Hinv1 Hok1) as (_ & _ & _ & Hmono).
  assert (fst (getMaps (entries ++ entry :: more) virtualCode p)
          = fst (getMaps more virtualCode p1)) as Hp'.
  { subst p1 p0. rewrite getMaps_app, getMaps_cons. reflexivity. }
  assert (snd (getMaps (entries ++ entry :: more) virtualCode p) !! length entries
          = Some (Some dm)) as Hyield.
  { pose proof (Forall2_length _ _ _ (getMaps_yields entries virtualCode p)) as Hlen.
    subst p1 p0. rewrite getMaps_app, getMaps_cons. cbn [fst snd].
    rewrite lookup_app_r by (rewrite <- Hlen; reflexivity).
    rewrite <- Hlen, Nat.sub_diag, Hdm. reflexivity. }
  pose proof (getMaps_keeps more virtualCode p1 _ _ Hfiled) as Hfinal.
  rewrite <- Hp' in Hfinal.
  destruct (Hok' _ _ Hfinal) as (_ & (s & Hs & _) & (v & Hv & _)).
  exists dm. split; [exact Hyield|]. split; [exact Hfinal|].
  intros Hnone. destruct (Hfresh Hnone) as (dm' & Hdm' & Hmap & Hsource & Hvirtual).
  rewrite Hdm in Hdm'. apply (inj Some) in Hdm'. subst dm'.
  split; [exact Hmap|]. rewrite Hp'.
  split; [|split; [|split; [by rewrite Hs | by rewrite Hv]]].
  - rewrite Hs. symmetry. apply Hmono. rewrite <- Hsource. exact Hs.
  - rewrite Hv. symmetry. apply Hmono. rewrite <- Hvirtual. exact Hv.
Qed.

(** X19. [getMaps] builds its translators on the document store and keeps
    both in order.  On a provider whose store and translators are in order
    (as on a new one), after consuming [getMaps] over any elements: the store
    still reads each text once per key and has kept its documents; every
    value yielded is a translator filed under the map of its element whose
    two documents exist in the store; and a translator built for an element
    whose map had none has that element's map, and its documents are the
    store's documents for (source snapshot, source file URI) and for (virtual
    code snapshot, URI of the virtual code). *)
Theorem getMaps_translators_on_store entries entry more virtualCode p :
  Spec.providerInv (store p) -> Laws.translatorsOk p ->
  let all := entries ++ entry :: more in
  let p' := fst (getMaps all virtualCode p) in
  Spec.providerInv (store p')
  /\ Laws.translatorsOk p'
  /\ documents (store p) `prefix_of` documents (store p')
  /\ (exists dm s v,
        snd (getMaps all virtualCode p) !! length entries = Some (Some dm)
        /\ map_id (dm_map dm) = map_id (entryMap entry)
        /\ dm_sourceFileDocument dm = Some s /\ is_Some (documents (store p') !! s)
        /\ dm_virtualFileDocument dm = Some v /\ is_Some (documents (store p') !! v)
        /\ (map2DocMap (fst (getMaps entries virtualCode p)) !! map_id (entryMap entry)
              = None ->
            dm_map dm = entryMap entry
            /\ Spec.lookupDoc (store p') (snapshot_id (sourceSnapshot entry))
                 (sourceFileUri entry) = Some s
            /\ Spec.lookupDoc (store p') (snapshot_id (vc_snapshot virtualCode))
                 (getVirtualCodeUri (sourceFileUri entry) (vc_id virtualCode)) = Some v)).
Proof.
  intros Hinv Hok. cbn zeta.
  destruct (getMaps_ok (entries ++ entry :: more) virtualCode p Hinv Hok)
    as (Hinv' & Hok' & Hpre' & _).
  split; [exact Hinv'|]. split; [exact Hok'|]. split; [exact Hpre'|].
  destruct (getMaps_at entries entry more virtualCode p Hinv Hok)
    as (dm & Hyield & Hfinal & Hfresh).
  destruct (Hok' _ _ Hfinal) as (Hid & (s & Hs & Hsdoc) & (v & Hv & Hvdoc)).
  exists dm, s, v. split; [exact Hyield|]. split; [exact Hid|].
  split; [exact Hs|]. split; [exact Hsdoc|]. split; [exact Hv|]. split; [exact Hvdoc|].
  intros Hnone. destruct (Hfresh Hnone) as (Hmap & Hsource & Hvirtual & _).
  split; [exact Hmap|]. split; congruence.
Qed.

Lemma getMaps_translators_on_store_witness :
  let entry := {| sourceFileUri := "/a.vue"; sourceLanguageId := "vue";
                  sourceSnapshot := {| snapshot_id := 1; snapshot_text := "0123456789" |};
                  entryMap := {| map_id := 9; map_mappings := Spec.exampleMap |} |} in
  let p' := fst (getMaps [entry] Spec.exampleVirtualCode newProvider) in
  Spec.providerInv (store p')
  /\ documents (store p') =
       [TextDocument.create "/a.vue" "vue" 0 "0123456789";
        TextDocument.create "/a.vue?virtualCodeId=script" "typescript" 1 "abcde"].
Proof.
  intros entry p'. split; [|by vm_compute].
  exact (proj1 (getMaps_translators_on_store [] entry [] Spec.exampleVirtualCode
                  newProvider emptyProvider_inv newProvider_ok)).
Defined.

(** ** The translator of the linked code *)

Lemma getLinkedCodeMap_hit map sourceFileId virtualCode p dmm :
  mirrorMap2DocMirrorMap p !! map_id map = Some dmm ->
  getLinkedCodeMap (Some map) sourceFileId virtualCode p = (p, Some dmm).
Proof.
  intros Hdmm. unfold getLinkedCodeMap.
  rewrite bool_decide_eq_true_2 by eauto. by rewrite Hdmm.
Qed.

Lemma getLinkedCodeMap_miss map sourceFileId virtualCode p :
  mirrorMap2DocMirrorMap p !! map_id map = None ->
  let got := get (getVirtualCodeUri sourceFileId (vc_id virtualCode))
               (vc_languageId virtualCode) (vc_snapshot virtualCode) (store p) in
  let dmm := {| dmm_document := snd got; dmm_linkedMap := map |} in
  getLinkedCodeMap (Some map) sourceFileId virtualCode p =
    ({| store := fst got;
        map2DocMap := map2DocMap p;
        mirrorMap2DocMirrorMap := <[map_id map := dmm]> (mirrorMap2DocMirrorMap p) |},
     Some dmm).
Proof.
  intros Hdmm. cbn zeta. unfold getLinkedCodeMap.
  rewrite bool_decide_eq_false_2 by (rewrite Hdmm; by intros [? ?]).
  destruct (get _ _ _ (store p)) as [store1 doc].
  cbn [fst snd mirrorMap2DocMirrorMap]. by rewrite lookup_insert_eq.
Qed.

Lemma getMaps_body_mirror virtualCode p entry :
  mirrorMap2DocMirrorMap (fst (getMaps_body virtualCode p entry))
  = mirrorMap2DocMirrorMap p.
Proof.
  destruct (map2DocMap p !! map_id (entryMap entry)) as [dm|] eqn:Hdm.
  - by rewrite (getMaps_body_hit _ _ _ _ Hdm).
  - by rewrite (getMaps_body_miss virtualCode _ _ Hdm).
Qed.

Lemma getMaps_mirror entries virtualCode p :
  mirrorMap2DocMirrorMap (fst (getMaps entries virtualCode p))
  = mirrorMap2DocMirrorMap p.
Proof.
  revert p. induction entries as [|entry entries IH]; intros p; [done|].
  rewrite getMaps_cons. cbn [fst]. by rewrite IH, getMaps_body_mirror.
Qed.

(** X20. [getLinkedCodeMap] keeps one translator per linked-map object.  For
    a virtual code with a linked map, from any state of the provider: the call
    returns a translator; a later call for a linked map of the same identity
    returns that same translator and changes nothing, whatever virtual code
    and source file it is made for; the translators of [getMaps] are left as
    they are and no document of the store is lost; and when the linked map had
    no translator, the one built holds that map, and its document is the
    store's document for the virtual code's snapshot and virtual-code URI.
    Without a linked map the call returns nothing and changes nothing. *)
Theorem getLinkedCodeMap_memoized map sourceFileId virtualCode p :
  let p' := fst (getLinkedCodeMap (Some map) sourceFileId virtualCode p) in
  getLinkedCodeMap None sourceFileId virtualCode p = (p, None)
  /\ map2DocMap p' = map2DocMap p
  /\ documents (store p) `prefix_of` documents (store p')
  /\ exists dmm,
       snd (getLinkedCodeMap (Some map) sourceFileId virtualCode p) = Some dmm
       /\ (forall map' sourceFileId' virtualCode',
             map_id map' = map_id map ->
             getLinkedCodeMap (Some map') sourceFileId' virtualCode' p' = (p', Some dmm))
       /\ (mirrorMap2DocMirrorMap p !! map_id map = None ->
           dmm_linkedMap dmm = map
           /\ is_Some (dmm_document dmm)
           /\ dmm_document dmm =
                Spec.lookupDoc (store p') (snapshot_id (vc_snapshot virtualCode))
                  (getVirtualCodeUri sourceFileId (vc_id virtualCode))).
Proof.
  cbn zeta. split; [reflexivity|].
  destruct (mirrorMap2DocMirrorMap p !! map_id map) as [dmm|] eqn:Hdmm.
  - rewrite (getLinkedCodeMap_hit _ sourceFileId virtualCode _ _ Hdmm). cbn [fst snd].
    split; [reflexivity|]. split; [reflexivity|].
    exists dmm. split; [reflexivity|]. split; [|intros [=]].
    intros map' sourceFileId' virtualCode' Hid.
    apply getLinkedCodeMap_hit. by rewrite Hid.
  - rewrite (getLinkedCodeMap_miss _ sourceFileId virtualCode _ Hdmm).
    cbn [fst snd store map2DocMap].
    split; [reflexivity|]. split; [apply get_prefix|].
    eexists. split; [reflexivity|]. split.
    + intros map' sourceFileId' virtualCode' Hid.
      apply getLinkedCodeMap_hit. cbn [mirrorMap2DocMirrorMap].
      by rewrite Hid, lookup_insert_eq.
    + intros _. cbn [dmm_linkedMap dmm_document].
      destruct (get_returns (getVirtualCodeUri sourceFileId (vc_id virtualCode))
                  (vc_languageId virtualCode) (vc_snapshot virtualCode) (store p))
        as (doc & Hdoc & Hlookup).
      split; [reflexivity|]. rewrite Hdoc, Hlookup. split; [by eexists|reflexivity].
Qed.

Lemma getLinkedCodeMap_memoized_witness :
  let linked := {| map_id := 4; map_mappings := [] |} in
  let edited :=
    {| vc_id := "script"; vc_languageId := "typescript";
       vc_snapshot := {| snapshot_id := 7; snapshot_text := "edited" |} |} in
  let p' := fst (getLinkedCodeMap (Some linked) "/a.vue" Spec.exampleVirtualCode
                   newProvider) in
  getLinkedCodeMap (Some linked) "/a.vue" edited p' =
    (p', Some {| dmm_document := Some 0%nat; dmm_linkedMap := linked |})
  /\ documents (store p') =
       [TextDocument.create "/a.vue?virtualCodeId=script" "typescript" 0 "abcde"].
Proof.
  intros linked edited p'. split; [|by vm_compute].
  destruct (getLinkedCodeMap_memoized linked "/a.vue" Spec.exampleVirtualCode newProvider)
    as (_ & _ & _ & dmm & Hdmm & Hagain & _).
  subst p'. rewrite (Hagain linked "/a.vue" edited eq_refl). f_equal.
  rewrite <- Hdmm. by vm_compute.
Defined.

(** X21. The translators of a virtual code share its document.  On a provider
    whose store and translators are in order: when [getMaps(virtualCode)] has
    been consumed and the map of one of its elements had no translator at its
    turn, then [getLinkedCodeMap(virtualCode)], for a linked map without
    translator and that element's source file, returns a translator whose
    document is the very document of the [getMaps] translator's virtual side,
    and creates no document. *)
Theorem linked_translator_shares_document entries entry more linked virtualCode p :
  Spec.providerInv (store p) -> Laws.translatorsOk p ->
  let all := entries ++ entry :: more in
  let p' := fst (getMaps all virtualCode p) in
  map2DocMap (fst (getMaps entries virtualCode p)) !! map_id (entryMap entry) = None ->
  mirrorMap2DocMirrorMap p !! map_id linked = None ->
  exists dm doc,
    snd (getMaps all virtualCode p) !! length entries = Some (Some dm)
    /\ dm_virtualFileDocument dm = Some doc
    /\ snd (getLinkedCodeMap (Some linked) (sourceFileUri entry) virtualCode p')
       = Some {| dmm_document := Some doc; dmm_linkedMap := linked |}
    /\ store (fst (getLinkedCodeMap (Some linked) (sourceFileUri entry) virtualCode p'))
       = store p'.
Proof.
  intros Hinv Hok. cbn zeta. intros Hfresh Hlinked.
  destruct (getMaps_at entries entry more virtualCode p Hinv Hok)
    as (dm & Hyield & _ & Hbuilt).
  destruct (Hbuilt Hfresh) as (_ & _ & Hvirtual & _ & [doc Hdoc]).
  exists dm, doc. split; [exact Hyield|]. split; [exact Hdoc|].
  rewrite Hdoc in Hvirtual. symmetry in Hvirtual.
  rewrite <- (getMaps_mirror (entries ++ entry :: more) virtualCode p) in Hlinked.
  rewrite (getLinkedCodeMap_miss _ (sourceFileUri entry) virtualCode _ Hlinked).
  cbn [fst snd store].
  rewrite (get_hit _ (vc_languageId virtualCode) _ _ _ Hvirtual). done.
Qed.

Lemma linked_translator_shares_document_witness :
  let entry := {| sourceFileUri := "/a.vue"; sourceLanguageId := "vue";
                  sourceSnapshot := {| snapshot_id := 1; snapshot_text := "0123456789" |};
                  entryMap := {| map_id := 9; map_mappings := Spec.exampleMap |} |} in
  let linked := {| map_id := 4; map_mappings := [] |} in
  let p' := fst (getMaps [entry] Spec.exampleVirtualCode newProvider) in
  exists dm doc,
    snd (getMaps [entry] Spec.exampleVirtualCode newProvider) !! 0%nat = Some (Some dm)
    /\ dm_virtualFileDocument dm = Some doc
    /\ snd (getLinkedCodeMap (Some linked) "/a.vue" Spec.exampleVirtualCode p')
       = Some {| dmm_document := Some doc; dmm_linkedMap := linked |}
    /\ store (fst (getLinkedCodeMap (Some linked) "/a.vue" Spec.exampleVirtualCode p'))
       = store p'.
Proof.
  intros entry linked p'.
  exact (linked_translator_shares_document [] entry [] linked Spec.exampleVirtualCode
           newProvider emptyProvider_inv newProvider_ok eq_refl eq_refl).
Defined.

(** * Out-of-document positions *)

(** ** The line table and the clamping of [offsetAt] *)

Lemma lineBreaks_bounds text :
  forall i x, x ∈ lineBreaks i text -> i < x <= i + Z.of_nat (length text).
Proof.
  induction text as [|c rest IH]; intros i x Hx; [by apply elem_of_nil in Hx|].
  cbn [lineBreaks] in Hx. cbn [length]. case_bool_decide.
  - destruct rest as [|c' rest'].
    + apply list_elem_of_singleton in Hx. simpl. lia.
    + case_bool_decide.
      * apply IH in Hx. lia.
      * apply elem_of_cons in Hx as [->|Hx]; [lia|]. apply IH in Hx. lia.
  - case_bool_decide.
    + apply elem_of_cons in Hx as [->|Hx]; [lia|]. apply IH in Hx. lia.
    + apply IH in Hx. lia.
Qed.

Lemma lineBreaks_sorted text : forall i, StronglySorted Z.lt (lineBreaks i text).
Proof.
  assert (forall i rest, StronglySorted Z.lt (lineBreaks (i + 1) rest) ->
                         StronglySorted Z.lt ((i + 1) :: lineBreaks (i + 1) rest))
    as Hcons.
  { intros i rest Hrest. constructor; [done|].
    apply Forall_forall. intros x Hx%lineBreaks_bounds. lia. }
  induction text as [|c rest IH]; intros i; [constructor|].
  cbn [lineBreaks]. case_bool_decide.
  - destruct rest as [|c' rest'].
    + repeat constructor.
    + case_bool_decide; [apply IH|apply Hcons, IH].
  - case_bool_decide; [apply Hcons, IH|apply IH].
Qed.

Lemma length_list_ascii_of_string (s : string) :
  length (String.list_ascii_of_string s) = String.length s.
Proof. induction s as [|c s IH]; [done|]. simpl. by rewrite IH. Qed.

Lemma getLineOffsets_sorted doc : StronglySorted Z.lt (getLineOffsets doc).
Proof.
  unfold getLineOffsets. constructor; [apply lineBreaks_sorted|].
  apply Forall_forall. intros x Hx%lineBreaks_bounds. lia.
Qed.

Lemma getLineOffsets_bounds doc i x :
  getLineOffsets doc !! i = Some x -> 0 <= x <= contentLength doc.
Proof.
  unfold getLineOffsets, contentLength. destruct i as [|i]; simpl.
  - intros [= <-]. lia.
  - intros Hx%list_elem_of_lookup_2%lineBreaks_bounds.
    rewrite length_list_ascii_of_string in Hx. lia.
Qed.

(** The offset [offsetAt] gives lies in the text, whatever the position. *)
Lemma offsetAt_bounds doc position : 0 <= offsetAt doc position <= contentLength doc.
Proof.
  unfold offsetAt. cbn zeta.
  assert (0 <= contentLength doc) as Hlen by (unfold contentLength; lia).
  repeat case_bool_decide; [lia|lia|].
  assert (Z.to_nat (line position) < length (getLineOffsets doc))%nat as Hline by lia.
  apply lookup_lt_is_Some in Hline as [lineOffset Hline].
  pose proof (getLineOffsets_bounds _ _ _ Hline).
  destruct (getLineOffsets doc !! S (Z.to_nat (line position))) as [next|] eqn:Hnext;
    rewrite Hline; simpl; [pose proof (getLineOffsets_bounds _ _ _ Hnext)|]; lia.
Qed.

Lemma offsetAt_before doc position : line position < 0 -> offsetAt doc position = 0.
Proof.
  intros Hline. unfold offsetAt. cbn zeta.
  rewrite bool_decide_eq_false_2 by lia. by rewrite bool_decide_eq_true_2.
Qed.

Lemma offsetAt_after doc position :
  Z.of_nat (length (getLineOffsets doc)) <= line position ->
  offsetAt doc position = contentLength doc.
Proof. intros Hline. unfold offsetAt. cbn zeta. by rewrite bool_decide_eq_true_2. Qed.

(** In a sorted table the entries that are at most [o] are the first ones. *)
Lemma sorted_filter_le (table : list Z) (o : Z) :
  StronglySorted Z.lt table ->
  (forall i x, table !! i = Some x ->
               (i < length (filter (fun x => (x <= o)%Z) table))%nat -> x <= o)
  /\ (forall i x, table !! i = Some x ->
                  (length (filter (fun x => (x <= o)%Z) table) <= i)%nat -> o < x).
Proof.
  induction 1 as [|x table Hsorted [IHle IHgt] Hx]; [done|].
  rewrite filter_cons. case_decide as Hle.
  - cbn [length]. split.
    + intros [|i] y; simpl; [by intros [= <-]|]. intros Hy Hi. apply (IHle i); [done|lia].
    + intros [|i] y; simpl; [lia|]. intros Hy Hi. apply (IHgt i); [done|lia].
  - assert (forall i y, (x :: table) !! i = Some y -> o < y) as Hall.
    { intros [|i] y; simpl; [intros [= <-]; lia|].
      intros Hy%list_elem_of_lookup_2. rewrite Forall_forall in Hx.
      specialize (Hx y Hy). lia. }
    split; [|by eauto]. intros i y Hy Hi. exfalso.
    assert (filter (fun x => x <= o) table = []) as Hnil.
    { clear -Hx Hle. induction Hx as [|y table Hy _ IH]; [done|].
      rewrite filter_cons, decide_False by lia. done. }
    rewrite Hnil in Hi. simpl in Hi. lia.
Qed.

(** [offsetAt] undoes [positionAt] on the offsets of the text, and
    [positionAt] clamps the others into it. *)
Lemma offsetAt_positionAt doc offset :
  offsetAt doc (positionAt doc offset) = Z.max (Z.min offset (contentLength doc)) 0.
Proof.
  assert (0 <= contentLength doc) as Hlen by (unfold contentLength; lia).
  unfold positionAt. cbn zeta.
  set (o := Z.max (Z.min offset (contentLength doc)) 0).
  assert (0 <= o <= contentLength doc) as Ho by lia.
  destruct (sorted_filter_le (getLineOffsets doc) o (getLineOffsets_sorted doc))
    as [Hbefore Hafter].
  set (low := length (filter (fun x => x <= o) (getLineOffsets doc))) in *.
  assert (1 <= low)%nat as Hlow.
  { subst low. unfold getLineOffsets. rewrite filter_cons, decide_True by lia.
    simpl. lia. }
  assert (low <= length (getLineOffsets doc))%nat as Hlow' by apply length_filter.
  unfold offsetAt. cbn [line character].
  rewrite bool_decide_eq_false_2 by lia.
  rewrite bool_decide_eq_false_2 by lia.
  replace (Z.to_nat (Z.of_nat low - 1)) with (pred low) by lia.
  assert (pred low < length (getLineOffsets doc))%nat as Hline by lia.
  apply lookup_lt_is_Some in Hline as [lineOffset Hline].
  pose proof (Hbefore _ _ Hline ltac:(lia)).
  replace (S (pred low)) with low by lia.
  destruct (getLineOffsets doc !! low) as [next|] eqn:Hnext; rewrite Hline; simpl.
  - pose proof (Hafter _ _ Hnext ltac:(lia)). lia.
  - lia.
Qed.

(** A position and its clamped position have the same offset. *)
Lemma offsetAt_clamped doc position :
  offsetAt doc (Laws.clamped doc position) = offsetAt doc position.
Proof.
  unfold Laws.clamped. rewrite offsetAt_positionAt.
  pose proof (offsetAt_bounds doc position). lia.
Qed.

(** ** The queries on a clamped position *)

Section Clamped.
Context {Data : Type} (this : SourceMapWithDocuments Data).

#[local] Abbreviation matchOf := Laws.matchOf.

#[local] Abbreviation fromDocOf := (Laws.fromDocOf this).

Lemma callApi_clamped api position filter :
  callApi this api (Laws.clamped (fromDocOf api) position) filter
  = callApi this api position filter.
Proof.
  destruct api; unfold callApi, getSourcePositionsBase, getGeneratedPositionsBase,
    findPositions, Laws.fromDocOf; by rewrite offsetAt_clamped.
Qed.

Lemma callApi2_clamped api position mapping :
  callApi2 this (matchOf api) (Laws.clamped (fromDocOf api) position) mapping
  = callApi2 this (matchOf api) position mapping.
Proof.
  destruct api; unfold callApi2, Laws.matchOf, matchSourcePosition,
    matchGeneratedPosition, Laws.fromDocOf; by rewrite offsetAt_clamped.
Qed.

Lemma findRanges_clamped api range filter :
  findRanges this (Laws.clampedRange (fromDocOf api) range) filter api (matchOf api)
  = findRanges this range filter api (matchOf api).
Proof.
  rewrite !findRanges_twoPass. unfold Spec.twoPass, Laws.clampedRange.
  cbn [TextDocument.start end_].
  rewrite !callApi_clamped.
  set (candidates := callApi this api (TextDocument.start range) filter).
  assert (forall c : Position * Mapping Data,
            callApi2 this (matchOf api) (Laws.clamped (fromDocOf api) (end_ range)) (snd c)
            = callApi2 this (matchOf api) (end_ range) (snd c)) as Hmatch
    by (intros c; apply callApi2_clamped).
  f_equal.
  - induction candidates as [|c candidates IH]; [done|].
    cbn [omap list_omap]. by rewrite Hmatch, IH.
  - f_equal. induction candidates as [|c candidates IH]; [done|].
    rewrite !filter_cons, Hmatch, IH. done.
Qed.

(** A position has no candidate exactly when the filter rejects every mapping
    the map finds for its offset. *)
Lemma callApi_empty api position filter :
  callApi this api position filter = [] <->
  Forall (fun found => filter (data (snd found)) = false)
    (match api with
     | getSourcePositionsBase_ =>
         findMatching (map this) (offsetAt (fromDocOf api) position)
           generatedOffsets sourceOffsets
     | getGeneratedPositionsBase_ =>
         findMatching (map this) (offsetAt (fromDocOf api) position)
           sourceOffsets generatedOffsets
     end).
Proof.
  assert (forall toDoc (found : list (Z * Mapping Data)),
            omap (fun mapped : Z * Mapping Data =>
                    if negb (filter (data (snd mapped))) then None
                    else Some (positionAt toDoc (fst mapped), snd mapped)) found = []
            <-> Forall (fun found => filter (data (snd found)) = false) found) as Hloop.
  { intros toDoc found. induction found as [|mapped found IH].
    - split; [constructor|done].
    - cbn [omap list_omap]. destruct (filter (data (snd mapped))) eqn:Hfilter; simpl.
      + split; [done|]. intros Hall. apply Forall_cons in Hall as [Hhead _]. congruence.
      + rewrite IH. split; [by constructor|]. by intros [_ ?]%Forall_cons. }
  destruct api; apply Hloop.
Qed.

(** A range has no translation exactly when one of its two end points has no
    candidate. *)
Lemma findRanges_empty api range filter :
  findRanges this range filter api (matchOf api) = [] <->
  callApi this api (TextDocument.start range) filter = []
  \/ callApi this api (end_ range) filter = [].
Proof.
  rewrite findRanges_twoPass. split.
  - intros Hnone.
    destruct (callApi this api (TextDocument.start range) filter) as [|c cs] eqn:Hstart;
      [by left|].
    destruct (callApi this api (end_ range) filter) as [|m ms] eqn:Hend; [by right|].
    exfalso.
    destruct (callApi2 this (matchOf api) (end_ range) (snd c)) as [e|] eqn:Hmatch.
    + assert ({| TextDocument.start := fst c; end_ := e |}
              ∈ Spec.twoPass (callApi this api) (callApi2 this (matchOf api)) range filter)
        as Hin.
      { apply twoPass_elem. left. exists c, e. rewrite Hstart.
        split; [apply list_elem_of_here|done]. }
      rewrite Hnone in Hin. by apply elem_of_nil in Hin.
    + assert ({| TextDocument.start := fst c; end_ := fst m |}
              ∈ Spec.twoPass (callApi this api) (callApi2 this (matchOf api)) range filter)
        as Hin.
      { apply twoPass_elem. right. exists c, m. rewrite Hstart, Hend.
        split; [apply list_elem_of_here|]. split; [done|].
        split; [apply list_elem_of_here|done]. }
      rewrite Hnone in Hin. by apply elem_of_nil in Hin.
  - intros Hnone.
    destruct (Spec.twoPass (callApi this api) (callApi2 this (matchOf api)) range filter)
      as [|r rs] eqn:Hranges; [done|]. exfalso.
    assert (r ∈ Spec.twoPass (callApi this api) (callApi2 this (matchOf api)) range filter)
      as Hin by (rewrite Hranges; apply list_elem_of_here).
    apply twoPass_elem in Hin as [(c & e & Hc & Hmatch & _)|(c & m & Hc & _ & Hm & _)].
    + destruct Hnone as [Hnone|Hnone]; [rewrite Hnone in Hc; by apply elem_of_nil in Hc|].
      destruct c as [pos mapping]. cbn [snd] in Hmatch.
      assert (mapping ∈ map this /\ filter (data mapping) = true) as [Hmapping Hfilter].
      { destruct api; apply findPositions_elem in Hc; tauto. }
      pose proof (match_is_candidate this api (end_ range) filter e mapping
                    Hmapping Hfilter Hmatch) as Hin.
      rewrite Hnone in Hin. by apply elem_of_nil in Hin.
    + destruct Hnone as [Hnone|Hnone].
      * rewrite Hnone in Hc. by apply elem_of_nil in Hc.
      * rewrite Hnone in Hm. by apply elem_of_nil in Hm.
Qed.

End Clamped.

(** C8, as the code has it.  No query of the translator rejects a position:
    a position is used only through [offsetAt] of the document it lies in,
    which clamps it into the text (a line below 0 gives offset 0, a line past
    the last one gives the end of the text, and in general an offset of the
    text), so every position, positions, range and ranges query, in both
    directions, and the linked-positions query answer for a position outside
    the document what they answer for the clamped position, which may be a
    result (the optional of a query is the first value of its sequence).  A positions query is empty exactly when the filter rejects every
    mapping the map finds for the clamped offset; a ranges query is empty
    exactly when one of the two end points of the range has no position; the
    linked positions are empty exactly when the map links no offset; and each
    optional is empty exactly when its sequence is. *)
Theorem translator_answers_clamped_position :
  (forall doc position,
      0 <= offsetAt doc position <= contentLength doc
      /\ (line position < 0 -> offsetAt doc position = 0)
      /\ (Z.of_nat (length (getLineOffsets doc)) <= line position ->
          offsetAt doc position = contentLength doc)
      /\ offsetAt doc (Laws.clamped doc position) = offsetAt doc position)
  /\ (forall Data (this : SourceMapWithDocuments Data) position range filter,
        getSourcePositions this position filter
          = getSourcePositions this
              (Laws.clamped (virtualFileDocument this) position) filter
        /\ getGeneratedPositions this position filter
           = getGeneratedPositions this
               (Laws.clamped (sourceFileDocument this) position) filter
        /\ getSourceRanges this range filter
           = getSourceRanges this
               (Laws.clampedRange (virtualFileDocument this) range) filter
        /\ getGeneratedRanges this range filter
           = getGeneratedRanges this
               (Laws.clampedRange (sourceFileDocument this) range) filter
        /\ getSourcePosition this position filter
           = getSourcePosition this
               (Laws.clamped (virtualFileDocument this) position) filter
        /\ getGeneratedPosition this position filter
           = getGeneratedPosition this
               (Laws.clamped (sourceFileDocument this) position) filter
        /\ getSourceRange this range filter
           = getSourceRange this
               (Laws.clampedRange (virtualFileDocument this) range) filter
        /\ getGeneratedRange this range filter
           = getGeneratedRange this
               (Laws.clampedRange (sourceFileDocument this) range) filter
        /\ (getSourcePositions this position filter = [] <->
            Forall (fun found => filter (data (snd found)) = false)
              (findMatching (map this) (offsetAt (virtualFileDocument this) position)
                 generatedOffsets sourceOffsets))
        /\ (getGeneratedPositions this position filter = [] <->
            Forall (fun found => filter (data (snd found)) = false)
              (findMatching (map this) (offsetAt (sourceFileDocument this) position)
                 sourceOffsets generatedOffsets))
        /\ (getSourceRanges this range filter = [] <->
            getSourcePositions this (TextDocument.start range) filter = []
            \/ getSourcePositions this (end_ range) filter = [])
        /\ (getGeneratedRanges this range filter = [] <->
            getGeneratedPositions this (TextDocument.start range) filter = []
            \/ getGeneratedPositions this (end_ range) filter = [])
        /\ (getSourcePosition this position filter = None
            <-> getSourcePositions this position filter = [])
        /\ (getGeneratedPosition this position filter = None
            <-> getGeneratedPositions this position filter = [])
        /\ (getSourceRange this range filter = None
            <-> getSourceRanges this range filter = [])
        /\ (getGeneratedRange this range filter = None
            <-> getGeneratedRanges this range filter = []))
  /\ (forall Data (this : LinkedCodeMapWithDocument Data) position,
        getLinkedCodePositions this position
          = getLinkedCodePositions this (Laws.clamped (document this) position)
        /\ (getLinkedCodePositions this position = [] <->
            getLinkedOffsets (linkedMap this) (offsetAt (document this) position) = [])).
Proof.
  split; [|split].
  - intros doc position. split; [apply offsetAt_bounds|].
    split; [apply offsetAt_before|]. split; [apply offsetAt_after|apply offsetAt_clamped].
  - intros Data this position range filter.
    assert (forall api position,
              fst <$> callApi this api position filter = [] <->
              callApi this api position filter = []) as Hfst.
    { intros api p. split; [apply fmap_nil_inv|by intros ->]. }
    pose proof (f_equal (fmap fst)
                  (eq_sym (callApi_clamped this getSourcePositionsBase_ position filter)))
      as Hsource.
    pose proof (f_equal (fmap fst)
                  (eq_sym (callApi_clamped this getGeneratedPositionsBase_ position filter)))
      as Hgenerated.
    pose proof (eq_sym (findRanges_clamped this getSourcePositionsBase_ range filter))
      as Hsources.
    pose proof (eq_sym (findRanges_clamped this getGeneratedPositionsBase_ range filter))
      as Hgenerateds.
    split; [exact Hsource|]. split; [exact Hgenerated|].
    split; [exact Hsources|]. split; [exact Hgenerateds|].
    split; [exact (f_equal head Hsource)|]. split; [exact (f_equal head Hgenerated)|].
    split; [exact (f_equal head Hsources)|]. split; [exact (f_equal head Hgenerateds)|].
    split; [|split; [|split; [|split]]].
    + etrans; [exact (Hfst getSourcePositionsBase_ position)|].
      exact (callApi_empty this getSourcePositionsBase_ position filter).
    + etrans; [exact (Hfst getGeneratedPositionsBase_ position)|].
      exact (callApi_empty this getGeneratedPositionsBase_ position filter).
    + etrans; [exact (findRanges_empty this getSourcePositionsBase_ range filter)|].
      pose proof (Hfst getSourcePositionsBase_ (TextDocument.start range)) as Hstart.
      pose proof (Hfst getSourcePositionsBase_ (end_ range)) as Hend.
      unfold getSourcePositions. cbn [callApi] in *. tauto.
    + etrans; [exact (findRanges_empty this getGeneratedPositionsBase_ range filter)|].
      pose proof (Hfst getGeneratedPositionsBase_ (TextDocument.start range)) as Hstart.
      pose proof (Hfst getGeneratedPositionsBase_ (end_ range)) as Hend.
      unfold getGeneratedPositions. cbn [callApi] in *. tauto.
    + split; [|split; [|split]]; apply head_None.
  - intros Data this position. unfold getLinkedCodePositions.
    rewrite offsetAt_clamped. split; [done|].
    split; [apply fmap_nil_inv|by intros ->].
Qed.

Lemma translator_answers_clamped_position_witness :
  getSourcePositions Spec.exampleTranslator {| line := -3; character := 7 |} acceptAll
    = getSourcePositions Spec.exampleTranslator {| line := 0; character := 0 |} acceptAll
  /\ getGeneratedRanges Spec.boundaryExample
       {| TextDocument.start := {| line := -1; character := 0 |};
          end_ := {| line := 3; character := 0 |} |} acceptAll
     = getGeneratedRanges Spec.boundaryExample
         {| TextDocument.start := Spec.at_ 0; end_ := Spec.at_ 7 |} acceptAll
  /\ getGeneratedPositions Spec.boundaryExample (Spec.at_ 3) acceptAll = [].
Proof.
  destruct translator_answers_clamped_position as (_ & Hqueries & _).
  split; [|split].
  - exact (proj1 (Hqueries _ Spec.exampleTranslator {| line := -3; character := 7 |}
                    {| TextDocument.start := Spec.at_ 0; end_ := Spec.at_ 0 |} acceptAll)).
  - destruct (Hqueries _ Spec.boundaryExample (Spec.at_ 0)
                {| TextDocument.start := {| line := -1; character := 0 |};
                   end_ := {| line := 3; character := 0 |} |} acceptAll)
      as (_ & _ & _ & Hranges & _).
    exact Hranges.
  - destruct (Hqueries _ Spec.boundaryExample (Spec.at_ 3)
                {| TextDocument.start := Spec.at_ 0; end_ := Spec.at_ 0 |} acceptAll)
      as (_ & _ & _ & _ & _ & _ & _ & _ & _ & Hempty & _).
    apply Hempty. by vm_compute.
Defined.

(** C8 as stated fails for positions outside the document: they do yield
    results.  A position on line -3 of the generated document is read as
    offset 0 and has the source position (0, 0); a position on line 5 of the
    one-line source text [abcdefg] is read as the end of the text, offset 7,
    which segment B maps to the generated position (0, 5); and a range from
    line -1 to line 3 is answered as the range from offset 0 to offset 7. *)
Lemma out_of_document_position_is_answered :
  getSourcePosition Spec.exampleTranslator {| line := -3; character := 7 |} acceptAll
    = Some {| line := 0; character := 0 |}
  /\ getGeneratedPositions Spec.boundaryExample {| line := 5; character := 0 |} acceptAll
     = [{| line := 0; character := 5 |}]
  /\ getGeneratedRange Spec.boundaryExample
       {| TextDocument.start := {| line := -1; character := 0 |};
          end_ := {| line := 3; character := 0 |} |} acceptAll
     = Some {| TextDocument.start := {| line := 0; character := 0 |};
               end_ := {| line := 0; character := 5 |} |}.
Proof. split; [by vm_compute|]. split; by vm_compute. Qed.

(** * What [transformDiagnostic] writes *)

(** The own span of [d] is transformed without touching the slot of another
    diagnostic. *)
Lemma transformOwnSpan_slots files d st4 st5 x :
  transformOwnSpan files d st4 = Ok (tt, st5) ->
  x <> d ->
  transformedDiagnostics st5 !! x = transformedDiagnostics st4 !! x.
Proof.
  intros Hrun Hx. unfold transformOwnSpan in Hrun.
  inv_bind Hrun. unfold load in Hrun_l.
  destruct (heap st4 !! d) as [o|]; [|done]. injection Hrun_l as <- <-.
  assert (forall v, cacheSet d v st4 = Ok (tt, st5) ->
            transformedDiagnostics st5 !! x = transformedDiagnostics st4 !! x) as Hset.
  { intros v [= <-]. simpl. by rewrite lookup_insert_ne. }
  destruct (file o); [|by eapply Hset].
  destruct (start o); [|by eapply Hset].
  destruct (length_ o); [|by eapply Hset].
  destruct (getVirtualFileAndMap files _) as [[[? ?] ?]|]; [|by eapply Hset].
  destruct (transformRange _ _ _ _ _); [|by injection Hrun as <-].
  inv_bind Hrun. injection Hrun_l as <- <-. injection Hrun as <-. simpl.
  by rewrite lookup_insert_ne.
Qed.

(** The values of [relatedInformation.map(d => transformDiagnostic(files, d))]
    are the translations the related diagnostics have when the map is done. *)
Lemma mapM_answers files fuel related :
  forall st rs st',
    mapM (transformDiagnostic fuel files) related st = Ok (rs, st') ->
    rs = Laws.translation st' <$> related.
Proof.
  induction related as [|x related IH]; intros st rs st' Hrun.
  - by injection Hrun as <- <-.
  - cbn [mapM] in Hrun. inv_bind Hrun. inv_bind Hrun. injection Hrun as <- <-.
    destruct (transformDiagnostic_slot _ _ _ _ _ _ Hrun_l) as [Hx ->].
    pose proof (mapM_extends _ _ (transformDiagnostic_extends files fuel) _ _ _ Hrun_l0)
      as [_ _ Hslots _ _].
    cbn [fmap list_fmap]. unfold Laws.translation at 1.
    rewrite (Hslots x Hx). f_equal. by eapply IH.
Qed.

(** The state in which the related information of a diagnostic without a
    slot has been assigned, and what was assigned. *)
Lemma transformDiagnostic_related files fuel d st r st' o :
  d ∉ Spec.cached st ->
  transformDiagnostic (S fuel) files d st = Ok (r, st') ->
  heap st !! d = Some o ->
  exists st2 st3,
    heap st2 = heap st
    /\ transformedDiagnostics st2 = <[d := None]> (transformedDiagnostics st)
    /\ heap st' !! d =
         Some (match relatedInformation o with
               | Some related =>
                   withRelated o (Some (filterNotEmpty (Laws.translation st3 <$> related)))
               | None => o
               end)
    /\ match relatedInformation o with
       | Some related =>
           exists rs, mapM (transformDiagnostic fuel files) related st2 = Ok (rs, st3)
       | None => st3 = st2
       end
    /\ transformedDiagnostics st3 !! d = Some None
    /\ (forall x, x <> d ->
                  transformedDiagnostics st' !! x = transformedDiagnostics st3 !! x)
    /\ (forall x ox, x <> d -> heap st3 !! x = Some ox -> heap st' !! x = Some ox)
    /\ Spec.cached st' = Spec.cached st3.
Proof.
  intros Hmiss Hrun Ho.
  destruct (transformDiagnostic_miss _ _ _ _ _ _ Hmiss Hrun)
    as (st1 & st2 & st4 & H1 & H2 & H3 & H4 & _).
  destruct (reserve_extends _ _ _ _ Hmiss H1 H2) as (Hext2 & Hheap2 & Hslot2 & Hc2 & _).
  assert (d ∈ Spec.cached st2) as Hd2 by (rewrite Hc2; set_solver).
  assert (transformedDiagnostics st2 = <[d := None]> (transformedDiagnostics st)) as Hslots2.
  { injection H1 as <-. by injection H2 as <-. }
  destruct (transformRelated_extends _ _ _ _ _ (transformDiagnostic_extends files fuel)
              Hext2 Hmiss Hd2 H3) as (Hext4 & Hd4 & _ & _).
  destruct (transformOwnSpan_extends _ _ _ _ _ Hext4 Hmiss Hd4 H4) as (_ & Hc5 & _ & _).
  pose proof (transformOwnSpan_prefix _ _ _ _ H4) as Hprefix.
  assert (forall x ox, heap st4 !! x = Some ox -> heap st' !! x = Some ox) as Hheap5.
  { intros x ox Hx. by eapply prefix_lookup_Some. }
  unfold transformRelated in H3. inv_bind H3. unfold load in H3_l.
  rewrite Hheap2, Ho in H3_l. injection H3_l as <- <-.
  destruct (relatedInformation o) as [related|] eqn:Hrel.
  - inv_bind H3.
    pose proof (mapM_extends _ _ (transformDiagnostic_extends files fuel) _ _ _ H3_l)
      as [_ _ Hslots3 Hobjects3 _].
    rewrite <- Hheap2 in Ho. destruct (Hobjects3 d o Ho) as (o3 & Ho3 & _ & Hkeep).
    rewrite (Hkeep (or_introl Hd2)) in Ho3.
    rewrite (mapM_answers _ _ _ _ _ _ H3_l) in H3.
    unfold storeRelated in H3. rewrite Ho3 in H3. injection H3 as <-.
    exists st2, st0. split; [done|]. split; [done|]. split; [|split; [eauto|split]].
    + eapply prefix_lookup_Some; [|done]. cbn [heap].
      apply list_lookup_insert_eq. by eapply lookup_lt_Some.
    + by rewrite (Hslots3 d Hd2).
    + split; [|split].
      * intros x Hx. by rewrite (transformOwnSpan_slots _ _ _ _ _ H4 Hx).
      * intros x ox Hx Hox. apply Hheap5. cbn [heap].
        by rewrite list_lookup_insert_ne.
      * rewrite Hc5. by apply dom_cached.
  - injection H3 as <-.
    exists st2, st2. split; [done|]. split; [done|]. split; [|split; [done|split]].
    + eapply prefix_lookup_Some; [|done]. by rewrite Hheap2.
    + done.
    + split; [|split; [|done]].
      * intros x Hx. by apply (transformOwnSpan_slots _ _ _ _ _ H4).
      * intros x ox _. apply Hheap5.
Qed.

Lemma filterNotEmpty_cons {A} (v : option A) (values : list (option A)) :
  filterNotEmpty (v :: values) =
    match v with
    | Some a => a :: filterNotEmpty values
    | None => filterNotEmpty values
    end.
Proof.
  unfold filterNotEmpty. rewrite filter_cons.
  destruct v; [by rewrite decide_True|by rewrite decide_False].
Qed.

Lemma filterNotEmpty_translations st d related :
  Laws.translationsOf st related
    (filterNotEmpty (Laws.relatedTranslation st d <$> related)).
Proof.
  induction related as [|x related (kept & Hsub & Hall)].
  - exists []. split; [done|constructor].
  - cbn [fmap list_fmap]. rewrite filterNotEmpty_cons.
    destruct (Laws.relatedTranslation st d x) as [v|] eqn:Hx.
    + exists (x :: kept). split; [by apply sublist_skip|]. constructor; [|done].
      unfold Laws.relatedTranslation, Laws.translation in Hx.
      case_decide; [done|].
      by destruct (transformedDiagnostics st !! x) as [[?|]|]; simplify_eq/=.
    + exists kept. split; [by apply sublist_cons|done].
Qed.

Lemma relatedReplaced_mono st st' o o' :
  Laws.relatedReplaced st o o' ->
  (forall y v, transformedDiagnostics st !! y = Some (Some v) ->
               transformedDiagnostics st' !! y = Some (Some v)) ->
  Laws.relatedReplaced st' o o'.
Proof.
  unfold Laws.relatedReplaced. intros Hreplaced Hslots.
  destruct (relatedInformation o) as [related|]; [|done].
  destruct Hreplaced as (l & -> & kept & Hsub & Hall).
  exists l. split; [done|]. exists kept. split; [done|].
  eapply Forall2_impl; [done|]. intros y v. apply Hslots.
Qed.

(** What the call writes to the diagnostic it is given. *)
Lemma transformDiagnostic_assigns files fuel d st r st' o :
  d ∉ Spec.cached st ->
  transformDiagnostic fuel files d st = Ok (r, st') ->
  heap st !! d = Some o ->
  heap st' !! d =
    Some (match relatedInformation o with
          | Some related =>
              withRelated o
                (Some (filterNotEmpty (Laws.relatedTranslation st' d <$> related)))
          | None => o
          end).
Proof.
  intros Hmiss Hrun Ho. destruct fuel as [|fuel]; [done|].
  destruct (transformDiagnostic_related _ _ _ _ _ _ _ Hmiss Hrun Ho)
    as (st2 & st3 & _ & _ & Hd & _ & Hslot & Hslots & _).
  rewrite Hd. destruct (relatedInformation o) as [related|]; [|done].
  assert (Laws.translation st3 <$> related
          = Laws.relatedTranslation st' d <$> related) as ->; [|done].
  apply list_fmap_ext. intros i x _.
  unfold Laws.relatedTranslation, Laws.translation. case_decide as Hx.
  - subst x. by rewrite Hslot.
  - by rewrite (Hslots x Hx).
Qed.

Section Computed.
Variable files : FileRegistry.

#[local] Abbreviation computes := (Laws.computes files).

Lemma mapM_computes fuel related :
  computes fuel ->
  forall st rs st',
    mapM (transformDiagnostic fuel files) related st = Ok (rs, st') ->
    forall x o,
      heap st !! x = Some o -> x ∉ Spec.cached st -> x ∈ Spec.cached st' ->
      exists o', heap st' !! x = Some o' /\ Laws.relatedReplaced st' o o'.
Proof.
  intros IH. induction related as [|y related IHrelated]; intros st rs st' Hrun x o Hx Hnew Hx'.
  - injection Hrun as <- <-. done.
  - cbn [mapM] in Hrun. inv_bind Hrun. inv_bind Hrun. injection Hrun as <- <-.
    pose proof (transformDiagnostic_extends _ _ _ _ _ _ Hrun_l) as [_ _ _ Hobjects _].
    pose proof (mapM_extends _ _ (transformDiagnostic_extends files fuel) _ _ _ Hrun_l0)
      as [_ _ Hslots Hobjects' _].
    destruct (decide (x ∈ Spec.cached st0)) as [Hthere|Hlater].
    + destruct (IH _ _ _ _ Hrun_l x o Hx Hnew Hthere) as (o0 & Ho0 & Hreplaced).
      destruct (Hobjects' x o0 Ho0) as (o' & Ho' & _ & Hkeep).
      rewrite (Hkeep (or_introl Hthere)) in Ho'.
      exists o0. split; [done|]. eapply relatedReplaced_mono; [done|].
      intros z v Hz. rewrite Hslots; [done|]. apply cached_has. eauto.
    + destruct (Hobjects x o Hx) as (o0 & Ho0 & _ & Hkeep).
      rewrite (Hkeep (or_intror Hlater)) in Ho0.
      by eapply IHrelated.
Qed.

Lemma transformDiagnostic_computes fuel : computes fuel.
Proof.
  induction fuel as [|fuel IH]; intros d st r st' Hrun x o Hx Hnew Hx'; [done|].
  destruct (decide (d ∈ Spec.cached st)) as [Hhit|Hmiss].
  - apply cached_has in Hhit as [v Hv].
    rewrite (transformDiagnostic_hit _ _ _ _ _ Hv) in Hrun.
    injection Hrun as <- <-. done.
  - destruct (decide (x = d)) as [->|Hne].
    + eexists. split; [by eapply transformDiagnostic_assigns|].
      unfold Laws.relatedReplaced. destruct (relatedInformation o) as [related|]; [|done].
      eexists. split; [done|]. apply filterNotEmpty_translations.
    + assert (is_Some (heap st !! d)) as [od Hd].
      { apply lookup_lt_is_Some. cbn [transformDiagnostic] in Hrun.
        destruct (transformDiagnostic_miss _ _ _ _ _ _ Hmiss Hrun)
          as (st1 & st2 & st4 & H1 & H2 & H3 & _).
        injection H1 as <-. injection H2 as <-.
        unfold transformRelated in H3. inv_bind H3. unfold load in H3_l. cbn [heap] in H3_l.
        destruct (heap st !! d) eqn:Hd; [|done]. by eapply lookup_lt_Some. }
      destruct (transformDiagnostic_related _ _ _ _ _ _ _ Hmiss Hrun Hd)
        as (st2 & st3 & Hheap2 & Hslots2 & _ & Hmap & Hslot3 & Hslots & Hheap & Hcached).
      assert (x ∉ Spec.cached st2) as Hnew2.
      { unfold Spec.cached in *. rewrite Hslots2, dom_insert. set_solver. }
      rewrite Hcached in Hx'. rewrite <- Hheap2 in Hx.
      destruct (relatedInformation od) as [related|].
      * destruct Hmap as [rs Hmap].
        destruct (mapM_computes _ _ IH _ _ _ Hmap x o Hx Hnew2 Hx') as (o3 & Ho3 & Hreplaced).
        exists o3. split; [by apply Hheap|].
        eapply relatedReplaced_mono; [done|].
        intros y v Hy. rewrite Hslots; [done|]. intros ->. congruence.
      * subst st3. done.
Qed.

End Computed.

(** A diagnostic that has no span to translate is answered by itself. *)
Lemma transformDiagnostic_self files fuel d st r st' o :
  d ∉ Spec.cached st ->
  transformDiagnostic fuel files d st = Ok (r, st') ->
  heap st !! d = Some o ->
  file o = None \/ start o = None \/ length_ o = None
  \/ (exists fileName, file o = Some fileName
                       /\ getVirtualFileAndMap files fileName = None) ->
  r = Some d.
Proof.
  intros Hmiss Hrun Ho Hcase. destruct fuel as [|fuel]; [done|].
  destruct (transformDiagnostic_own_span _ _ _ _ _ _ _ Hmiss Hrun Ho)
    as (st4 & o4 & Hown & -> & _ & _ & Ho4 & Hsame & _).
  unfold withRelated in Hsame. injection Hsame as Hfile Hstart Hlength _ _.
  unfold transformOwnSpan in Hown. inv_bind Hown.
  unfold load in Hown_l. rewrite Ho4 in Hown_l. injection Hown_l as <- <-.
  rewrite Hfile, Hstart, Hlength in Hown.
  assert (cacheSet d (Some d) st4 = Ok (tt, st') ->
          default None (transformedDiagnostics st' !! d) = Some d) as Hself.
  { intros [= <-]. simpl. by rewrite lookup_insert_eq. }
  destruct Hcase as [Hnone|[Hnone|[Hnone|(fileName & Hname & Hnone)]]].
  - rewrite Hnone in Hown. by apply Hself.
  - rewrite Hnone in Hown. destruct (file o); by apply Hself.
  - rewrite Hnone in Hown. destruct (file o), (start o); by apply Hself.
  - rewrite Hname in Hown. destruct (start o); [|by apply Hself].
    destruct (length_ o); [|by apply Hself].
    rewrite Hnone in Hown. by apply Hself.
Qed.

(** C4, as the code has it.  [transformDiagnostic] changes its input in
    place.  To a diagnostic without slot that has related information it
    assigns, as the diagnostic's own [relatedInformation], the list, in order,
    of the translations of its related diagnostics, leaving out those without
    translation and the diagnostic itself (whose slot holds [undefined]
    meanwhile); a diagnostic without related information is left as it is.
    Every diagnostic whose translation the call computes gets, in the same
    way, translations of some of its related diagnostics.  A diagnostic
    without file, start or length, or of a file that is not a registered
    generated document, is returned as the input object itself.  Nothing else
    is changed: a diagnostic that had a slot before the call or has none after
    it is unchanged, the slots that existed before the call keep their values,
    and a diagnostic that already has a slot is answered from the slot without
    any change.  [transformFileTextChanges] returns the batch as it is for a
    file name that is not a registered generated document, and otherwise a
    batch with the same file name and [isNewFile]. *)
Theorem transformDiagnostic_assigns_related files :
  (forall fuel d st r st',
      transformDiagnostic fuel files d st = Ok (r, st') ->
      (forall o,
          d ∉ Spec.cached st -> heap st !! d = Some o ->
          heap st' !! d =
            Some (match relatedInformation o with
                  | Some related =>
                      withRelated o
                        (Some (filterNotEmpty
                                 (Laws.relatedTranslation st' d <$> related)))
                  | None => o
                  end)
          /\ (file o = None \/ start o = None \/ length_ o = None
              \/ (exists fileName, file o = Some fileName
                                   /\ getVirtualFileAndMap files fileName = None) ->
              r = Some d))
      /\ (forall x o,
            heap st !! x = Some o -> x ∉ Spec.cached st -> x ∈ Spec.cached st' ->
            exists o', heap st' !! x = Some o' /\ Laws.relatedReplaced st' o o')
      /\ (forall x o,
            heap st !! x = Some o -> x ∈ Spec.cached st \/ x ∉ Spec.cached st' ->
            heap st' !! x = Some o)
      /\ (forall x,
            x ∈ Spec.cached st ->
            transformedDiagnostics st' !! x = transformedDiagnostics st !! x)
      /\ (d ∈ Spec.cached st -> st' = st /\ r = Laws.translation st d))
  /\ (forall changes filter,
        exists output,
          transformFileTextChanges files changes filter = Some output
          /\ ftc_fileName output = ftc_fileName changes
          /\ isNewFile output = isNewFile changes
          /\ (getVirtualFileAndMap files (ftc_fileName changes) = None ->
              output = changes)).
Proof.
  split.
  - intros fuel d st r st' Hrun.
    destruct (transformDiagnostic_extends _ _ _ _ _ _ Hrun) as [_ _ Hslots Hobjects _].
    split; [|split; [|split; [|split; [done|]]]].
    + intros o Hmiss Ho. split.
      * by eapply transformDiagnostic_assigns.
      * by eapply transformDiagnostic_self.
    + by eapply transformDiagnostic_computes.
    + intros x o Hx Hcase. destruct (Hobjects x o Hx) as (o' & Hx' & _ & Hkeep).
      by rewrite Hx', (Hkeep Hcase).
    + intros [v Hv]%cached_has. destruct fuel as [|fuel]; [done|].
      rewrite (transformDiagnostic_hit _ _ _ _ _ Hv) in Hrun.
      injection Hrun as <- <-. unfold Laws.translation. by rewrite Hv.
  - intros changes filter. unfold transformFileTextChanges.
    destruct (getVirtualFileAndMap files (ftc_fileName changes))
      as [[[virtualCode source] map]|]; eexists; (split; [reflexivity|]); done.
Qed.

Lemma transformDiagnostic_assigns_related_witness :
  let st := Spec.newState [Spec.mappedDiagnostic; Spec.unmappedDiagnostic] in
  exists r st',
    transformDiagnostic 3 Spec.exampleFiles 1 st = Ok (r, st')
    /\ heap st' !! 1%nat = Some (withRelated Spec.unmappedDiagnostic (Some [2%nat]))
    /\ exists o', heap st' !! 0%nat = Some o'
                  /\ Laws.relatedReplaced st' Spec.mappedDiagnostic o'.
Proof.
  intros st.
  destruct (transformDiagnostic 3 Spec.exampleFiles 1 st) as [[r st']| |] eqn:Hrun;
    [|by vm_compute in Hrun|by vm_compute in Hrun].
  exists r, st'. split; [done|].
  destruct (proj1 (transformDiagnostic_assigns_related Spec.exampleFiles) _ _ _ _ _ Hrun)
    as (Hinput & Hcomputed & _).
  assert (st' = match transformDiagnostic 3 Spec.exampleFiles 1 st with
                | Ok (_, st') => st'
                | _ => st
                end) as Hst' by (by rewrite Hrun).
  split.
  - rewrite (proj1 (Hinput Spec.unmappedDiagnostic ltac:(by vm_compute) eq_refl)).
    rewrite Hst'. by vm_compute.
  - apply (Hcomputed 0%nat Spec.mappedDiagnostic eq_refl); [by vm_compute|].
    rewrite Hst'. by vm_compute.
Defined.
